(** * AI-text-adv: prompt composer, turn engine and save retention

    A shallow embedding of [src/libs/prompt_manager.py],
    [src/game_engine.py], the colouring of [src/libs/practical_funcs.py]
    and the save retention and the history screen of [src/main.py],
    with the properties of the narrative turn engine stated over it.

    Conventions.
    - A Python [str] is a list of Unicode code points ([list N]), so that
      [len] counts what Python counts.  ASCII literals are written with
      [u "..."]; other literals are spelled as code points.
    - Python [int] is [Z]; a [dict] keyed by strings is a [gmap]; a list is
      a [list].
    - A method that mutates [self] takes the old object and returns the new
      one next to its result; an exception that leaves the method is a
      result too, and carries the object as the method left it.
    - The decorator [log_exceptions] of [libs/logger.py] is not among the
      sources at hand: a decorated method is modelled by its body, that
      is, the decorator is taken to log an exception and raise it again.
    - Printing, logging, the loading animation and the operator's key
      presses ([input]) change nothing the properties speak of and are
      left out. *)

From Stdlib Require Import ZArith NArith List Bool Ascii String Lia QArith.
From Stdlib Require Import Sorted Permutation.
From stdpp Require Import base tactics option list gmap sorting.

Set Warnings "-register-all".
Local Open Scope Z_scope.

(** ** Python strings *)

Module PyStr.

Abbreviation char := N.
Abbreviation str := (list N).

(** ASCII literal to code points. *)
Definition u (s : string) : str :=
  List.map N_of_ascii (list_ascii_of_string s).

Definition len (s : str) : Z := Z.of_nat (length s).

(** [bool(s)] *)
Definition nonempty (s : str) : bool :=
  match s with [] => false | _ => true end.

Fixpoint starts_with (p s : str) : bool :=
  match p, s with
  | [], _ => true
  | _ :: _, [] => false
  | a :: p', b :: s' => N.eqb a b && starts_with p' s'
  end.

(** [s.endswith(p)] *)
Definition ends_with (p s : str) : bool :=
  starts_with (rev p) (rev s).

(** [s.find(c)] for a one-character needle: first index, or -1. *)
Fixpoint find_from (c : char) (s : str) (i : Z) : Z :=
  match s with
  | [] => -1
  | x :: s' => if N.eqb x c then i else find_from c s' (i + 1)
  end.

Definition find (c : char) (s : str) : Z := find_from c s 0.

(** [s.rfind(c)]: last index, or -1. *)
Fixpoint rfind_from (c : char) (s : str) (i : Z) (last : Z) : Z :=
  match s with
  | [] => last
  | x :: s' => rfind_from c s' (i + 1) (if N.eqb x c then i else last)
  end.

Definition rfind (c : char) (s : str) : Z := rfind_from c s 0 (-1).

(** [s[a:b]] for non-negative [a], [b]. *)
Definition slice (a b : Z) (s : str) : str :=
  take (Z.to_nat b - Z.to_nat a)%nat (drop (Z.to_nat a) s).

(** [s.replace(old, new)]: left to right, non-overlapping.  [skip] counts
    the characters of a match that are still to be dropped. *)
Fixpoint replace_go (old new : str) (skip : nat) (s : str) : str :=
  match s with
  | [] => []
  | c :: s' =>
      match skip with
      | S k => replace_go old new k s'
      | O =>
          if starts_with old s
          then new ++ replace_go old new (length old - 1)%nat s'
          else c :: replace_go old new O s'
      end
  end.

Definition replace (old new : str) (s : str) : str :=
  match old with
  | [] => new ++ flat_map (fun c => c :: new) s
  | _ => replace_go old new O s
  end.

(** [sep.join(parts)] *)
Fixpoint join (sep : str) (parts : list str) : str :=
  match parts with
  | [] => []
  | [p] => p
  | p :: rest => p ++ sep ++ join sep rest
  end.

(** [s.split(c)] for a one-character separator. *)
Fixpoint split_go (c : char) (s : str) (cur : str) : list str :=
  match s with
  | [] => [rev cur]
  | x :: s' =>
      if N.eqb x c then rev cur :: split_go c s' []
      else split_go c s' (x :: cur)
  end.

Definition split (c : char) (s : str) : list str := split_go c s [].

(** The code points for which [str.isspace] holds. *)
Definition isspace (c : char) : bool :=
  ((9 <=? c) && (c <=? 13) || (28 <=? c) && (c <=? 32) ||
   (c =? 133) || (c =? 160) || (c =? 5760) ||
   (8192 <=? c) && (c <=? 8202) || (c =? 8232) || (c =? 8233) ||
   (c =? 8239) || (c =? 8287) || (c =? 12288))%N.

Fixpoint lstrip (s : str) : str :=
  match s with
  | [] => []
  | c :: s' => if isspace c then lstrip s' else s
  end.

(** [s.strip()] *)
Definition strip (s : str) : str := rev (lstrip (rev (lstrip s))).

(** Python's [<] on strings: lexicographic on code points. *)
Fixpoint ltb (a b : str) : bool :=
  match a, b with
  | [], [] => false
  | [], _ :: _ => true
  | _ :: _, [] => false
  | x :: a', y :: b' =>
      if N.ltb x y then true
      else if N.ltb y x then false
      else ltb a' b'
  end.

Definition newline : str := [10%N].

(** A literal in which ['] stands for the double quote, for JSON texts. *)
Definition js (s : string) : str :=
  List.map (fun c => if N.eqb c 39 then 34%N else c) (u s).

End PyStr.
Import PyStr.

(** ** The prompt composer ([src/libs/prompt_manager.py]) *)

Inductive PromptSection : Type :=
  | PRE_PROMPT | BODY_PROMPT | USER_INPUT | POST_PROMPT.

Global Instance PromptSection_eq_dec : EqDecision PromptSection.
Proof. solve_decision. Defined.

(** [for section in PromptSection]: definition order. *)
Definition all_sections : list PromptSection :=
  [PRE_PROMPT; BODY_PROMPT; USER_INPUT; POST_PROMPT].

(** [PromptSection[name]]; [None] is the [KeyError]. *)
Definition section_of_name (name : str) : option PromptSection :=
  if decide (name = u "PRE_PROMPT") then Some PRE_PROMPT
  else if decide (name = u "BODY_PROMPT") then Some BODY_PROMPT
  else if decide (name = u "USER_INPUT") then Some USER_INPUT
  else if decide (name = u "POST_PROMPT") then Some POST_PROMPT
  else None.

Record PromptFragment : Type := mkFragment {
  module_id : str;
  content : str;
  is_system : bool
}.

(** Exceptions that leave a method. *)
Inductive exn : Type :=
  | ValueError | KeyError | IndexError | TypeError | AttributeError.

Inductive res (A : Type) : Type :=
  | Returned (a : A)
  | Raised (x : exn).
Arguments Returned {A} a.
Arguments Raised {A} x.

Definition system_id : str := u "system".

Module PromptManager.

(** The two dictionaries of [PromptManagerRebuild], both keyed by the four
    sections, which are always present. *)
Record t : Type := mk {
  sections : PromptSection -> gmap str PromptFragment;
  section_orders : PromptSection -> list str
}.

Definition upd {A} (f : PromptSection -> A) (s : PromptSection) (a : A)
  : PromptSection -> A :=
  fun s' => if decide (s' = s) then a else f s'.

(** [PromptManagerRebuild()] without a file path. *)
Definition empty : t := mk (fun _ => ∅) (fun _ => []).

(** [l.index(x)] when [x] is in [l]. *)
Fixpoint index (x : str) (l : list str) : option nat :=
  match l with
  | [] => None
  | y :: l' => if decide (y = x) then Some O else S <$> index x l'
  end.

(** [x in l] *)
Definition mem (x : str) (l : list str) : bool := bool_decide (x ∈ l).

(** [l.insert(i, x)] *)
Definition insert_at (i : nat) (x : str) (l : list str) : list str :=
  take i l ++ x :: drop i l.

(** [l.remove(x)]: the first occurrence goes; [None] is the [ValueError]. *)
Fixpoint remove_first (x : str) (l : list str) : option (list str) :=
  match l with
  | [] => None
  | y :: l' => if decide (y = x) then Some l' else (y ::.) <$> remove_first x l'
  end.

Definition load_init_one (m : t) (sc : PromptSection * str) : t :=
  let '(section, c) := sc in
  mk (upd (sections m) section
        (<[system_id := mkFragment system_id c true]> (sections m section)))
     (upd (section_orders m) section [system_id]).

(** [load_init_sections]: the items of [init_contents] in order. *)
Definition load_init_sections (m : t) (init_contents : list (PromptSection * str)) : t :=
  fold_left load_init_one init_contents m.

Definition add_prompt (m : t) (section : PromptSection) (mid c : str)
    (insert_after : option str) : bool * t :=
  if decide (mid = system_id) then (false, m)
  else
    match sections m section !! mid with
    | Some f =>
        (true, mk (upd (sections m) section
                     (<[mid := mkFragment (module_id f) c (is_system f)]>
                        (sections m section)))
                  (section_orders m))
    | None =>
        let secs := upd (sections m) section
                      (<[mid := mkFragment mid c false]> (sections m section)) in
        let order_list := section_orders m section in
        let order' :=
          match insert_after with
          | Some after =>
              match index after order_list with
              | None => order_list ++ [mid]
              | Some i => insert_at (S i) mid order_list
              end
          | None =>
              match order_list with
              | first :: _ =>
                  if decide (first = system_id) then insert_at 1 mid order_list
                  else order_list ++ [mid]
              | [] => order_list ++ [mid]
              end
          end in
        (true, mk secs (upd (section_orders m) section order'))
    end.

Definition remove_prompt (m : t) (section : PromptSection) (mid : str)
  : res bool * t :=
  if decide (mid = system_id) then (Returned false, m)
  else
    match sections m section !! mid with
    | None => (Returned false, m)
    | Some _ =>
        let secs := upd (sections m) section (delete mid (sections m section)) in
        match remove_first mid (section_orders m section) with
        | None => (Raised ValueError, mk secs (section_orders m))
        | Some order' =>
            (Returned true, mk secs (upd (section_orders m) section order'))
        end
    end.

Definition move_prompt (m : t) (section : PromptSection) (mid target : str)
    (before : bool) : res bool * t :=
  if decide (mid = system_id) then (Returned false, m)
  else if bool_decide (target = system_id) && before then (Returned false, m)
  else if negb (mem mid (section_orders m section)) then (Returned false, m)
  else if negb (mem target (section_orders m section)) then (Returned false, m)
  else
    match remove_first mid (section_orders m section) with
    | None => (Raised ValueError, m)
    | Some l1 =>
        match index target l1 with
        | None =>
            (Raised ValueError,
             mk (sections m) (upd (section_orders m) section l1))
        | Some i =>
            let target_index := if before then i else S i in
            (Returned true,
             mk (sections m)
                (upd (section_orders m) section (insert_at target_index mid l1)))
        end
    end.

(** The fragments of a section in render order: the ids of the order list
    that are in the content map. *)
Definition get_section_fragments (m : t) (section : PromptSection)
  : list PromptFragment :=
  omap (fun mid => sections m section !! mid) (section_orders m section).

Definition get_section_content (m : t) (section : PromptSection) : str :=
  join newline (content <$> get_section_fragments m section).

(** [extra_prompts]: [None], or a dictionary from sections to a string or
    [None]; a key that is absent looks up as [None], a key bound to
    Python's [None] as [Some None]. *)
Definition overrides : Type := PromptSection -> option (option str).

Definition no_overrides : overrides := fun _ => None.

(** [bool(d)] of the dictionary: it has a key. *)
Definition has_key (d : overrides) : bool :=
  existsb (fun s => match d s with Some _ => true | None => false end) all_sections.

Definition section_parts (m : t) (extra : option overrides)
    (section : PromptSection) : list str :=
  let section_content := get_section_content m section in
  (if nonempty section_content then [section_content] else []) ++
  match extra with
  | Some d =>
      if has_key d then
        match d section with
        | Some (Some s) => [s]
        | _ => []
        end
      else []
  | None => []
  end.

Definition full_prompt_parts (m : t) (extra : option overrides) : list str :=
  flat_map (section_parts m extra) all_sections.

Definition get_full_prompt (m : t) (extra : option overrides) : str :=
  join newline (full_prompt_parts m extra).

Definition update_prompt (m : t) (section : PromptSection) (mid c : str)
  : bool * t :=
  match sections m section !! mid with
  | None => (false, m)
  | Some f =>
      (true, mk (upd (sections m) section
                   (<[mid := mkFragment (module_id f) c (is_system f)]>
                      (sections m section)))
                (section_orders m))
  end.

Definition clear_section (m : t) (section : PromptSection) : t :=
  match sections m section !! system_id with
  | Some f =>
      mk (upd (sections m) section {[system_id := f]})
         (upd (section_orders m) section [system_id])
  | None =>
      mk (upd (sections m) section ∅) (upd (section_orders m) section [])
  end.

(** The record a template file holds for one fragment: ["content"] may be
    missing (a [KeyError] on load), ["is_system"] defaults to [False]. *)
Record fragment_data : Type := mkData {
  fd_content : option str;
  fd_is_system : option bool
}.

Definition section_data : Type := list (str * fragment_data).
Definition template : Type := list (str * section_data).

(** The inner loop of [from_dict] over one section's items. *)
Fixpoint load_fragments (m : t) (section : PromptSection) (items : section_data)
  : res unit * t :=
  match items with
  | [] => (Returned (), m)
  | (mid, fd) :: rest =>
      match fd_content fd with
      | None => (Raised KeyError, m)
      | Some c =>
          let f := mkFragment mid c (default false (fd_is_system fd)) in
          load_fragments
            (mk (upd (sections m) section (<[mid := f]> (sections m section)))
                (upd (section_orders m) section (section_orders m section ++ [mid])))
            section rest
      end
  end.

Fixpoint from_dict_go (m : t) (data : template) : res unit * t :=
  match data with
  | [] => (Returned (), m)
  | (name, items) :: rest =>
      match section_of_name name with
      | None => from_dict_go m rest
      | Some section =>
          let m0 := mk (upd (sections m) section ∅)
                       (upd (section_orders m) section []) in
          match load_fragments m0 section items with
          | (Returned _, m1) => from_dict_go m1 rest
          | (Raised x, m1) => (Raised x, m1)
          end
      end
  end.

(** [from_dict]: a new manager, or the exception of a malformed record. *)
Definition from_dict (data : template) : res t :=
  match from_dict_go empty data with
  | (Returned _, m) => Returned m
  | (Raised x, _) => Raised x
  end.

(** What reading the template file gives [load_from_json]. *)
Inductive file_read : Type :=
  | FileNotFound
  | NotJson
  | NoPermission
  | Parsed (data : template).

Definition load_from_json (m : t) (f : file_read) : bool * t :=
  match f with
  | Parsed data =>
      match from_dict data with
      | Returned m' => (true, m')
      | Raised _ => (false, m)
      end
  | _ => (false, m)
  end.

(** [PromptManagerRebuild(file_path)] *)
Definition init (f : option file_read) : t :=
  match f with
  | Some r => snd (load_from_json empty r)
  | None => empty
  end.

End PromptManager.

(** ** JSON values, as [json.loads] returns them *)

Inductive json : Type :=
  | JNull
  | JBool (b : bool)
  | JInt (z : Z)
  | JFloat (q : Q)
  | JStr (s : str)
  | JList (l : list json)
  | JDict (d : list (str * json)).

Module Py.

(** [bool(v)] *)
Definition truthy (v : json) : bool :=
  match v with
  | JNull => false
  | JBool b => b
  | JInt z => negb (z =? 0)
  | JFloat q => negb (Qeq_bool q 0)
  | JStr s => nonempty s
  | JList l => match l with [] => false | _ => true end
  | JDict d => match d with [] => false | _ => true end
  end.

(** [len(v)]; a value without a length raises [TypeError]. *)
Definition len (v : json) : res Z :=
  match v with
  | JStr s => Returned (PyStr.len s)
  | JList l => Returned (Z.of_nat (length l))
  | JDict d => Returned (Z.of_nat (length d))
  | _ => Raised TypeError
  end.

(** [d.get(k)] on the items of a mapping. *)
Fixpoint dict_get (k : str) (d : list (str * json)) : option json :=
  match d with
  | [] => None
  | (k', v) :: d' => if decide (k' = k) then Some v else dict_get k d'
  end.

(** [v[k]] for a string key [k]. *)
Definition subscript (v : json) (k : str) : res json :=
  match v with
  | JDict d => match dict_get k d with Some x => Returned x | None => Raised KeyError end
  | _ => Raised TypeError
  end.

(** The items of [l] that are strings, for [str.join]; another item is a
    [TypeError]. *)
Fixpoint strings (l : list json) : res (list str) :=
  match l with
  | [] => Returned []
  | JStr s :: l' =>
      match strings l' with
      | Returned r => Returned (s :: r)
      | Raised x => Raised x
      end
  | _ :: _ => Raised TypeError
  end.

(** [l[-1]] *)
Definition last_item {A} (l : list A) : res A :=
  match last l with Some x => Returned x | None => Raised IndexError end.

End Py.

(** ** The turn engine ([src/game_engine.py]) *)

Module Engine.

(** The fields of [CustomConfig] the engine reads. *)
Record CustomConfig : Type := mkConfig {
  max_tokens : Z;
  cfg_player_name : str;
  player_story : str;
  custom_pre : str;
  custom_body : str;
  custom_post : str
}.

Definition set_max_tokens (c : CustomConfig) (n : Z) : CustomConfig :=
  mkConfig n (cfg_player_name c) (player_story c)
           (custom_pre c) (custom_body c) (custom_post c).

Record GameEngine : Type := mkEngine {
  game_id : str;
  pm_start : PromptManager.t;
  pm_continue : PromptManager.t;
  pm_summary : PromptManager.t;
  current_response : option str;
  conversation_history : list (str * option str);
  history_descriptions : list json;
  history_choices : list str;
  history_simple_summaries : list json;
  current_description : json;
  summary_conclude_val : Z;
  conclude_summary_cooldown : Z;
  compressed_summary_textmin : Z;
  total_prompt_tokens : Z;
  l_p_token : Z;
  total_completion_tokens : Z;
  l_c_token : Z;
  total_tokens : Z;
  token_consumes : list Z;
  custom_config : CustomConfig;
  player_name : str
}.

(** "游戏开始" *)
Definition game_start_text : str := [28216; 25103; 24320; 22987]%N.

(** [GameEngine(custom_config)], given the three template managers. *)
Definition new_engine (c : CustomConfig) (ps pc pz : PromptManager.t) : GameEngine :=
  {| game_id := [];
     pm_start := ps; pm_continue := pc; pm_summary := pz;
     current_response := Some [];
     conversation_history := [];
     history_descriptions := [];
     history_choices := [];
     history_simple_summaries := [];
     current_description := JStr game_start_text;
     summary_conclude_val := 24;
     conclude_summary_cooldown := 10;
     compressed_summary_textmin := 320;
     total_prompt_tokens := 0; l_p_token := 0;
     total_completion_tokens := 0; l_c_token := 0;
     total_tokens := 0;
     token_consumes := [];
     custom_config := c;
     player_name := cfg_player_name c |}.

(** Field updates. *)
Definition with_tokens (g : GameEngine) (tp lp tc lc tt : Z) : GameEngine :=
  mkEngine (game_id g) (pm_start g) (pm_continue g) (pm_summary g)
    (current_response g) (conversation_history g) (history_descriptions g)
    (history_choices g) (history_simple_summaries g) (current_description g)
    (summary_conclude_val g) (conclude_summary_cooldown g)
    (compressed_summary_textmin g) tp lp tc lc tt
    (token_consumes g) (custom_config g) (player_name g).

Definition with_response (g : GameEngine) (r : option str)
    (h : list (str * option str)) : GameEngine :=
  mkEngine (game_id g) (pm_start g) (pm_continue g) (pm_summary g)
    r h (history_descriptions g)
    (history_choices g) (history_simple_summaries g) (current_description g)
    (summary_conclude_val g) (conclude_summary_cooldown g)
    (compressed_summary_textmin g) (total_prompt_tokens g) (l_p_token g)
    (total_completion_tokens g) (l_c_token g) (total_tokens g)
    (token_consumes g) (custom_config g) (player_name g).

Definition with_description (g : GameEngine) (d : json) : GameEngine :=
  mkEngine (game_id g) (pm_start g) (pm_continue g) (pm_summary g)
    (current_response g) (conversation_history g) (history_descriptions g)
    (history_choices g) (history_simple_summaries g) d
    (summary_conclude_val g) (conclude_summary_cooldown g)
    (compressed_summary_textmin g) (total_prompt_tokens g) (l_p_token g)
    (total_completion_tokens g) (l_c_token g) (total_tokens g)
    (token_consumes g) (custom_config g) (player_name g).

Definition with_summaries (g : GameEngine) (l : list json) : GameEngine :=
  mkEngine (game_id g) (pm_start g) (pm_continue g) (pm_summary g)
    (current_response g) (conversation_history g) (history_descriptions g)
    (history_choices g) l (current_description g)
    (summary_conclude_val g) (conclude_summary_cooldown g)
    (compressed_summary_textmin g) (total_prompt_tokens g) (l_p_token g)
    (total_completion_tokens g) (l_c_token g) (total_tokens g)
    (token_consumes g) (custom_config g) (player_name g).

Definition with_histories (g : GameEngine) (hd : list json) (hc : list str)
  : GameEngine :=
  mkEngine (game_id g) (pm_start g) (pm_continue g) (pm_summary g)
    (current_response g) (conversation_history g) hd hc
    (history_simple_summaries g) (current_description g)
    (summary_conclude_val g) (conclude_summary_cooldown g)
    (compressed_summary_textmin g) (total_prompt_tokens g) (l_p_token g)
    (total_completion_tokens g) (l_c_token g) (total_tokens g)
    (token_consumes g) (custom_config g) (player_name g).

Definition with_cooldown (g : GameEngine) (c : Z) : GameEngine :=
  mkEngine (game_id g) (pm_start g) (pm_continue g) (pm_summary g)
    (current_response g) (conversation_history g) (history_descriptions g)
    (history_choices g) (history_simple_summaries g) (current_description g)
    (summary_conclude_val g) c
    (compressed_summary_textmin g) (total_prompt_tokens g) (l_p_token g)
    (total_completion_tokens g) (l_c_token g) (total_tokens g)
    (token_consumes g) (custom_config g) (player_name g).

Definition with_consumes (g : GameEngine) (l : list Z) : GameEngine :=
  mkEngine (game_id g) (pm_start g) (pm_continue g) (pm_summary g)
    (current_response g) (conversation_history g) (history_descriptions g)
    (history_choices g) (history_simple_summaries g) (current_description g)
    (summary_conclude_val g) (conclude_summary_cooldown g)
    (compressed_summary_textmin g) (total_prompt_tokens g) (l_p_token g)
    (total_completion_tokens g) (l_c_token g) (total_tokens g)
    l (custom_config g) (player_name g).

Definition with_config (g : GameEngine) (c : CustomConfig) : GameEngine :=
  mkEngine (game_id g) (pm_start g) (pm_continue g) (pm_summary g)
    (current_response g) (conversation_history g) (history_descriptions g)
    (history_choices g) (history_simple_summaries g) (current_description g)
    (summary_conclude_val g) (conclude_summary_cooldown g)
    (compressed_summary_textmin g) (total_prompt_tokens g) (l_p_token g)
    (total_completion_tokens g) (l_c_token g) (total_tokens g)
    (token_consumes g) c (player_name g).

(** *** The language-model client, as [call_ai] sees it *)

Record Usage : Type := mkUsage {
  prompt_tokens : Z;
  completion_tokens : Z;
  usage_total_tokens : Z
}.

(** What one [client.chat.completions.create] call gives: one of the two
    failures [call_ai] catches, or a completion.  [usage] is [None] when
    the response has no such attribute; [reasoning_content] is [None] when
    the message has no such attribute and [Some None] when it is [None]. *)
Inductive Reply : Type :=
  | APITimeoutError
  | OpenAIError
  | ChatCompletion (usage : option Usage) (content : option str)
      (reasoning_content : option (option str)).

Definition opt_truthy (o : option str) : bool :=
  match o with Some s => nonempty s | None => false end.

Definition role_user : str := u "user".
Definition role_assistant : str := u "assistant".

Definition open_brace : char := 123%N.
Definition close_brace : char := 125%N.

(** The ["{" ... "}"] window [call_ai] and [parse_ai_response] share. *)
Definition brace_window (s : str) : option str :=
  let start_idx := find open_brace s in
  let end_idx := rfind close_brace s in
  if negb (start_idx =? -1) && negb (end_idx =? -1) && (start_idx <? end_idx)
  then Some (slice start_idx (end_idx + 1) s)
  else None.

(** [call_ai(prompt)] against one reply of the client: the text, or [None]
    for "no text", next to the engine the call leaves.  The request
    parameters built from the configuration go to the client and leave no
    trace in the engine. *)
Definition call_ai (g : GameEngine) (prompt : str) (r : Reply)
  : res (option str) * GameEngine :=
  match r with
  | APITimeoutError => (Returned None, g)
  | OpenAIError => (Returned None, g)
  | ChatCompletion usage content reasoning =>
      let g1 :=
        match usage with
        | Some us =>
            with_tokens g
              (total_prompt_tokens g + prompt_tokens us) (prompt_tokens us)
              (total_completion_tokens g + completion_tokens us)
              (completion_tokens us)
              (total_tokens g + usage_total_tokens us)
        | None => g
        end in
      let g2 := with_response g1 content
                  (conversation_history g1 ++
                     [(role_user, Some prompt); (role_assistant, content)]) in
      if opt_truthy content then (Returned content, g2)
      else
        match reasoning with
        | None => (Raised AttributeError, g2)
        | Some reasoning =>
            let g3 := with_response g2 reasoning (conversation_history g2) in
            match reasoning with
            | Some rs =>
                if nonempty rs then
                  match brace_window rs with
                  | Some js =>
                      (Returned (Some js),
                       with_response g3 (Some js) (conversation_history g3))
                  | None => (Returned None, g3)
                  end
                else (Returned None, g3)
            | None => (Returned None, g3)
            end
        end
  end.

(** How a method of the engine ends, run against the replies [w] the client
    will give, in order.  [Done] and [Fail] keep the replies not yet used;
    [Pending] is a method still waiting in a retry loop when the replies
    are used up; [Looping] is an unwrap loop that did not reach a
    mapping. *)
Inductive outcome (A : Type) : Type :=
  | Done (a : A) (g : GameEngine) (w : list Reply)
  | Fail (x : exn) (g : GameEngine) (w : list Reply)
  | Pending (g : GameEngine)
  | Looping (g : GameEngine).
Arguments Done {A} a g w.
Arguments Fail {A} x g w.
Arguments Pending {A} g.
Arguments Looping {A} g.

Definition bind {A B} (m : outcome A)
    (k : A -> GameEngine -> list Reply -> outcome B) : outcome B :=
  match m with
  | Done a g w => k a g w
  | Fail x g w => Fail x g w
  | Pending g => Pending g
  | Looping g => Looping g
  end.

(** Full-width punctuation to ASCII, as [parse_ai_response] starts. *)
Definition normalize (response : str) : str :=
  replace [65292%N] (u ",")
    (replace [65306%N] (u ":")
       (replace [8221%N] [34%N]
          (replace [8220%N] [34%N] response))).

(** [re.sub(r"。(?!』)", "。\n", s)] *)
Fixpoint break_sentences (s : str) : str :=
  match s with
  | [] => []
  | c :: s' =>
      if N.eqb c 12290 then
        match s' with
        | d :: _ => if N.eqb d 12303 then c :: break_sentences s'
                    else c :: 10%N :: break_sentences s'
        | [] => [c; 10%N]
        end
      else c :: break_sentences s'
  end.

Definition reflow (s : str) : str :=
  replace [12303%N] [12303%N; 10%N] (break_sentences s).

Definition key_description : str := u "description".
Definition key_summary : str := u "summary".

Section Decoder.

(** [json_repair.repair_json] and [json.loads] are libraries outside the
    repository.  [repair_json] is given the value [call_ai] returned (a
    string or [None]) and returns a string or raises; [json_loads] returns
    a value, or [None] for [json.JSONDecodeError]. *)
Variable repair_json : option str -> res str.
Variable json_loads : str -> option json.

(** The result of the [while not isinstance(json_response, dict)] loop. *)
Inductive unwrapped : Type :=
  | Mapping (d : list (str * json))
  | NotMapping
  | DecodeError
  | EmptyList
  | NoFuel.

Fixpoint unwrap (fuel : nat) (v : json) : unwrapped :=
  match v with
  | JDict d => Mapping d
  | JList [] => EmptyList
  | JList (x :: _) =>
      match fuel with O => NoFuel | S f => unwrap f x end
  | JStr s =>
      match fuel with
      | O => NoFuel
      | S f =>
          match json_loads s with
          | None => DecodeError
          | Some v' => unwrap f v'
          end
      end
  | _ => NotMapping
  end.

(** Enough turns of the loop for a value a decoder produced from a text:
    a string decodes to a value written in fewer characters. *)
Fixpoint unwrap_fuel (v : json) : nat :=
  match v with
  | JStr s => S (length s)
  | JList (x :: _) => S (unwrap_fuel x)
  | _ => 1
  end.

(** [parse_ai_response(response)]: [Some (Returned ok, g')], an exception
    the method does not catch, or [None] when the unwrap loop does not
    end. *)
Definition parse_ai_response (g : GameEngine) (response : str)
  : option (res bool * GameEngine) :=
  let response := normalize response in
  let json_content :=
    match brace_window response with
    | Some js => js
    | None => response
    end in
  match repair_json (Some json_content) with
  | Raised ValueError => Some (Returned false, g)
  | Raised x => Some (Raised x, g)
  | Returned repaired =>
      match json_loads repaired with
      | None => Some (Returned false, g)
      | Some v =>
          match unwrap (unwrap_fuel v) v with
          | NoFuel => None
          | NotMapping => Some (Returned false, g)
          | DecodeError => Some (Returned false, g)
          | EmptyList => Some (Raised IndexError, g)
          | Mapping d =>
              let description := default (JStr []) (Py.dict_get key_description d) in
              let g1 := with_description g description in
              match description with
              | JStr ds =>
                  if negb (nonempty (strip ds)) then Some (Returned false, g1)
                  else
                    let ds' := reflow ds in
                    let g2 := with_description g1 (JStr ds') in
                    if nonempty ds' then
                      Some (Returned true,
                            with_summaries g2
                              (history_simple_summaries g2 ++
                                 [default (JStr []) (Py.dict_get key_summary d)]))
                    else Some (Returned true, g2)
              | _ => Some (Raised AttributeError, g1)
              end
          end
      end
  end.

(** One more [call_ai]: the next reply of the client, if there is one. *)
Definition next_call {A} (g : GameEngine) (prompt : str) (w : list Reply)
    (k : option str -> GameEngine -> list Reply -> outcome A) : outcome A :=
  match w with
  | [] => Pending g
  | r :: w' =>
      match call_ai g prompt r with
      | (Returned a, g') => k a g' w'
      | (Raised x, g') => Fail x g' w'
      end
  end.

Definition parse_step (g : GameEngine) (w : list Reply) (response : str)
  : outcome bool :=
  match parse_ai_response g response with
  | None => Looping g
  | Some (Returned ok, g') => Done ok g' w
  | Some (Raised x, g') => Fail x g' w
  end.

(** [while not ok_sign: ... call_ai ... parse_ai_response], entered with
    [ok_sign] false. *)
Fixpoint retry_until_parsed (prompt : str) (g : GameEngine) (w : list Reply)
  : outcome unit :=
  match w with
  | [] => Pending g
  | r :: w' =>
      match call_ai g prompt r with
      | (Raised x, g1) => Fail x g1 w'
      | (Returned ai_response, g1) =>
          match ai_response with
          | Some s =>
              if nonempty s then
                match parse_ai_response g1 s with
                | None => Looping g1
                | Some (Raised x, g2) => Fail x g2 w'
                | Some (Returned true, g2) => Done () g2 w'
                | Some (Returned false, g2) => retry_until_parsed prompt g2 w'
                end
              else retry_until_parsed prompt g1 w'
          | None => retry_until_parsed prompt g1 w'
          end
      end
  end.

(** [while not ai_response: ... call_ai], entered with no response. *)
Fixpoint retry_until_response (prompt : str) (g : GameEngine) (w : list Reply)
  : outcome str :=
  match w with
  | [] => Pending g
  | r :: w' =>
      match call_ai g prompt r with
      | (Raised x, g1) => Fail x g1 w'
      | (Returned ai_response, g1) =>
          match ai_response with
          | Some s => if nonempty s then Done s g1 w'
                      else retry_until_response prompt g1 w'
          | None => retry_until_response prompt g1 w'
          end
      end
  end.

(** "玩家姓名: " and ",玩家背景: " *)
Definition name_label : str := [29609; 23478; 22995; 21517; 58; 32]%N.
Definition story_label : str := [44; 29609; 23478; 32972; 26223; 58; 32]%N.
(** "以", "一个完全随机的场景", "为故事开头，开始本局沉浸式文字游戏" *)
Definition opening_head : str := [20197]%N.
Definition opening_random : str :=
  [19968; 20010; 23436; 20840; 38543; 26426; 30340; 22330; 26223]%N.
Definition opening_tail : str :=
  [20026; 25925; 20107; 24320; 22836; 65292; 24320; 22987; 26412; 23616;
   27785; 28024; 24335; 25991; 23383; 28216; 25103]%N.
(** "历史剧情摘要: " *)
Definition summary_label : str :=
  [21382; 21490; 21095; 24773; 25688; 35201; 58; 32]%N.

Definition player_line (g : GameEngine) : str :=
  name_label ++ player_name g ++ story_label ++ player_story (custom_config g).

Definition set_override (d : PromptManager.overrides) (s : PromptSection)
    (v : str) : PromptManager.overrides :=
  fun s' => if decide (s' = s) then Some (Some v) else d s'.

Definition start_prompt (g : GameEngine) (st_story : str) : str :=
  PromptManager.get_full_prompt (pm_start g)
    (Some (set_override (set_override (set_override (set_override
       PromptManager.no_overrides
       PRE_PROMPT (player_line g ++ custom_pre (custom_config g)))
       BODY_PROMPT (custom_body (custom_config g)))
       USER_INPUT (opening_head ++
                   (if nonempty st_story then st_story else opening_random) ++
                   opening_tail))
       POST_PROMPT (custom_post (custom_config g)))).

Definition commit_tokens (g : GameEngine) : GameEngine :=
  with_consumes g (token_consumes g ++ [l_p_token g + l_c_token g]).

(** [start_game(st_story)] *)
Definition start_game (g : GameEngine) (st_story : str) (w : list Reply)
  : outcome unit :=
  let init_prompt := start_prompt g st_story in
  bind
    (next_call g init_prompt w (fun ai_response g1 w1 =>
       if opt_truthy ai_response
       then Done (default [] ai_response) g1 w1
       else retry_until_response init_prompt g1 w1))
    (fun ai_response g2 w2 =>
       bind
         (bind (parse_step g2 w2 ai_response) (fun ok_sign g3 w3 =>
            if ok_sign then Done () g3 w3
            else retry_until_parsed init_prompt g3 w3))
         (fun _ g4 w4 =>
            let g5 := with_histories g4
                        (history_descriptions g4 ++ [current_description g4])
                        (history_choices g4) in
            Done () (commit_tokens g5) w4)).

(** *** Compaction of the summaries ([conclude_summary]) *)

(** [i and len(i) < compressed_summary_textmin], as a truth value. *)
Definition is_small (textmin : Z) (i : json) : res bool :=
  if Py.truthy i then
    match Py.len i with
    | Returned n => Returned (n <? textmin)
    | Raised x => Raised x
    end
  else Returned false.

(** [i and len(i) >= compressed_summary_textmin] *)
Definition is_large (textmin : Z) (i : json) : res bool :=
  if Py.truthy i then
    match Py.len i with
    | Returned n => Returned (textmin <=? n)
    | Raised x => Raised x
    end
  else Returned false.

(** [any(p(i) for i in l)]: stops at the first item that holds. *)
Fixpoint py_any (p : json -> res bool) (l : list json) : res bool :=
  match l with
  | [] => Returned false
  | i :: l' =>
      match p i with
      | Returned true => Returned true
      | Returned false => py_any p l'
      | Raised x => Raised x
      end
  end.

(** [[i for i in l if p(i)]] *)
Fixpoint py_filter (p : json -> res bool) (l : list json) : res (list json) :=
  match l with
  | [] => Returned []
  | i :: l' =>
      match p i with
      | Raised x => Raised x
      | Returned b =>
          match py_filter p l' with
          | Raised x => Raised x
          | Returned r => Returned (if b then i :: r else r)
          end
      end
  end.

(** [l[:-1]] and [l[:-10]] *)
Definition drop_last {A} (n : nat) (l : list A) : list A :=
  take (length l - n) l.

Inductive strategy : Type := Dilution | Compression.

(** The test that opens [conclude_summary]: dilution when no item before
    the last is small. *)
Definition select_strategy (g : GameEngine) : res strategy :=
  match py_any (is_small (compressed_summary_textmin g))
          (drop_last 1 (history_simple_summaries g)) with
  | Returned false => Returned Dilution
  | Returned true => Returned Compression
  | Raised x => Raised x
  end.

(** [phase_summary(resp)]: [(1, summ)], [(0, "")], or an exception other
    than the three it catches. *)
Definition phase_summary (resp : option str) : res (bool * json) :=
  match repair_json resp with
  | Raised ValueError | Raised KeyError => Returned (false, JStr [])
  | Raised x => Raised x
  | Returned repaired =>
      match json_loads repaired with
      | None => Returned (false, JStr [])
      | Some r =>
          match Py.subscript r key_summary with
          | Returned summ => Returned (true, summ)
          | Raised KeyError | Raised ValueError => Returned (false, JStr [])
          | Raised x => Raised x
          end
      end
  end.

(** [while not ok_sign: summary = call_ai(prompt); ok_sign, summ =
    phase_summary(summary)], entered with [ok_sign] false. *)
Fixpoint retry_until_summary (prompt : str) (g : GameEngine) (w : list Reply)
  : outcome json :=
  match w with
  | [] => Pending g
  | r :: w' =>
      match call_ai g prompt r with
      | (Raised x, g1) => Fail x g1 w'
      | (Returned summary, g1) =>
          match phase_summary summary with
          | Raised x => Fail x g1 w'
          | Returned (true, summ) => Done summ g1 w'
          | Returned (false, _) => retry_until_summary prompt g1 w'
          end
      end
  end.

(** The first summarization call, under the raised token limit, and the
    retries after it. *)
Definition request_summary (prompt : str) (limit : Z) (g : GameEngine)
    (w : list Reply) : outcome json :=
  let tmp := max_tokens (custom_config g) in
  let g0 := with_config g (set_max_tokens (custom_config g) limit) in
  next_call g0 prompt w (fun summary g1 w1 =>
    let g2 := with_config g1 (set_max_tokens (custom_config g1) tmp) in
    match phase_summary summary with
    | Raised x => Fail x g2 w1
    | Returned (true, summ) => Done summ g2 w1
    | Returned (false, _) => retry_until_summary prompt g2 w1
    end).

(** [self.token_consumes[-1] += n] *)
Definition add_to_last (l : list Z) (n : Z) : res (list Z) :=
  match last l with
  | Some x => Returned (drop_last 1 l ++ [x + n])
  | None => Raised IndexError
  end.

(** The bookkeeping both strategies end with. *)
Definition finish_compaction (g : GameEngine) (w : list Reply)
    (summaries : list json) : outcome Z :=
  let g1 := with_cooldown (with_summaries g summaries) 10 in
  match add_to_last (token_consumes g1) (l_p_token g1 + l_c_token g1) with
  | Returned l => Done 0 (with_consumes g1 l) w
  | Raised x => Fail x g1 w
  end.

Definition summary_prompt (g : GameEngine) (pre : str) (items : list str) : str :=
  PromptManager.get_full_prompt (pm_summary g)
    (Some (set_override (set_override PromptManager.no_overrides
       PRE_PROMPT pre)
       USER_INPUT (summary_label ++ join newline items))).

Definition dilute (g : GameEngine) (w : list Reply) : outcome Z :=
  match Py.strings (filter (fun i => Py.truthy i = true)
                      (drop_last 10 (history_simple_summaries g))) with
  | Raised x => Fail x g w
  | Returned items =>
      let prompt := summary_prompt g (player_line g) items in
      bind (request_summary prompt 20480 g w) (fun summ g1 w1 =>
        finish_compaction g1 w1
          (summ :: drop 10 (history_simple_summaries g1)))
  end.

Definition compress (g : GameEngine) (w : list Reply) : outcome Z :=
  match py_filter (is_small (compressed_summary_textmin g))
          (history_simple_summaries g) with
  | Raised x => Fail x g w
  | Returned smalls =>
      match Py.strings smalls with
      | Raised x => Fail x g w
      | Returned items =>
          let prompt := summary_prompt g (name_label ++ player_name g) items in
          bind (request_summary prompt 2048 g w) (fun summ g1 w1 =>
            match py_filter (is_large (compressed_summary_textmin g1))
                    (history_simple_summaries g1) with
            | Raised x => Fail x g1 w1
            | Returned larges => finish_compaction g1 w1 (larges ++ [summ])
            end)
      end
  end.

(** [conclude_summary()] *)
Definition conclude_summary (g : GameEngine) (w : list Reply) : outcome Z :=
  match select_strategy g with
  | Raised x => Fail x g w
  | Returned Dilution => dilute g w
  | Returned Compression => compress g w
  end.

(** *** A continuation turn ([go_game]) *)

Definition placeholder_history : str := u "{history_story}".
Definition placeholder_scene : str := u "{current_scene}".
Definition placeholder_action : str := u "{player_action}".

Definition continue_template (g : GameEngine) : str :=
  PromptManager.get_full_prompt (pm_continue g)
    (Some (set_override (set_override (set_override
       PromptManager.no_overrides
       PRE_PROMPT (player_line g ++ custom_pre (custom_config g)))
       BODY_PROMPT (custom_body (custom_config g)))
       POST_PROMPT (custom_post (custom_config g)))).

(** The prompt of a continuation turn; [replace] wants strings. *)
Definition continue_prompt (g : GameEngine) (user_ipt : str) : res str :=
  match Py.last_item (history_simple_summaries g) with
  | Raised x => Raised x
  | Returned (JStr latest) =>
      match current_description g with
      | JStr scene =>
          Returned
            (replace placeholder_action user_ipt
               (replace placeholder_scene scene
                  (replace placeholder_history latest (continue_template g))))
      | _ => Raised TypeError
      end
  | Returned _ => Raised TypeError
  end.

(** The test that opens [go_game]. *)
Definition compaction_due (g : GameEngine) (is_prompt_concluding : bool) : bool :=
  (summary_conclude_val g <? Z.of_nat (length (history_simple_summaries g)))
  && negb is_prompt_concluding
  && (conclude_summary_cooldown g <? 1).

(** [go_game(user_ipt, True)]: the opening test is false, the prompt stays
    empty, and the call is [conclude_summary(); return 0]. *)
Definition go_game_concluding (g : GameEngine) (w : list Reply) : outcome Z :=
  bind (conclude_summary g w) (fun _ g' w' => Done 0 g' w').

(** What [go_game] does once the compaction pass is behind it and
    [is_prompt_concluding] is false. *)
Definition go_game_turn (g : GameEngine) (user_ipt : str) (w : list Reply)
  : outcome Z :=
  match (if nonempty user_ipt then continue_prompt g user_ipt else Returned []) with
  | Raised x => Fail x g w
  | Returned prompt =>
      if negb (nonempty prompt) then Fail ValueError g w
      else
        bind
          (next_call g prompt w (fun ai_response g1 w1 =>
             match ai_response with
             | Some s =>
                 if nonempty s then
                   bind (parse_step g1 w1 s) (fun ok_sign g2 w2 =>
                     if ok_sign then Done () g2 w2
                     else retry_until_parsed prompt g2 w2)
                 else Done () g1 w1
             | None => Done () g1 w1
             end))
          (fun _ g3 w3 =>
             let g4 := with_cooldown (commit_tokens g3)
                         (conclude_summary_cooldown g3 - 1) in
             Done 0
               (with_histories g4
                  (history_descriptions g4 ++ [current_description g4])
                  (history_choices g4 ++ [user_ipt]))
               w3)
  end.

(** [go_game(user_ipt, is_prompt_concluding)] *)
Definition go_game (g : GameEngine) (user_ipt : str)
    (is_prompt_concluding : bool) (w : list Reply) : outcome Z :=
  bind
    (if compaction_due g is_prompt_concluding
     then go_game_concluding g w
     else Done 0 g w)
    (fun _ g1 w1 =>
       if is_prompt_concluding then
         bind (conclude_summary g1 w1) (fun _ g2 w2 => Done 0 g2 w2)
       else go_game_turn g1 user_ipt w1).

End Decoder.

End Engine.

(** ** A reference decoder

    A decoder for the JSON texts the examples below use: objects, arrays,
    strings without escapes, integers, [true], [false], [null].  It stands
    in for [json.loads] where a statement is run on a concrete response. *)

Module Decoder.

Definition is_ws (c : char) : bool :=
  ((c =? 32) || (c =? 9) || (c =? 10) || (c =? 13))%N.

Fixpoint skip_ws (s : str) : str :=
  match s with
  | c :: s' => if is_ws c then skip_ws s' else s
  | [] => []
  end.

Definition is_digit (c : char) : bool := ((48 <=? c) && (c <=? 57))%N.

(** The characters up to the closing quote, and what follows it. *)
Fixpoint string_body (s : str) (acc : str) : option (str * str) :=
  match s with
  | [] => None
  | c :: s' =>
      if N.eqb c 34 then Some (rev acc, s')
      else if N.eqb c 92 then None
      else string_body s' (c :: acc)
  end.

Fixpoint digits (s : str) (acc : Z) : Z * str :=
  match s with
  | c :: s' =>
      if is_digit c then digits s' (10 * acc + Z.of_N (c - 48)) else (acc, s)
  | [] => (acc, [])
  end.

Definition number (s : str) : option (json * str) :=
  match s with
  | 45%N :: (c :: _) as s' =>
      if is_digit c then let '(n, r) := digits s' 0 in Some (JInt (- n), r)
      else None
  | c :: _ =>
      if is_digit c then let '(n, r) := digits s 0 in Some (JInt n, r)
      else None
  | [] => None
  end.

Section Items.
Variable value : str -> option (json * str).

(** Array elements after the first, up to ["]"]. *)
Fixpoint elements (n : nat) (s : str) : option (list json * str) :=
  match n with
  | O => None
  | S n' =>
      match value s with
      | None => None
      | Some (v, r) =>
          match skip_ws r with
          | 44%N :: r' =>
              match elements n' r' with
              | Some (vs, r'') => Some (v :: vs, r'')
              | None => None
              end
          | 93%N :: r' => Some ([v], r')
          | _ => None
          end
      end
  end.

(** Object members, up to ["}"]. *)
Fixpoint members (n : nat) (s : str) : option (list (str * json) * str) :=
  match n with
  | O => None
  | S n' =>
      match skip_ws s with
      | 34%N :: r =>
          match string_body r [] with
          | None => None
          | Some (k, r1) =>
              match skip_ws r1 with
              | 58%N :: r2 =>
                  match value r2 with
                  | None => None
                  | Some (v, r3) =>
                      match skip_ws r3 with
                      | 44%N :: r4 =>
                          match members n' r4 with
                          | Some (kvs, r5) => Some ((k, v) :: kvs, r5)
                          | None => None
                          end
                      | 125%N :: r4 => Some ([(k, v)], r4)
                      | _ => None
                      end
                  end
              | _ => None
              end
          end
      | _ => None
      end
  end.
End Items.

Fixpoint value (fuel : nat) (s : str) : option (json * str) :=
  match fuel with
  | O => None
  | S f =>
      match skip_ws s with
      | [] => None
      | c :: r =>
          if N.eqb c 34 then
            match string_body r [] with
            | Some (t, r') => Some (JStr t, r')
            | None => None
            end
          else if N.eqb c 91 then
            match skip_ws r with
            | 93%N :: r' => Some (JList [], r')
            | _ =>
                match elements (value f) (length r) r with
                | Some (vs, r') => Some (JList vs, r')
                | None => None
                end
            end
          else if N.eqb c 123 then
            match skip_ws r with
            | 125%N :: r' => Some (JDict [], r')
            | _ =>
                match members (value f) (length r) r with
                | Some (kvs, r') => Some (JDict kvs, r')
                | None => None
                end
            end
          else if starts_with (u "true") (c :: r) then Some (JBool true, drop 4 (c :: r))
          else if starts_with (u "false") (c :: r) then Some (JBool false, drop 5 (c :: r))
          else if starts_with (u "null") (c :: r) then Some (JNull, drop 4 (c :: r))
          else number (c :: r)
      end
  end.

(** [json.loads] on the subset. *)
Definition loads (s : str) : option json :=
  match value (S (length s)) s with
  | Some (v, r) => match skip_ws r with [] => Some v | _ => None end
  | None => None
  end.

(** [repair_json] on a text that needs no repair, and on [None]. *)
Definition repair (o : option str) : res str :=
  match o with
  | Some s => Returned s
  | None => Raised TypeError
  end.

End Decoder.

(** ** Save retention ([save_game] and [manage_auto_saves] of [src/main.py]) *)

Module Saves.

(** A directory is the list of its file names, without repetition. *)
Definition directory : Type := list str.

Section Retention.

(** [c.isdigit()] for one code point: a property of the Unicode database. *)
Variable char_isdigit : char -> bool.

(** [os.listdir]: the names of a directory, in an order of its choosing. *)
Variable listdir : directory -> list str.

(** [s.isdigit()] *)
Definition isdigit (s : str) : bool := nonempty s && forallb char_isdigit s.

(** The filter of [manage_auto_saves]. *)
Definition is_auto_save_file (save_name f : str) : bool :=
  starts_with save_name f
  && negb (starts_with (u "manual_") f)
  && negb (ends_with (u "_latest.json") f)
  && negb (ends_with (u "_latest.json.gz") f)
  && (ends_with (u ".json") f || ends_with (u ".json.gz") f).

Definition is_stamp_part (part : str) : bool :=
  (length part =? 15)%nat && isdigit (take 8 part) && isdigit (drop 9 part).

(** [get_file_timestamp]: the first part that looks like a time stamp, or
    the file name itself. *)
Definition get_file_timestamp (filename : str) : str :=
  let parts := split 95%N (replace (u ".gz") [] (replace (u ".json") [] filename)) in
  match List.find is_stamp_part parts with
  | Some part => part
  | None => filename
  end.

(** [list.sort(key=...)] compares keys with [<] and is stable: an item
    goes in front of the first sorted item whose key is not below its
    own. *)
Fixpoint insert_by_key (key : str -> str) (x : str) (l : list str) : list str :=
  match l with
  | [] => [x]
  | y :: l' =>
      if ltb (key y) (key x) then y :: insert_by_key key x l'
      else x :: l
  end.

Fixpoint sort_by_key (key : str -> str) (l : list str) : list str :=
  match l with
  | [] => []
  | x :: l' => insert_by_key key x (sort_by_key key l')
  end.

Definition auto_save_files (listing : list str) (save_name : str) : list str :=
  List.filter (is_auto_save_file save_name) listing.

(** The files [manage_auto_saves] removes. *)
Definition files_to_delete (dir : directory) (save_name : str) : list str :=
  let files := auto_save_files (listdir dir) save_name in
  if (5 <? length files)%nat
  then Engine.drop_last 5 (sort_by_key get_file_timestamp files)
  else [].

Definition remove_files (dir : directory) (gone : list str) : directory :=
  List.filter (fun f => negb (bool_decide (f ∈ gone))) dir.

(** [manage_auto_saves(game_save_dir, save_name)], on the directory. *)
Definition manage_auto_saves (dir : directory) (save_name : str) : directory :=
  remove_files dir (files_to_delete dir save_name).

(** Writing a file creates or overwrites it. *)
Definition write_file (dir : directory) (name : str) : directory :=
  if bool_decide (name ∈ dir) then dir else dir ++ [name].

Definition save_file_name (save_name timestamp : str) (is_manual_save : bool) : str :=
  if is_manual_save
  then u "manual_" ++ save_name ++ u "_" ++ timestamp ++ u ".json.gz"
  else save_name ++ u "_" ++ timestamp ++ u ".json.gz".

Definition latest_file_name (save_name : str) : str :=
  save_name ++ u "_latest.json.gz".

(** What [save_game] does to the session's directory; [timestamp] is
    [datetime.now().strftime("%Y%m%d_%H%M%S")]. *)
Definition save_game (dir : directory) (save_name timestamp : str)
    (is_manual_save : bool) : directory :=
  let dir1 := write_file dir (save_file_name save_name timestamp is_manual_save) in
  let dir2 := write_file dir1 (latest_file_name save_name) in
  if is_manual_save then dir2 else manage_auto_saves dir2 save_name.

End Retention.

(** [n] in [width] decimal digits, zero padded. *)
Fixpoint decimal (width : nat) (n : N) : str :=
  match width with
  | O => []
  | S w => decimal w (n / 10) ++ [(48 + n mod 10)%N]
  end.

(** A wall-clock time: the date as YYYYMMDD and the time as HHMMSS. *)
Record moment : Type := mkMoment { date : N; time : N }.

(** [strftime("%Y%m%d_%H%M%S")] *)
Definition strftime (t : moment) : str :=
  decimal 8 (date t) ++ u "_" ++ decimal 6 (time t).

Definition moment_ok (t : moment) : bool :=
  ((date t <? 10 ^ 8) && (time t <? 10 ^ 6))%N.

(** Earlier than. *)
Definition before (a b : moment) : Prop :=
  (date a < date b \/ (date a = date b /\ time a < time b))%N.

Definition autosave : str := u "autosave".

(** The saves of one session, as [main.py] issues them: the autosave of a
    turn under the default label, or a manual save under a name the
    player types. *)
Inductive save_event : Type :=
  | AutoSave (t : moment)
  | ManualSave (name : str) (t : moment).

Definition event_ok (e : save_event) : bool :=
  match e with
  | AutoSave t => moment_ok t
  | ManualSave _ t => moment_ok t
  end.

Section Session.
Variable isd : char -> bool.
Variable listdir : directory -> list str.

Definition apply_event (dir : directory) (e : save_event) : directory :=
  match e with
  | AutoSave t => save_game isd listdir dir autosave (strftime t) false
  | ManualSave name t => save_game isd listdir dir name (strftime t) true
  end.

(** The directory of a session after its saves, from an empty one. *)
Definition run_saves (events : list save_event) : directory :=
  fold_left apply_event events [].

End Session.

(** The name [save_game] gives the autosave taken at [t]. *)
Definition autosave_name (t : moment) : str :=
  save_file_name autosave (strftime t) false.

Definition manual_name (name : str) (t : moment) : str :=
  save_file_name name (strftime t) true.

(** The ASCII digits, for [char_isdigit] in examples. *)
Definition ascii_digit (c : char) : bool := ((48 <=? c) && (c <=? 57))%N.

End Saves.

(** ** Definitions the statements use *)

Module PromptSpec.
Import PromptManager.

(** The sum of a measure [f] over the parts of a prompt. *)
Definition total (f : str -> nat) (l : list str) : nat :=
  foldr (fun p n => (f p + n)%nat) O l.

(** The number of newline characters of a text. *)
Definition newlines (s : str) : nat := length (List.filter (N.eqb 10) s).

(** The override dictionary with an empty string put at [s]. *)
Definition with_empty_override (extra : option overrides) (s : PromptSection)
  : option overrides :=
  Some (Engine.set_override (default no_overrides extra) s []).

(** [extra] has no entry for [s]. *)
Definition no_entry (extra : option overrides) (s : PromptSection) : Prop :=
  match extra with
  | None => True
  | Some d => d s = None
  end.

(** In every section, a protected fragment that is rendered is rendered
    first. *)
Definition protected_first (m : t) : Prop :=
  forall s f,
    f ∈ get_section_fragments m s -> is_system f = true ->
    head (get_section_fragments m s) = Some f.

(** Removing ["system"] is refused and changes nothing. *)
Definition system_refused (m : t) : Prop :=
  forall s, remove_prompt m s system_id = (Returned false, m).

(** The composers the public operations reach from an empty one, when the
    records given to deserialization satisfy [accepted]. *)
Inductive reachable (accepted : template -> Prop) : t -> Prop :=
  | reach_empty : reachable accepted empty
  | reach_load_init m init_contents :
      reachable accepted m ->
      reachable accepted (load_init_sections m init_contents)
  | reach_add m s mid c after :
      reachable accepted m ->
      reachable accepted (add_prompt m s mid c after).2
  | reach_remove m s mid :
      reachable accepted m ->
      reachable accepted (remove_prompt m s mid).2
  | reach_move m s mid target before :
      reachable accepted m ->
      reachable accepted (move_prompt m s mid target before).2
  | reach_clear m s :
      reachable accepted m ->
      reachable accepted (clear_section m s)
  | reach_from_dict data m :
      accepted data ->
      from_dict data = Returned m ->
      reachable accepted m
  | reach_load_json m f :
      (forall data, f = Parsed data -> accepted data) ->
      reachable accepted m ->
      reachable accepted (load_from_json m f).2.

Definition any_template (data : template) : Prop := True.

(** An entry that is neither named ["system"] nor flagged protected. *)
Definition entry_plain (e : str * fragment_data) : bool :=
  negb (bool_decide (e.1 = system_id)) && negb (default false (fd_is_system e.2)).

(** The items of one section list a protected fragment, if any, first and
    under the name ["system"]; no later entry is named ["system"]. *)
Definition items_ok (items : section_data) : bool :=
  match items with
  | [] => true
  | (k, fd) :: rest =>
      implb (default false (fd_is_system fd)) (bool_decide (k = system_id))
      && forallb entry_plain rest
  end.

Definition template_ok (data : template) : Prop :=
  forallb (fun e => items_ok e.2) data = true.

(** A template with a protected fragment listed second. *)
Definition misordered_template : template :=
  [(u "PRE_PROMPT",
    [(u "intro", mkData (Some (u "Welcome.")) None);
     (u "system", mkData (Some (u "Rules.")) (Some true))])].

(** A composer built by the operations alone. *)
Definition sample_manager : t :=
  (add_prompt (load_init_sections empty [(PRE_PROMPT, u "Rules.")])
     PRE_PROMPT (u "intro") (u "Welcome.") None).2.

(** The composer [from_dict] makes of it. *)
Definition misordered_manager : t :=
  (from_dict_go empty misordered_template).2.

(** What the operations keep true of one section: only ["system"] is
    protected, and ["system"] is nowhere but at the head of the order. *)
Definition sec_inv (frags : gmap str PromptFragment) (order : list str) : Prop :=
  (forall k f, frags !! k = Some f -> is_system f = true -> k = system_id) /\
  system_id ∉ tail order.

Definition inv (m : t) : Prop :=
  forall s, sec_inv (sections m s) (section_orders m s).

End PromptSpec.

Module EngineSpec.
Import Engine.

(** The two history lists of an engine. *)
Definition histories (g : GameEngine) : list json * list str :=
  (history_descriptions g, history_choices g).

(** The engine an outcome leaves behind. *)
Definition final_engine {A} (o : outcome A) : GameEngine :=
  match o with
  | Done _ g _ => g
  | Fail _ g _ => g
  | Pending g => g
  | Looping g => g
  end.

(** What a call into the client or the parser leaves alone: the two
    history lists, the per-turn costs, the cooldown and the thresholds. *)
Record untouched (g g' : GameEngine) : Prop := mkUntouched {
  same_descriptions : history_descriptions g' = history_descriptions g;
  same_choices : history_choices g' = history_choices g;
  same_consumes : token_consumes g' = token_consumes g;
  same_cooldown : conclude_summary_cooldown g' = conclude_summary_cooldown g;
  same_val : summary_conclude_val g' = summary_conclude_val g;
  same_textmin : compressed_summary_textmin g' = compressed_summary_textmin g
}.

(** [untouched], and the summaries are the same too. *)
Definition quiet (g g' : GameEngine) : Prop :=
  untouched g g' /\
  history_simple_summaries g' = history_simple_summaries g.

(** The classification in the spec's words: a summary is large when its
    length is at or above the threshold, *)
Definition spec_large (textmin : Z) (v : json) : bool :=
  match Py.len v with
  | Returned n => textmin <=? n
  | Raised _ => false
  end.

(** and small when its length is strictly below it. *)
Definition spec_small (textmin : Z) (v : json) : bool :=
  match Py.len v with
  | Returned n => n <? textmin
  | Raised _ => false
  end.

Section Play.
Variable repair_json : option str -> res str.
Variable json_loads : str -> option json.

(** A session after its turns so far: the opening turn of a new engine,
    then continuation turns for the player's actions [acts], with
    compaction passes the player asks for in between. *)
Inductive played : list str -> GameEngine -> Prop :=
  | played_opening c ps pc pz st_story w r g w' :
      start_game repair_json json_loads (new_engine c ps pc pz) st_story w
        = Done r g w' ->
      played [] g
  | played_continue acts g user_ipt w r g' w' :
      played acts g ->
      go_game repair_json json_loads g user_ipt false w = Done r g' w' ->
      played (acts ++ [user_ipt]) g'
  | played_conclude acts g user_ipt w r g' w' :
      played acts g ->
      go_game repair_json json_loads g user_ipt true w = Done r g' w' ->
      played acts g'.

End Play.

(** A non-empty summary shorter than the threshold: what the tests of
    [conclude_summary] count as small. *)
Definition nonempty_small (textmin : Z) (s : str) : bool :=
  nonempty s && (PyStr.len s <? textmin).

(** The selection in the spec's words: dilution exactly when no summary
    before the last is small, compression exactly when one is. *)
Definition strategy_by_length (g : GameEngine) (ss : list str) : Prop :=
  (select_strategy g = Returned Dilution <->
   forall s, s ∈ drop_last 1 ss ->
             spec_small (compressed_summary_textmin g) (JStr s) = false) /\
  (select_strategy g = Returned Compression <->
   exists s, s ∈ drop_last 1 ss /\
             spec_small (compressed_summary_textmin g) (JStr s) = true).

End EngineSpec.

Module SavesSpec.
Import Saves.

(** [x] may stand before [y]: the key of [y] is not below the key of [x]. *)
Definition key_le (key : str -> str) (x y : str) : Prop :=
  ltb (key y) (key x) = false.

(** Every file of the directory that passes the filter of
    [manage_auto_saves] is an autosave, named after its time. *)
Definition well_named (dir : directory) : Prop :=
  forall f, f ∈ dir -> is_auto_save_file autosave f = true ->
            exists t, moment_ok t = true /\ f = autosave_name t.

(** The directory right after an autosave has written its two files. *)
Definition written (isd : char -> bool) (listdir : directory -> list str)
    (events : list save_event) (t : moment) : directory :=
  write_file (write_file (run_saves isd listdir events) (autosave_name t))
    (latest_file_name autosave).

(** What retention leaves after the autosave at [t] that follows the
    saves [events]. *)
Definition retention_holds (isd : char -> bool)
    (listdir : directory -> list str) (events : list save_event)
    (t : moment) : Prop :=
  let before_pruning := written isd listdir events t in
  let after_pruning := run_saves isd listdir (events ++ [AutoSave t]) in
  ((5 < length (auto_save_files before_pruning autosave))%nat ->
   length (auto_save_files after_pruning autosave) = 5%nat /\
   forall a b,
     moment_ok a = true -> moment_ok b = true ->
     autosave_name a ∈ after_pruning ->
     autosave_name b ∈ before_pruning ->
     autosave_name b ∉ after_pruning ->
     before b a) /\
  ((length (auto_save_files before_pruning autosave) <= 5)%nat ->
   after_pruning = before_pruning) /\
  (forall f, f ∈ before_pruning ->
             is_auto_save_file autosave f = true ->
             exists t', moment_ok t' = true /\ f = autosave_name t') /\
  (forall f, f ∈ after_pruning -> f ∈ before_pruning) /\
  (forall f, f ∈ before_pruning ->
             is_auto_save_file autosave f = false ->
             f ∈ after_pruning) /\
  (forall name t' later,
     manual_name name t' ∈ after_pruning ->
     manual_name name t' ∈
       run_saves isd listdir ((events ++ [AutoSave t]) ++ later)).

(** Six autosaves and a manual save of one session, not in the order of
    their times. *)
Definition sample_events : list save_event :=
  [AutoSave (mkMoment 20250101 120000);
   AutoSave (mkMoment 20250101 120500);
   ManualSave (u "camp") (mkMoment 20250101 120600);
   AutoSave (mkMoment 20250102 080000);
   AutoSave (mkMoment 20241231 235959);
   AutoSave (mkMoment 20250102 080001);
   AutoSave (mkMoment 20250103 000000)]%N.

Definition sample_moment : moment := mkMoment 20250103 000100.

End SavesSpec.

(** ** Sample sessions *)

Module Samples.
Import Engine EngineSpec.

Definition config : CustomConfig :=
  mkConfig 4096 (u "Ann") (u "a sailor") [] [] [].

(** A new engine whose three template files were not found. *)
Definition fresh : GameEngine :=
  new_engine config PromptManager.empty PromptManager.empty PromptManager.empty.

Definition opening_reply : Reply :=
  ChatCompletion (Some (mkUsage 120 40 160))
    (Some (js "{'description': 'You wake on a beach.', 'summary': 'Woke on a beach.'}"))
    None.

Definition door_reply : Reply :=
  ChatCompletion (Some (mkUsage 150 30 180))
    (Some (js "{'description': 'The door opens.', 'summary': 'Opened the door.'}"))
    None.

Definition digest_reply : Reply :=
  ChatCompletion (Some (mkUsage 900 60 960))
    (Some (js "{'summary': 'The story so far.'}"))
    None.

Definition open_the_door : str := u "open the door".

(** The engine after the opening turn. *)
Definition after_opening : GameEngine :=
  final_engine (start_game Decoder.repair Decoder.loads fresh [] [opening_reply]).

(** The engine after the opening turn and one continuation turn. *)
Definition after_door : GameEngine :=
  final_engine
    (go_game Decoder.repair Decoder.loads after_opening open_the_door false
       [door_reply]).

(** A raw summary of 320 characters. *)
Definition large_text : str := repeat 97%N 320.

(** 25 raw summaries, the compaction due. *)
Definition crowded : GameEngine :=
  with_cooldown
    (with_summaries after_opening (JStr <$> repeat large_text 25)) 0.

(** 26 summaries, the first one blank and the others raw. *)
Definition blank_first : list str := [] :: repeat large_text 25.

Definition crowded_blank : GameEngine :=
  with_cooldown (with_summaries after_opening (JStr <$> blank_first)) 0.

(** Two compacted summaries among raw ones. *)
Definition mixed : GameEngine :=
  with_summaries after_opening
    (JStr <$> [u "Woke on a beach."; large_text; u "Opened the door."; large_text]).

(** The prompt of the continuation turn that follows the opening. *)
Definition door_prompt : str :=
  match continue_prompt after_opening open_the_door with
  | Returned p => p
  | Raised _ => []
  end.

(** A response whose description is blank. *)
Definition blank_text : str := js "{'description': '  ', 'summary': 'Nothing.'}".

(** The engine after the compaction of the 25 raw summaries. *)
Definition crowded_after : GameEngine :=
  final_engine (Engine.conclude_summary Decoder.repair Decoder.loads crowded [digest_reply]).

(** The engine after the compaction of the mixed summaries. *)
Definition mixed_after : GameEngine :=
  final_engine (Engine.conclude_summary Decoder.repair Decoder.loads mixed [digest_reply]).

End Samples.

(** ** More of the prompt composer *)

Module PromptManagerMore.
Import PromptManager PromptSpec.

(** [section.name] *)
Definition section_name (s : PromptSection) : str :=
  match s with
  | PRE_PROMPT => u "PRE_PROMPT"
  | BODY_PROMPT => u "BODY_PROMPT"
  | USER_INPUT => u "USER_INPUT"
  | POST_PROMPT => u "POST_PROMPT"
  end.

(** [d[k] = v] on the items of a dictionary: in place when the key is
    there, at the end when it is new. *)
Fixpoint dict_set {V} (k : str) (v : V) (d : list (str * V)) : list (str * V) :=
  match d with
  | [] => [(k, v)]
  | (k', v') :: d' =>
      if decide (k' = k) then (k, v) :: d' else (k', v') :: dict_set k v d'
  end.

(** The record [to_dict] writes for one fragment. *)
Definition fragment_record (f : PromptFragment) : fragment_data :=
  mkData (Some (content f)) (Some (is_system f)).

Definition section_dict (m : t) (s : PromptSection) : section_data :=
  fold_left (fun d f => dict_set (module_id f) (fragment_record f) d)
    (get_section_fragments m s) [].

(** [to_dict()] *)
Definition to_dict (m : t) : template :=
  fold_left (fun r s => dict_set (section_name s) (section_dict m s) r)
    all_sections [].

(** [get_section_order(section)]: a copy of the order list. *)
Definition get_section_order (m : t) (s : PromptSection) : list str :=
  section_orders m s.

(** [copy_section(from_section, to_section)]: deep copies of both entries. *)
Definition copy_section (m : t) (from_section to_section : PromptSection) : t :=
  mk (upd (sections m) to_section (sections m from_section))
     (upd (section_orders m) to_section (section_orders m from_section)).

(** A record as [json.load] gives it: within a section no id twice. *)
Definition unique_ids (data : template) : Prop :=
  Forall (fun e => NoDup (e.2.*1)) data.

(** The composers every public operation reaches from an empty one. *)
Inductive built : t -> Prop :=
  | built_empty : built empty
  | built_load_init m init_contents :
      built m -> built (load_init_sections m init_contents)
  | built_add m s mid c after :
      built m -> built (add_prompt m s mid c after).2
  | built_remove m s mid :
      built m -> built (remove_prompt m s mid).2
  | built_move m s mid target before :
      built m -> built (move_prompt m s mid target before).2
  | built_update m s mid c :
      built m -> built (update_prompt m s mid c).2
  | built_clear m s :
      built m -> built (clear_section m s)
  | built_copy m from_section to_section :
      built m -> built (copy_section m from_section to_section)
  | built_from_dict data m :
      unique_ids data -> from_dict data = Returned m -> built m
  | built_load_json m f :
      (forall data, f = Parsed data -> unique_ids data) ->
      built m -> built (load_from_json m f).2.

(** In one section: the order has no id twice, every id of the order is
    in the content map, and a fragment is stored under its own id. *)
Definition listed (frags : gmap str PromptFragment) (order : list str) : Prop :=
  NoDup order /\
  (forall k, k ∈ order -> is_Some (frags !! k)) /\
  (forall k f, frags !! k = Some f -> module_id f = k).

Definition well_listed (m : t) : Prop :=
  forall s, listed (sections m s) (section_orders m s).

Definition record_item (f : PromptFragment) : str * fragment_data :=
  (module_id f, fragment_record f).

(** The content map [from_dict] builds from the records of [fs]. *)
Definition loaded (fs : list PromptFragment) (g : gmap str PromptFragment)
  : gmap str PromptFragment :=
  fold_left (fun g f => <[module_id f := f]> g) fs g.

(** [sample_manager] with a second fragment, put right after the system
    fragment. *)
Definition two_fragments : t :=
  (add_prompt sample_manager PRE_PROMPT (u "outro") (u "Farewell.") None).2.

End PromptManagerMore.

(** ** The ledger of a turn *)

Module Ledger.
Import Engine EngineSpec Samples.

(** [js] is the text of [s] from its first opening brace to its last
    closing brace, the one after the other. *)
Definition braced (s js : str) : Prop :=
  exists pre mid post,
    s = pre ++ js ++ post /\
    js = open_brace :: mid ++ [close_brace] /\
    (open_brace ∉ pre) /\ (close_brace ∉ post).

(** The four full-width characters [parse_ai_response] rewrites. *)
Definition full_width : list char := [8220; 8221; 65306; 65292]%N.

(** The ASCII character each of them is rewritten to. *)
Definition to_ascii (c : char) : char :=
  if N.eqb c 8220 then 34%N
  else if N.eqb c 8221 then 34%N
  else if N.eqb c 65306 then 58%N
  else if N.eqb c 65292 then 44%N
  else c.

(** A text without its newline characters. *)
Definition without_newlines (s : str) : str := filter (fun c => c <> 10%N) s.

(** What one reply of the client adds to the conversation log. *)
Definition exchange (prompt : str) (r : Reply) : list (str * option str) :=
  match r with
  | ChatCompletion _ content _ =>
      [(role_user, Some prompt); (role_assistant, content)]
  | _ => []
  end.

(** The tokens a reply is billed for. *)
Definition billed (r : Reply) : Z :=
  match r with
  | ChatCompletion (Some us) _ _ => usage_total_tokens us
  | _ => 0
  end.

(** [l_p_token + l_c_token] after the replies [used], from the value [d]
    before them: the cost of the last reply that reports its usage. *)
Definition last_cost (used : list Reply) (d : Z) : Z :=
  fold_left
    (fun d r =>
       match r with
       | ChatCompletion (Some us) _ _ => prompt_tokens us + completion_tokens us
       | _ => d
       end)
    used d.

(** The tokens the replies [used] are billed for. *)
Definition sum_billed (used : list Reply) : Z :=
  foldr (fun r n => billed r + n) 0 used.

Arguments last_cost : simpl never.

Arguments sum_billed : simpl never.

(** The engine [g'] is [g] after the replies [used] to [prompt]: the log
    has their exchanges, the totals their tokens, and the configuration
    and the templates are the same. *)
Record accounted (prompt : str) (g : GameEngine) (used : list Reply)
    (g' : GameEngine) : Prop := mkAccounted {
  acc_log : conversation_history g' =
            conversation_history g ++ flat_map (exchange prompt) used;
  acc_total : total_tokens g' = total_tokens g + sum_billed used;
  acc_last : l_p_token g' + l_c_token g' =
             last_cost used (l_p_token g + l_c_token g);
  acc_config : custom_config g' = custom_config g;
  acc_name : player_name g' = player_name g;
  acc_start : pm_start g' = pm_start g;
  acc_continue : pm_continue g' = pm_continue g;
  acc_summary : pm_summary g' = pm_summary g
}.

(** A value that is a non-empty text. *)
Definition is_text (v : json) : Prop :=
  exists d, v = JStr d /\ nonempty d = true.

(** What holds of an engine in a session after the player's actions
    [acts]. *)
Definition in_session (acts : list str) (g : GameEngine) : Prop :=
  history_choices g = acts /\
  length (history_descriptions g) = S (length acts) /\
  Forall is_text (history_descriptions g) /\
  last (history_descriptions g) = Some (current_description g) /\
  length (token_consumes g) = S (length acts) /\
  history_simple_summaries g <> [] /\
  conclude_summary_cooldown g <= 10 /\
  summary_conclude_val g = 24 /\
  player_name g = cfg_player_name (custom_config g).

(** A completion with neither content nor a reasoning attribute. *)
Definition silent_reply : Reply := ChatCompletion None None None.

(** A completion whose text is in its reasoning. *)
Definition reasoning_reply : Reply :=
  ChatCompletion None (Some [])
    (Some (Some (js "Let me think. {'summary': 'A door.'} Done."))).

(** The engine after a turn that began with the compaction of the 25 raw
    summaries. *)
Definition crowded_turn : GameEngine :=
  final_engine
    (Engine.go_game Decoder.repair Decoder.loads crowded open_the_door false
       [digest_reply; door_reply]).

End Ledger.

(** ** Colours of the terminal ([src/libs/practical_funcs.py]) *)

(** ** Colours of the terminal ([src/libs/practical_funcs.py]) *)

Module Practical.

Definition COLOR_RED : str := [27; 91; 57; 49; 109]%N.
Definition COLOR_GREEN : str := [27; 91; 57; 50; 109]%N.
Definition COLOR_YELLOW : str := [27; 91; 57; 51; 109]%N.
Definition COLOR_BLUE : str := [27; 91; 57; 52; 109]%N.
Definition COLOR_MAGENTA : str := [27; 91; 57; 53; 109]%N.
Definition COLOR_CYAN : str := [27; 91; 57; 54; 109]%N.
Definition COLOR_RESET : str := [27; 91; 48; 109]%N.

(** [color_convert_dict]: the colour an opening bracket switches to. *)
Definition color_convert_dict (i : char) : option str :=
  if N.eqb i 60 then Some COLOR_MAGENTA
  else if N.eqb i 91 then Some COLOR_CYAN
  else if N.eqb i 12302 then Some COLOR_YELLOW
  else if N.eqb i 12298 then Some COLOR_RED
  else if N.eqb i 12300 then Some COLOR_GREEN
  else if N.eqb i 12304 then Some COLOR_BLUE
  else None.

(** [close_chars]: the opening bracket a closing bracket answers. *)
Definition close_chars (i : char) : option char :=
  if N.eqb i 62 then Some 60%N
  else if N.eqb i 93 then Some 91%N
  else if N.eqb i 12303 then Some 12302%N
  else if N.eqb i 12299 then Some 12298%N
  else if N.eqb i 12301 then Some 12300%N
  else if N.eqb i 12305 then Some 12304%N
  else None.

(** [l.pop()], for the list it leaves. *)
Definition pop {A} (l : list A) : list A := take (length l - 1) l.

(** The scan of [text_colorize]: [rcs] is the stack of colours, [rnccs]
    the stack of brackets still open, both with their top at the end;
    [None] is the early return on a closing bracket that answers no open
    one. *)
Fixpoint colorize_go (text : str) (rcs : list str) (rnccs : list char)
    (finally_text : list str) : option (list str) :=
  match text with
  | [] => Some (finally_text ++ [COLOR_RESET])
  | i :: rest =>
      match color_convert_dict i with
      | Some color =>
          colorize_go rest (rcs ++ [color]) (rnccs ++ [i])
            (finally_text ++ [color ++ [i]])
      | None =>
          match close_chars i with
          | Some opener =>
              if bool_decide (last rnccs = Some opener) then
                let rnccs' := pop rnccs in
                match rcs with
                | _ :: _ =>
                    let rcs' := pop rcs in
                    let current := default COLOR_RESET (last rcs') in
                    colorize_go rest rcs' rnccs' (finally_text ++ [i :: current])
                | [] =>
                    colorize_go rest rcs rnccs' (finally_text ++ [i :: COLOR_RESET])
                end
              else None
          | None => colorize_go rest rcs rnccs (finally_text ++ [[i]])
          end
      end
  end.

(** [text_colorize(text)] *)
Definition text_colorize (text : str) : str :=
  match colorize_go text [COLOR_RESET] [] [] with
  | Some finally_text => join [] finally_text
  | None => text
  end.

End Practical.

Module PracticalSpec.
Import Practical.

(** What a terminal shows of a text: the characters outside the escape
    sequences, each of which runs from ESC to the next [m]. *)
Fixpoint visible_go (s : str) (in_code : bool) : str :=
  match s with
  | [] => []
  | c :: s' =>
      if in_code then visible_go s' (negb (N.eqb c 109))
      else if N.eqb c 27 then visible_go s' true
      else c :: visible_go s' false
  end.

Definition visible (s : str) : str := visible_go s false.

Definition colors : list str :=
  [COLOR_RED; COLOR_GREEN; COLOR_YELLOW; COLOR_BLUE; COLOR_MAGENTA;
   COLOR_CYAN; COLOR_RESET].

(** A text without brackets. *)
Definition plain (text : str) : Prop :=
  forall i, i ∈ text -> color_convert_dict i = None /\ close_chars i = None.

End PracticalSpec.

(** ** The history shown and logged *)

(** ** The history shown and logged *)

Module Journal.
Import Engine.

(** [l[-n:]] *)
Definition py_tail {A} (n : Z) (l : list A) : list A :=
  let a := - n in
  if a <? 0 then drop (Z.to_nat (Z.max (Z.of_nat (length l) + a) 0)) l
  else drop (Z.to_nat a) l.

(** [print_all_history(game, back_range)] of [main.py]: the turn number,
    the description and the choice of each entry it prints, in order; the
    two texts go through [text_colorize] on their way to the screen. *)
Definition print_all_history (g : GameEngine) (back_range : Z)
  : list (Z * json * str) :=
  let total_turns := length (history_descriptions g) in
  let history_descs :=
    if (0 <? total_turns)%nat then drop_last 1 (history_descriptions g) else [] in
  let history_choices := history_choices g in
  let recent_descs :=
    match history_descs with [] => [] | _ => py_tail back_range history_descs end in
  let recent_choices :=
    match history_choices with [] => [] | _ => py_tail back_range history_choices end in
  let start_turn :=
    match history_descs with
    | [] => 0
    | _ => Z.of_nat (length history_descs) - Z.of_nat (length recent_descs) + 1
    end in
  imap (fun idx dc => (start_turn + Z.of_nat idx, dc.1, dc.2))
    (zip recent_descs recent_choices).

Section Narrative.

(** [str(v)] for a value that is neither [None] nor a string. *)
Variable py_str : json -> str.

(** [clean_text] of [log_game] *)
Definition clean_text (text : json) : str :=
  match text with
  | JNull => []
  | JStr s => strip s
  | v => strip (py_str v)
  end.

(** [narrative_data] of [log_game]: the entries of the dictionary in the
    order of their keys, the round numbers. *)
Definition narrative_data (g : GameEngine) : list (Z * (str * str)) :=
  imap (fun idx dc => (Z.of_nat idx + 1, (clean_text dc.1, clean_text (JStr dc.2))))
    (zip (history_descriptions g) (history_choices g)).

End Narrative.

End Journal.

Module SavesSamples.
Import Saves.

(** A directory with six files of the label [quick] among others. *)
Definition shelf : directory :=
  [u "quick_c.json"; u "quick_a.json"; u "quick_latest.json";
   u "quick_b.json"; u "manual_quick_z.json"; u "quick_f.json.gz";
   u "quick_e.json"; u "quick_d.json"; u "notes.txt"].

End SavesSamples.

(** ** Replies and what the engine makes of them *)

Module Progress.
Import Engine EngineSpec.

(** What [call_ai] returns on a reply; neither the engine nor the prompt
    has a say in it. *)
Definition reply_text (r : Reply) : res (option str) :=
  (call_ai Samples.fresh [] r).1.

Section Verdict.
Variable repair_json : option str -> res str.
Variable json_loads : str -> option json.

(** What [parse_ai_response] returns on a response, whatever the engine;
    [None] when the unwrap loop does not end. *)
Definition verdict (response : str) : option (res bool) :=
  fst <$> parse_ai_response repair_json json_loads Samples.fresh response.

(** A reply the retry loops pass over: it brings no text, or a text the
    parser rejects. *)
Definition passed_over (r : Reply) : Prop :=
  match reply_text r with
  | Returned (Some s) => nonempty s = false \/ verdict s = Some (Returned false)
  | Returned None => True
  | Raised _ => False
  end.

(** A reply that brings a text the parser accepts. *)
Definition accepted (r : Reply) : Prop :=
  exists s, reply_text r = Returned (Some s) /\ nonempty s = true /\
            verdict s = Some (Returned true).

(** A reply that brings a text. *)
Definition has_text (r : Reply) : Prop :=
  exists s, reply_text r = Returned (Some s) /\ nonempty s = true.

(** A reply the summary loop passes over: [phase_summary] finds no
    summary in it. *)
Definition passed_summary (r : Reply) : Prop :=
  exists a v, reply_text r = Returned a /\
              phase_summary repair_json json_loads a = Returned (false, v).

(** A reply [phase_summary] finds a summary in. *)
Definition accepted_summary (r : Reply) : Prop :=
  exists a summ, reply_text r = Returned a /\
                 phase_summary repair_json json_loads a = Returned (true, summ).

End Verdict.

End Progress.

Module ProgressSamples.
Import Engine Samples.

(** A completion whose description is blank. *)
Definition blank_reply : Reply := ChatCompletion None (Some blank_text) None.

(** A completion whose text has no summary. *)
Definition no_summary_reply : Reply :=
  ChatCompletion None (Some (js "{'note': 'later'}")) None.

End ProgressSamples.

(** * Properties *)

(** ** The prompt composer *)

Module PromptManagerFacts.
Import PromptManager PromptSpec.

Section Additive.
(** A measure of strings that adds up over concatenation, such as the
    length or the number of newlines. *)
Variable f : str -> nat.
Local Abbreviation total := (PromptSpec.total f).
Hypothesis f_app : forall a b, f (a ++ b) = (f a + f b)%nat.

Lemma f_nil : f [] = O.
Proof. pose proof (f_app [] []) as H. simpl in H. lia. Qed.

Lemma total_app l1 l2 : total (l1 ++ l2) = (total l1 + total l2)%nat.
Proof. induction l1 as [|p l1 IH]; simpl; [done | rewrite IH; lia]. Qed.

Lemma join_measure sep l :
  f (join sep l) = (total l + (length l - 1) * f sep)%nat.
Proof.
  induction l as [|p l IH]; simpl.
  - apply f_nil.
  - destruct l as [|q l].
    + simpl. lia.
    + rewrite !f_app, IH. simpl. lia.
Qed.

(** An empty part put anywhere into a non-empty list of parts makes the
    joined text longer by one separator. *)
Lemma join_extra_empty sep l1 l2 :
  l1 ++ l2 <> [] ->
  f (join sep (l1 ++ [] :: l2)) = (f (join sep (l1 ++ l2)) + f sep)%nat.
Proof.
  intros Hne. rewrite !join_measure, !total_app. simpl. rewrite f_nil.
  rewrite !length_app. simpl.
  assert (0 < length l1 + length l2)%nat.
  { destruct l1, l2; simpl in *; try lia. congruence. }
  replace (length l1 + S (length l2) - 1)%nat
    with (S (length l1 + length l2 - 1)) by lia.
  simpl. lia.
Qed.
End Additive.

Lemma newlines_app a b : newlines (a ++ b) = (newlines a + newlines b)%nat.
Proof. unfold newlines. rewrite List.filter_app, length_app. done. Qed.

Lemma has_key_set d s v : has_key (Engine.set_override d s v) = true.
Proof.
  unfold has_key, Engine.set_override, all_sections. simpl.
  destruct s; repeat case_decide; try congruence; simpl;
    rewrite ?orb_true_r; done.
Qed.

Lemma section_parts_same m extra s s' :
  s' <> s ->
  section_parts m (with_empty_override extra s) s' = section_parts m extra s'.
Proof.
  intros Hne. unfold section_parts, with_empty_override. f_equal.
  rewrite has_key_set. unfold Engine.set_override.
  case_decide; [congruence|].
  destruct extra as [d|]; simpl; [|done].
  destruct (has_key d) eqn:Hk; [done|].
  destruct (d s') eqn:Hd; [|done].
  exfalso. unfold has_key, all_sections in Hk. simpl in Hk.
  destruct s'; rewrite Hd in Hk; simpl in Hk; rewrite ?orb_true_r in Hk; done.
Qed.

Lemma section_parts_extra m extra s :
  no_entry extra s ->
  section_parts m (with_empty_override extra s) s = section_parts m extra s ++ [[]].
Proof.
  intros Hno. unfold section_parts, with_empty_override.
  rewrite has_key_set. unfold Engine.set_override at 1.
  case_decide; [|congruence].
  destruct extra as [d|]; simpl in *.
  - rewrite Hno. destruct (has_key d); by rewrite app_nil_r.
  - by rewrite app_nil_r.
Qed.

(** The parts of the prompt with the empty override are the parts without
    it, with one empty part put in. *)
Lemma full_prompt_parts_extra m extra s :
  no_entry extra s ->
  exists l1 l2,
    full_prompt_parts m extra = l1 ++ l2 /\
    full_prompt_parts m (with_empty_override extra s) = l1 ++ [] :: l2.
Proof.
  intros Hno. unfold full_prompt_parts, all_sections. simpl.
  rewrite !app_nil_r.
  set (A := section_parts m extra PRE_PROMPT).
  set (B := section_parts m extra BODY_PROMPT).
  set (C := section_parts m extra USER_INPUT).
  set (D := section_parts m extra POST_PROMPT).
  destruct s; rewrite (section_parts_extra _ _ _ Hno);
    rewrite !section_parts_same by done; fold A B C D.
  - exists A, (B ++ C ++ D). by rewrite <- ?app_assoc.
  - exists (A ++ B), (C ++ D). by rewrite <- ?app_assoc.
  - exists (A ++ B ++ C), D. by rewrite <- ?app_assoc.
  - exists (A ++ B ++ C ++ D), []. by rewrite ?app_nil_r, <- ?app_assoc.
Qed.

(** C10. In [get_full_prompt] an override equal to the empty string is
    appended as a segment of its own: when the prompt has some other
    segment [p], the prompt with the empty override for a section differs
    from the prompt without an entry for that section, being exactly one
    newline longer.  This holds for every section, with or without
    fragments, and whether or not [p] is empty. *)
Theorem empty_override_adds_newline
    (m : t) (extra : option overrides) (s : PromptSection) (p : str) :
  no_entry extra s ->
  p ∈ full_prompt_parts m extra ->
  get_full_prompt m (with_empty_override extra s) <> get_full_prompt m extra /\
  length (get_full_prompt m (with_empty_override extra s))
    = S (length (get_full_prompt m extra)) /\
  newlines (get_full_prompt m (with_empty_override extra s))
    = S (newlines (get_full_prompt m extra)).
Proof.
  intros Hno Hin.
  destruct (full_prompt_parts_extra m extra s Hno) as (l1 & l2 & E1 & E2).
  assert (Hne : l1 ++ l2 <> []).
  { rewrite <- E1. intros E. rewrite E in Hin. by apply not_elem_of_nil in Hin. }
  unfold get_full_prompt. rewrite E1, E2.
  pose proof (join_extra_empty (@length N) (@length_app N) newline l1 l2 Hne) as HL.
  pose proof (join_extra_empty newlines newlines_app newline l1 l2 Hne) as HN.
  change (length newline) with 1%nat in HL.
  change (newlines newline) with 1%nat in HN.
  split; [|split]; [|lia|lia].
  intros E. rewrite E in HL. lia.
Qed.

Lemma upd_same {A} (f : PromptSection -> A) s a : upd f s a s = a.
Proof. unfold upd. by case_decide. Qed.

Lemma upd_other {A} (f : PromptSection -> A) s s' a :
  s' <> s -> upd f s a s' = f s'.
Proof. unfold upd. by case_decide. Qed.

(** To keep the invariant, an operation on section [s] has to establish it
    for the new content map and order of [s]. *)
Lemma inv_update m s frags order :
  inv m -> sec_inv frags order ->
  inv (mk (upd (sections m) s frags) (upd (section_orders m) s order)).
Proof.
  intros Hm Hs s'. simpl. destruct (decide (s' = s)) as [->|Hne].
  - by rewrite !upd_same.
  - rewrite !upd_other by done. apply Hm.
Qed.

Lemma inv_update_frags m s frags :
  inv m -> sec_inv frags (section_orders m s) ->
  inv (mk (upd (sections m) s frags) (section_orders m)).
Proof.
  intros Hm Hs s'. simpl. destruct (decide (s' = s)) as [->|Hne].
  - by rewrite upd_same.
  - rewrite upd_other by done. apply Hm.
Qed.

Lemma inv_update_order m s order :
  inv m -> sec_inv (sections m s) order ->
  inv (mk (sections m) (upd (section_orders m) s order)).
Proof.
  intros Hm Hs s'. simpl. destruct (decide (s' = s)) as [->|Hne].
  - by rewrite upd_same.
  - rewrite upd_other by done. apply Hm.
Qed.

Lemma tail_snoc_not_in (l : list str) x :
  x <> system_id -> system_id ∉ tail l -> system_id ∉ tail (l ++ [x]).
Proof.
  intros Hx Hl. destruct l as [|y l]; simpl in *.
  - apply not_elem_of_nil.
  - rewrite elem_of_app, list_elem_of_singleton. intros [?|?]; [done|congruence].
Qed.

Lemma insert_at_elem i (x y : str) l :
  y ∈ insert_at i x l -> y = x \/ y ∈ l.
Proof.
  unfold insert_at. rewrite elem_of_app, elem_of_cons.
  intros [H|[H|H]]; auto.
  - right. by apply (subseteq_take i l).
  - right. by apply (subseteq_drop i l).
Qed.

Lemma tail_insert_at_not_in i (l : list str) x :
  x <> system_id -> system_id ∉ tail l ->
  system_id ∉ tail (insert_at (S i) x l).
Proof.
  intros Hx Hl. destruct l as [|y l]; simpl in *.
  - unfold insert_at. simpl. apply not_elem_of_nil.
  - unfold insert_at. simpl. fold (insert_at i x l).
    intros H. apply insert_at_elem in H as [?|?]; [congruence|done].
Qed.

Lemma remove_first_elem x (l l' : list str) y :
  remove_first x l = Some l' -> y ∈ l' -> y ∈ l.
Proof.
  revert l'. induction l as [|z l IH]; intros l' H Hy; simpl in H; [done|].
  case_decide.
  - simplify_eq. by apply elem_of_cons; right.
  - destruct (remove_first x l) as [l0|] eqn:E; simplify_eq/=.
    apply elem_of_cons in Hy as [->|Hy]; [apply elem_of_cons; by left|].
    apply elem_of_cons; right. eauto.
Qed.

Lemma tail_remove_first_not_in x (l l' : list str) :
  remove_first x l = Some l' ->
  system_id ∉ tail l -> system_id ∉ tail l'.
Proof.
  intros H Hl. destruct l as [|z l]; simpl in H; [done|].
  case_decide.
  - simplify_eq. simpl in Hl. intros Hin. apply Hl.
    destruct l'; simpl in *; [by apply not_elem_of_nil in Hin|].
    by apply elem_of_cons; right.
  - destruct (remove_first x l) as [l0|] eqn:E; simplify_eq/=.
    intros Hin. apply Hl. eapply remove_first_elem; eauto.
Qed.

Lemma index_head_target target (l : list str) :
  index target l = Some O -> head l = Some target.
Proof.
  destruct l as [|y l]; simpl; [done|]. case_decide; [by subst|].
  destruct (index target l); simpl; congruence.
Qed.

Lemma inv_empty : inv empty.
Proof.
  intros s. split; simpl.
  - intros k f H. by rewrite lookup_empty in H.
  - apply not_elem_of_nil.
Qed.

Lemma inv_load_init_one m sc : inv m -> inv (load_init_one m sc).
Proof.
  intros Hm. destruct sc as [s c]. unfold load_init_one.
  apply inv_update; [done|]. split; simpl.
  - intros k f H Hf. destruct (decide (k = system_id)) as [|Hne]; [done|].
    rewrite lookup_insert_ne in H by done. by eapply (Hm s).
  - apply not_elem_of_nil.
Qed.

Lemma inv_load_init m cs : inv m -> inv (load_init_sections m cs).
Proof.
  unfold load_init_sections. revert m.
  induction cs as [|sc cs IH]; intros m Hm; simpl; [done|].
  apply IH. by apply inv_load_init_one.
Qed.

Lemma sec_inv_insert_plain frags order k c :
  sec_inv frags order -> sec_inv (<[k := mkFragment k c false]> frags) order.
Proof.
  intros [Ha Hb]. split; [|done]. intros k' f H Hf.
  destruct (decide (k' = k)) as [->|Hne].
  - rewrite lookup_insert_eq in H. by simplify_eq.
  - rewrite lookup_insert_ne in H by done. eauto.
Qed.

Lemma inv_add m s mid c after : inv m -> inv (add_prompt m s mid c after).2.
Proof.
  intros Hm. unfold add_prompt. case_decide as Hsys; [done|].
  destruct (sections m s !! mid) as [f|] eqn:Hf; simpl.
  - apply inv_update_frags; [done|]. destruct (Hm s) as [Ha Hb].
    split; [|done]. intros k f' H Hf'.
    destruct (decide (k = mid)) as [->|Hne].
    + rewrite lookup_insert_eq in H. simplify_eq/=. eauto.
    + rewrite lookup_insert_ne in H by done. eauto.
  - apply inv_update; [done|].
    destruct (sec_inv_insert_plain _ _ mid c (Hm s)) as [Ha Hb].
    split; [done|].
    destruct after as [a|].
    + destruct (index a (section_orders m s)) as [i|].
      * by apply tail_insert_at_not_in.
      * by apply tail_snoc_not_in.
    + destruct (section_orders m s) as [|first rest] eqn:Ho.
      * by apply tail_snoc_not_in.
      * case_decide.
        -- by apply tail_insert_at_not_in.
        -- by apply tail_snoc_not_in.
Qed.

Lemma inv_remove m s mid : inv m -> inv (remove_prompt m s mid).2.
Proof.
  intros Hm. unfold remove_prompt. case_decide as Hsys; [done|].
  destruct (sections m s !! mid) as [f|] eqn:Hf; simpl; [|done].
  destruct (Hm s) as [Ha Hb].
  assert (Hdel : forall k f', delete mid (sections m s) !! k = Some f' ->
                   is_system f' = true -> k = system_id).
  { intros k f' H. apply lookup_delete_Some in H as [_ H]. eauto. }
  destruct (remove_first mid (section_orders m s)) as [order'|] eqn:Hr; simpl.
  - apply inv_update; [done|]. split; [done|].
    by eapply tail_remove_first_not_in.
  - by apply inv_update_frags.
Qed.

Lemma inv_move m s mid target before :
  inv m -> inv (move_prompt m s mid target before).2.
Proof.
  intros Hm. unfold move_prompt. case_decide as Hsys; [done|].
  destruct (bool_decide (target = system_id) && before) eqn:Ht; [done|].
  destruct (negb (mem mid (section_orders m s))); [done|].
  destruct (negb (mem target (section_orders m s))); [done|].
  destruct (Hm s) as [Ha Hb].
  destruct (remove_first mid (section_orders m s)) as [l1|] eqn:Hr; simpl; [|done].
  pose proof (tail_remove_first_not_in _ _ _ Hr Hb) as Hb1.
  destruct (index target l1) as [i|] eqn:Hi; simpl.
  - apply inv_update_order; [done|]. split; [done|].
    destruct before, i as [|i]; try by apply tail_insert_at_not_in.
    (* moved to the very front: the target is the head and is not "system" *)
    unfold insert_at. simpl.
    apply index_head_target in Hi.
    destruct l1 as [|y l1]; simplify_eq/=.
    rewrite andb_true_r in Ht. apply bool_decide_eq_false in Ht.
    rewrite elem_of_cons. intros [?|?]; [congruence|done].
  - by apply inv_update_order.
Qed.

Lemma inv_clear m s : inv m -> inv (clear_section m s).
Proof.
  intros Hm. unfold clear_section. destruct (Hm s) as [Ha Hb].
  destruct (sections m s !! system_id) as [f|] eqn:Hf.
  - apply inv_update; [done|]. split; simpl; [|apply not_elem_of_nil].
    intros k f' H. apply lookup_singleton_Some in H as [<- _]. done.
  - apply inv_update; [done|]. split; simpl; [|apply not_elem_of_nil].
    intros k f' H. by rewrite lookup_empty in H.
Qed.

Lemma inv_load_plain m s items r m' :
  inv m -> forallb entry_plain items = true ->
  load_fragments m s items = (r, m') -> inv m'.
Proof.
  revert m. induction items as [|[k fd] items IH]; intros m Hm Hp H; simpl in *.
  - by simplify_eq.
  - apply andb_prop in Hp as [Hk Hp]. unfold entry_plain in Hk. simpl in Hk.
    apply andb_prop in Hk as [Hk Hflag].
    apply negb_true_iff, bool_decide_eq_false in Hk.
    apply negb_true_iff in Hflag.
    destruct (fd_content fd) as [c|]; [|by simplify_eq].
    eapply IH; [|done|exact H].
    apply inv_update; [done|]. rewrite Hflag.
    destruct (sec_inv_insert_plain _ _ k c (Hm s)) as [Ha Hb].
    split; [done|]. by apply tail_snoc_not_in.
Qed.

Lemma inv_load_items m s items r m' :
  inv m -> section_orders m s = [] -> items_ok items = true ->
  load_fragments m s items = (r, m') -> inv m'.
Proof.
  intros Hm Ho Hok H. destruct items as [|[k fd] items]; simpl in *.
  - by simplify_eq.
  - apply andb_prop in Hok as [Hhead Hrest].
    destruct (fd_content fd) as [c|]; [|by simplify_eq].
    eapply inv_load_plain; [|exact Hrest|exact H].
    apply inv_update; [done|]. rewrite Ho. destruct (Hm s) as [Ha Hb].
    split; simpl; [|apply not_elem_of_nil].
    intros k' f Hl Hf. destruct (decide (k' = k)) as [->|Hne].
    + rewrite lookup_insert_eq in Hl. simplify_eq/=. rewrite Hf in Hhead.
      simpl in Hhead. by apply bool_decide_eq_true in Hhead.
    + rewrite lookup_insert_ne in Hl by done. eauto.
Qed.

Lemma inv_from_dict_go data m r m' :
  inv m -> template_ok data -> from_dict_go m data = (r, m') -> inv m'.
Proof.
  unfold template_ok. revert m.
  induction data as [|[name items] data IH]; intros m Hm Hok H; simpl in *.
  - by simplify_eq.
  - apply andb_prop in Hok as [Hitems Hok].
    destruct (section_of_name name) as [s|]; [|eauto].
    destruct (load_fragments _ s items) as [r1 m1] eqn:Hl.
    assert (inv m1) as Hm1.
    { eapply inv_load_items; [| |exact Hitems|exact Hl].
      - apply inv_update; [done|]. split; simpl; [|apply not_elem_of_nil].
        intros k f Hk. by rewrite lookup_empty in Hk.
      - simpl. apply upd_same. }
    destruct r1; [eauto|by simplify_eq].
Qed.

Lemma inv_from_dict data m :
  template_ok data -> from_dict data = Returned m -> inv m.
Proof.
  intros Hok H. unfold from_dict in H.
  destruct (from_dict_go empty data) as [r m'] eqn:Hgo.
  destruct r; simplify_eq. eapply inv_from_dict_go; eauto using inv_empty.
Qed.

Lemma inv_reachable m : reachable template_ok m -> inv m.
Proof.
  induction 1 as [| | | | | |data m Hok H|m f Hok Hm IH];
    eauto using inv_empty, inv_load_init, inv_add, inv_remove, inv_move,
      inv_clear, inv_from_dict.
  unfold load_from_json. destruct f as [| | |data]; try done.
  destruct (from_dict data) as [m'|x] eqn:Hd; simpl; [|done].
  eapply inv_from_dict; [|exact Hd]. by apply Hok.
Qed.

Lemma inv_protected_first m : inv m -> protected_first m.
Proof.
  intros Hm s f Hin Hf. destruct (Hm s) as [Ha Hb].
  unfold get_section_fragments in *.
  apply list_elem_of_omap in Hin as (k & Hk & Hl).
  pose proof (Ha _ _ Hl Hf) as ->.
  destruct (section_orders m s) as [|k0 rest]; [by apply not_elem_of_nil in Hk|].
  simpl in Hb. apply elem_of_cons in Hk as [<-|Hk]; [|done].
  simpl. by rewrite Hl.
Qed.

Lemma remove_system_refused m : system_refused m.
Proof. intros s. unfold remove_prompt. by case_decide. Qed.




(** Deserialization takes the order of the record as it finds it: a record
    that lists the protected fragment second gives a composer that renders
    it second. *)
Lemma misordered_manager_fragments :
  from_dict misordered_template = Returned misordered_manager /\
  get_section_fragments misordered_manager PRE_PROMPT =
    [mkFragment (u "intro") (u "Welcome.") false;
     mkFragment (u "system") (u "Rules.") true].
Proof. split; vm_compute; reflexivity. Qed.


Lemma empty_override_adds_newline_witness :
  get_full_prompt sample_manager (with_empty_override None USER_INPUT)
    <> get_full_prompt sample_manager None /\
  length (get_full_prompt sample_manager (with_empty_override None USER_INPUT))
    = S (length (get_full_prompt sample_manager None)) /\
  newlines (get_full_prompt sample_manager (with_empty_override None USER_INPUT))
    = S (newlines (get_full_prompt sample_manager None)).
Proof.
  apply (empty_override_adds_newline sample_manager None USER_INPUT
           (u "Rules." ++ newline ++ u "Welcome.")).
  - exact I.
  - vm_compute. apply list_elem_of_here.
Defined.

End PromptManagerFacts.

(** ** The turn engine *)

Module EngineFacts.
Import Engine EngineSpec.

Section EngineFacts.
Variable repair_json : option str -> res str.
Variable json_loads : str -> option json.

Local Abbreviation parse_ai_response := (Engine.parse_ai_response repair_json json_loads).
Local Abbreviation retry_until_parsed := (Engine.retry_until_parsed repair_json json_loads).
Local Abbreviation start_game := (Engine.start_game repair_json json_loads).
Local Abbreviation go_game := (Engine.go_game repair_json json_loads).
Local Abbreviation go_game_turn := (Engine.go_game_turn repair_json json_loads).
Local Abbreviation conclude_summary := (Engine.conclude_summary repair_json json_loads).
Local Abbreviation phase_summary := (Engine.phase_summary repair_json json_loads).
Local Abbreviation played := (EngineSpec.played repair_json json_loads).

Lemma untouched_refl g : untouched g g.
Proof. by split. Qed.

Lemma untouched_trans g1 g2 g3 :
  untouched g1 g2 -> untouched g2 g3 -> untouched g1 g3.
Proof. intros [] []. split; congruence. Qed.

Lemma call_ai_untouched g prompt r :
  untouched g (call_ai g prompt r).2 /\
  history_simple_summaries (call_ai g prompt r).2 = history_simple_summaries g /\
  current_description (call_ai g prompt r).2 = current_description g.
Proof.
  unfold call_ai.
  destruct r as [| |usage content reasoning]; simpl; [by repeat split..|].
  destruct usage, (opt_truthy content), reasoning as [[rs|]|]; simpl;
    try destruct (nonempty rs); try destruct (brace_window rs);
    by repeat split.
Qed.

Lemma parse_untouched g response r g' :
  parse_ai_response g response = Some (r, g') -> untouched g g'.
Proof.
  unfold Engine.parse_ai_response. intros H.
  repeat (match type of H with
          | context [match ?x with _ => _ end] => destruct x eqn:?
          | context [if ?x then _ else _] => destruct x eqn:?
          end; simplify_eq/=; try by split).
Qed.

(** On the values of a decoder whose strings decode to values written in
    fewer characters, the unwrap loop ends within [unwrap_fuel] turns, so
    [parse_ai_response] gives a result. *)
Lemma unwrap_ends n v :
  (forall s v', json_loads s = Some v' -> (unwrap_fuel v' <= length s)%nat) ->
  (unwrap_fuel v <= n)%nat ->
  Engine.unwrap json_loads n v <> NoFuel.
Proof.
  intros Hb. revert v. induction n as [|n IH]; intros v Hv.
  - destruct v as [| | | |s|[|x l]|d]; simpl in *; try done; lia.
  - destruct v as [| | | |s|[|x l]|d]; simpl in *; try done.
    + destruct (json_loads s) as [v'|] eqn:E; [|done].
      apply IH. specialize (Hb _ _ E). lia.
    + apply IH. lia.
Qed.

Lemma parse_gives_result g response :
  (forall s v', json_loads s = Some v' -> (unwrap_fuel v' <= length s)%nat) ->
  parse_ai_response g response <> None.
Proof.
  intros Hb. unfold Engine.parse_ai_response.
  destruct (repair_json _) as [repaired|[]]; try done.
  destruct (json_loads repaired) as [v|]; [|done].
  pose proof (unwrap_ends (unwrap_fuel v) v Hb ltac:(lia)) as Hu.
  destruct (Engine.unwrap json_loads (unwrap_fuel v) v); try done.
  repeat case_match; done.
Qed.

(** C2. When [parse_ai_response] returns failure, for any of its reasons,
    the summaries, the history of descriptions and the history of choices
    are what they were before the call. *)
Theorem failed_parse_keeps_histories (g g' : GameEngine) (response : str) :
  parse_ai_response g response = Some (Returned false, g') ->
  history_simple_summaries g' = history_simple_summaries g /\
  history_descriptions g' = history_descriptions g /\
  history_choices g' = history_choices g.
Proof.
  unfold Engine.parse_ai_response. intros H.
  repeat (match type of H with
          | context [match ?x with _ => _ end] => destruct x eqn:?
          | context [if ?x then _ else _] => destruct x eqn:?
          end; simplify_eq/=; try done).
Qed.


Lemma bind_Done {A B} (m : outcome A) k (b : B) g' w' :
  bind m k = Done b g' w' ->
  exists a g1 w1, m = Done a g1 w1 /\ k a g1 w1 = Done b g' w'.
Proof. destruct m; simpl; intros H; simplify_eq; eauto. Qed.

Lemma next_call_untouched {A} g0 g prompt w
    (k : option str -> GameEngine -> list Reply -> outcome A) :
  untouched g0 g ->
  (forall a g1 w1, untouched g0 g1 -> untouched g0 (final_engine (k a g1 w1))) ->
  untouched g0 (final_engine (next_call g prompt w k)).
Proof.
  intros Hg Hk. unfold next_call. destruct w as [|r w]; [done|].
  destruct (call_ai_untouched g prompt r) as [Hc _].
  destruct (call_ai g prompt r) as [[a|x] g1]; simpl in *.
  - apply Hk. by eapply untouched_trans.
  - by eapply untouched_trans.
Qed.

Lemma parse_step_untouched g0 g w response :
  untouched g0 g ->
  untouched g0 (final_engine (Engine.parse_step repair_json json_loads g w response)).
Proof.
  intros Hg. unfold parse_step.
  destruct (parse_ai_response g response) as [[r g']|] eqn:Hp; [|done].
  apply parse_untouched in Hp.
  destruct r; simpl; by eapply untouched_trans.
Qed.

Lemma retry_until_parsed_untouched prompt g0 g w :
  untouched g0 g ->
  untouched g0 (final_engine (retry_until_parsed prompt g w)).
Proof.
  revert g. induction w as [|r w IH]; intros g Hg; simpl; [done|].
  destruct (call_ai_untouched g prompt r) as [Hc _].
  destruct (call_ai g prompt r) as [[a|x] g1]; simpl in *.
  2: by eapply untouched_trans.
  assert (untouched g0 g1) as Hg1 by by eapply untouched_trans.
  destruct a as [s|]; [|by apply IH].
  destruct (nonempty s); [|by apply IH].
  destruct (parse_ai_response g1 s) as [[r' g2]|] eqn:Hp; [|done].
  apply parse_untouched in Hp.
  assert (untouched g0 g2) as Hg2 by by eapply untouched_trans.
  destruct r' as [[|]|]; simpl; auto.
Qed.

Lemma retry_until_response_untouched prompt g0 g w :
  untouched g0 g ->
  untouched g0 (final_engine (retry_until_response prompt g w)).
Proof.
  revert g. induction w as [|r w IH]; intros g Hg; simpl; [done|].
  destruct (call_ai_untouched g prompt r) as [Hc _].
  destruct (call_ai g prompt r) as [[a|x] g1]; simpl in *.
  2: by eapply untouched_trans.
  assert (untouched g0 g1) as Hg1 by by eapply untouched_trans.
  destruct a as [s|]; [|by apply IH].
  destruct (nonempty s); [done|by apply IH].
Qed.

Lemma bind_untouched {A B} g0 (m : outcome A) (k : A -> GameEngine -> list Reply -> outcome B) :
  untouched g0 (final_engine m) ->
  (forall a g1 w1, untouched g0 g1 -> untouched g0 (final_engine (k a g1 w1))) ->
  untouched g0 (final_engine (bind m k)).
Proof. destruct m; simpl; auto. Qed.

(** The opening turn appends one description and no choice. *)
Lemma start_game_appends g st_story w r g' w' :
  start_game g st_story w = Done r g' w' ->
  history_descriptions g' = history_descriptions g ++ [current_description g'] /\
  history_choices g' = history_choices g.
Proof.
  unfold Engine.start_game. intros H.
  apply bind_Done in H as (s & g2 & w2 & H1 & H).
  apply bind_Done in H as ([] & g4 & w4 & H2 & H).
  assert (untouched g g2) as U2.
  { change g2 with (final_engine (Done s g2 w2)). rewrite <- H1.
    apply next_call_untouched; [apply untouched_refl|].
    intros a g1 w1 U1. destruct (opt_truthy a); [done|].
    by apply retry_until_response_untouched. }
  assert (untouched g g4) as U4.
  { change g4 with (final_engine (Done () g4 w4)). rewrite <- H2.
    apply bind_untouched; [by apply parse_step_untouched|].
    intros [] g3 w3 U3; [done|]. by apply retry_until_parsed_untouched. }
  destruct U4. simplify_eq/=. split; congruence.
Qed.

Lemma quiet_refl g : quiet g g.
Proof. split; [apply untouched_refl|done]. Qed.

Lemma quiet_trans g1 g2 g3 : quiet g1 g2 -> quiet g2 g3 -> quiet g1 g3.
Proof.
  intros [U1 S1] [U2 S2]. split; [by eapply untouched_trans|congruence].
Qed.

Lemma call_ai_quiet g prompt r : quiet g (call_ai g prompt r).2.
Proof. destruct (call_ai_untouched g prompt r) as (? & ? & _). by split. Qed.

Lemma with_config_quiet g c : quiet g (with_config g c).
Proof. by repeat split. Qed.

Lemma retry_until_summary_quiet prompt g0 g w :
  quiet g0 g ->
  quiet g0 (final_engine
              (Engine.retry_until_summary repair_json json_loads prompt g w)).
Proof.
  revert g. induction w as [|r w IH]; intros g Hg; simpl; [done|].
  pose proof (call_ai_quiet g prompt r) as Hc.
  destruct (call_ai g prompt r) as [[a|x] g1]; simpl in *.
  2: by eapply quiet_trans.
  assert (quiet g0 g1) as Hg1 by by eapply quiet_trans.
  destruct (phase_summary a) as [[[|] summ]|x]; simpl; auto.
Qed.

Lemma request_summary_quiet prompt limit g w :
  quiet g (final_engine
             (Engine.request_summary repair_json json_loads prompt limit g w)).
Proof.
  unfold Engine.request_summary, next_call.
  destruct w as [|r w]; [apply with_config_quiet|].
  pose proof (call_ai_quiet
                (with_config g (set_max_tokens (custom_config g) limit))
                prompt r) as Hc.
  destruct (call_ai _ prompt r) as [[a|x] g1]; simpl in *.
  2: { eapply quiet_trans; [apply with_config_quiet|done]. }
  assert (quiet g (with_config g1
                     (set_max_tokens (custom_config g1)
                        (max_tokens (custom_config g))))) as Hg2.
  { eapply quiet_trans; [apply with_config_quiet|].
    eapply quiet_trans; [exact Hc|apply with_config_quiet]. }
  destruct (phase_summary a) as [[[|] summ]|x]; simpl; auto.
  by apply retry_until_summary_quiet.
Qed.

(** What a compaction that returns has done: the summaries are the list
    the strategy built, the cooldown is back at 10, and the histories are
    as they were. *)
Lemma finish_compaction_Done g w l r g' w' :
  finish_compaction g w l = Done r g' w' ->
  history_simple_summaries g' = l /\
  conclude_summary_cooldown g' = 10 /\
  w' = w /\
  history_descriptions g' = history_descriptions g /\
  history_choices g' = history_choices g /\
  summary_conclude_val g' = summary_conclude_val g /\
  compressed_summary_textmin g' = compressed_summary_textmin g /\
  current_description g' = current_description g.
Proof.
  unfold finish_compaction. simpl.
  destruct (add_to_last _ _); intros H; simplify_eq/=. by repeat split.
Qed.

Lemma finish_compaction_histories g w l :
  histories (final_engine (finish_compaction g w l)) = histories g.
Proof. unfold finish_compaction. simpl. by destruct (add_to_last _ _). Qed.

Lemma quiet_histories g g' : quiet g g' -> histories g' = histories g.
Proof. intros [[] _]. unfold histories. congruence. Qed.

Lemma dilute_Done g w r g' w' :
  Engine.dilute repair_json json_loads g w = Done r g' w' ->
  exists summ,
    history_simple_summaries g' = summ :: drop 10 (history_simple_summaries g) /\
    conclude_summary_cooldown g' = 10 /\
    histories g' = histories g /\
    summary_conclude_val g' = summary_conclude_val g.
Proof.
  unfold Engine.dilute. destruct (Py.strings _) as [items|]; [|done].
  intros H. apply bind_Done in H as (summ & g1 & w1 & H1 & H).
  pose proof (request_summary_quiet
                (summary_prompt g (player_line g) items) 20480 g w) as Q.
  rewrite H1 in Q. simpl in Q.
  apply finish_compaction_Done in H as (Hs & Hc & _ & Hd & Hh & Hv & _).
  exists summ. destruct Q as [[] Qs]. unfold histories.
  repeat split; congruence.
Qed.

Lemma compress_Done g w r g' w' :
  Engine.compress repair_json json_loads g w = Done r g' w' ->
  exists summ larges,
    py_filter (is_large (compressed_summary_textmin g))
      (history_simple_summaries g) = Returned larges /\
    history_simple_summaries g' = larges ++ [summ] /\
    conclude_summary_cooldown g' = 10 /\
    histories g' = histories g.
Proof.
  unfold Engine.compress.
  destruct (py_filter (is_small _) _) as [smalls|]; [|done].
  destruct (Py.strings _) as [items|]; [|done].
  intros H. apply bind_Done in H as (summ & g1 & w1 & H1 & H).
  pose proof (request_summary_quiet
                (summary_prompt g (name_label ++ player_name g) items)
                2048 g w) as Q.
  rewrite H1 in Q. simpl in Q. destruct Q as [[] Qs].
  destruct (py_filter (is_large _) (history_simple_summaries g1))
    as [larges|] eqn:HL; [|done].
  apply finish_compaction_Done in H as (Hs & Hc & _ & Hd & Hh & _).
  exists summ, larges. unfold histories.
  repeat split; congruence.
Qed.

Lemma conclude_summary_histories g w :
  histories (final_engine (conclude_summary g w)) = histories g.
Proof.
  unfold Engine.conclude_summary.
  destruct (select_strategy g) as [[|]|]; [| |done].
  - unfold Engine.dilute. destruct (Py.strings _) as [items|]; [|done].
    pose proof (request_summary_quiet
                  (summary_prompt g (player_line g) items) 20480 g w) as Q.
    destruct (Engine.request_summary _ _ _ _ _ _) as [summ g1 w1| | |]; simpl in *;
      try by apply quiet_histories.
    rewrite finish_compaction_histories. by apply quiet_histories.
  - unfold Engine.compress.
    destruct (py_filter (is_small _) _) as [smalls|]; [|done].
    destruct (Py.strings _) as [items|]; [|done].
    pose proof (request_summary_quiet
                  (summary_prompt g (name_label ++ player_name g) items)
                  2048 g w) as Q.
    destruct (Engine.request_summary _ _ _ _ _ _) as [summ g1 w1| | |]; simpl in *;
      try by apply quiet_histories.
    destruct (py_filter (is_large _) _) as [larges|]; simpl;
      [|by apply quiet_histories].
    rewrite finish_compaction_histories. by apply quiet_histories.
Qed.

(** A continuation turn that returns has appended one description and the
    player's action. *)
Lemma go_game_turn_appends g user_ipt w r g' w' :
  go_game_turn g user_ipt w = Done r g' w' ->
  history_descriptions g' = history_descriptions g ++ [current_description g'] /\
  history_choices g' = history_choices g ++ [user_ipt].
Proof.
  unfold Engine.go_game_turn.
  destruct (if nonempty user_ipt then _ else _) as [prompt|]; [|done].
  destruct (negb (nonempty prompt)); [done|].
  intros H. apply bind_Done in H as ([] & g3 & w3 & H1 & H).
  assert (untouched g g3) as U3.
  { change g3 with (final_engine (Done () g3 w3)). rewrite <- H1.
    apply next_call_untouched; [apply untouched_refl|].
    intros a g1 w1 U1. destruct a as [s|]; [|done].
    destruct (nonempty s); [|done].
    apply bind_untouched; [by apply parse_step_untouched|].
    intros [] g2 w2 U2; [done|]. by apply retry_until_parsed_untouched. }
  destruct U3. simplify_eq/=. split; congruence.
Qed.

Lemma go_game_appends g user_ipt w r g' w' :
  go_game g user_ipt false w = Done r g' w' ->
  history_descriptions g' = history_descriptions g ++ [current_description g'] /\
  history_choices g' = history_choices g ++ [user_ipt].
Proof.
  unfold Engine.go_game. intros H.
  apply bind_Done in H as (z & g1 & w1 & H1 & H).
  apply go_game_turn_appends in H as [Hd Hc].
  assert (histories g1 = histories g) as E.
  { destruct (compaction_due g false); [|by simplify_eq].
    unfold go_game_concluding in H1.
    apply bind_Done in H1 as (z' & g0 & w0 & H0 & H1). simplify_eq.
    pose proof (conclude_summary_histories g w) as Q. by rewrite H0 in Q. }
  unfold histories in E. simplify_eq. split; congruence.
Qed.

Lemma go_game_concluding_keeps g user_ipt w r g' w' :
  go_game g user_ipt true w = Done r g' w' ->
  histories g' = histories g.
Proof.
  unfold Engine.go_game, compaction_due. rewrite andb_false_r. simpl.
  intros H. apply bind_Done in H as (z & g1 & w1 & H1 & H). simplify_eq.
  pose proof (conclude_summary_histories g w) as Q. by rewrite H1 in Q.
Qed.

(** C3. After every completed turn of a session (the opening turn of a new
    engine, then continuation turns) the history of choices is the list
    of the player's actions so far and the history of descriptions is one
    longer: the opening turn appends one description and no choice, and a
    continuation turn one description and one choice. *)
Theorem descriptions_one_ahead_of_choices (acts : list str) (g : GameEngine) :
  played acts g ->
  history_choices g = acts /\
  length (history_descriptions g) = S (length (history_choices g)).
Proof.
  induction 1 as [c ps pc pz st w r g w' H
                 |acts g u w r g' w' Hp [IHc IHd] H
                 |acts g u w r g' w' Hp [IHc IHd] H].
  - apply start_game_appends in H as [Hd Hc]. simpl in *.
    rewrite Hd, Hc. done.
  - apply go_game_appends in H as [Hd Hc].
    rewrite Hd, Hc, !length_app, IHd, IHc. simpl. split; [done|lia].
  - apply go_game_concluding_keeps in H. unfold histories in H.
    injection H as Hd Hc. rewrite Hd, Hc. done.
Qed.

(** C1 (what the code does). When the first model call of a continuation
    turn gives no text, [go_game] makes no further call: it returns at
    once, having appended the description of the turn before, the
    player's action and a cost entry. *)
Theorem failed_call_commits_turn
    (g g1 : GameEngine) (user_ipt prompt : str) (r : Reply) (w : list Reply) :
  compaction_due g false = false ->
  nonempty user_ipt = true ->
  continue_prompt g user_ipt = Returned prompt ->
  nonempty prompt = true ->
  call_ai g prompt r = (Returned None, g1) ->
  exists g',
    go_game g user_ipt false (r :: w) = Done 0 g' w /\
    history_descriptions g' = history_descriptions g ++ [current_description g] /\
    history_choices g' = history_choices g ++ [user_ipt] /\
    token_consumes g' = token_consumes g ++ [l_p_token g1 + l_c_token g1] /\
    history_simple_summaries g' = history_simple_summaries g.
Proof.
  intros Hdue Hu Hp Hne Hcall.
  unfold Engine.go_game. rewrite Hdue. cbn [bind].
  unfold Engine.go_game_turn, next_call.
  rewrite Hu, Hp, Hne, Hcall. cbn [bind negb].
  eexists. split; [reflexivity|].
  destruct (call_ai_untouched g prompt r) as ([] & Hs & Hd).
  rewrite Hcall in *. simpl in *.
  repeat split; congruence.
Qed.

(** C7 (what the code does). On a response whose repaired value is the
    empty list, [parse_ai_response] takes element 0 of it: the
    [IndexError] is none of the exceptions the method catches and leaves
    it. *)
Theorem parse_empty_list_raises (g : GameEngine) (repaired : str) :
  repair_json (Some (u "[]")) = Returned repaired ->
  json_loads repaired = Some (JList []) ->
  parse_ai_response g (u "[]") = Some (Raised IndexError, g).
Proof.
  intros Hr Hl. unfold Engine.parse_ai_response.
  change (normalize (u "[]")) with (u "[]").
  change (brace_window (u "[]")) with (@None str).
  cbv beta iota. rewrite Hr, Hl. reflexivity.
Qed.

Lemma fmap_drop_last {A B} (f : A -> B) n (l : list A) :
  drop_last n (f <$> l) = f <$> drop_last n l.
Proof. unfold drop_last. by rewrite length_fmap, fmap_take. Qed.

Lemma py_any_small_strings textmin (l : list str) :
  py_any (is_small textmin) (JStr <$> l)
  = Returned (existsb (nonempty_small textmin) l).
Proof.
  induction l as [|s l IH]; simpl; [done|].
  unfold is_small at 1, nonempty_small at 1. simpl.
  destruct (nonempty s); simpl; [|done].
  destruct (PyStr.len s <? textmin); simpl; done.
Qed.

Lemma select_strategy_strings g (ss : list str) :
  history_simple_summaries g = JStr <$> ss ->
  select_strategy g =
    Returned (if existsb (nonempty_small (compressed_summary_textmin g))
                   (drop_last 1 ss)
              then Compression else Dilution).
Proof.
  intros Hs. unfold select_strategy.
  rewrite Hs, fmap_drop_last, py_any_small_strings.
  by destruct (existsb _ _).
Qed.

(** C4 (amended). For summaries that are strings, [conclude_summary]
    takes the dilution strategy exactly when none of the summaries before
    the last is non-empty and shorter than the threshold, and the
    compression strategy exactly when one of them is. *)
Theorem strategy_by_nonempty_small (g : GameEngine) (ss : list str) (w : list Reply) :
  history_simple_summaries g = JStr <$> ss ->
  (select_strategy g = Returned Dilution <->
   forall s, s ∈ drop_last 1 ss ->
             nonempty_small (compressed_summary_textmin g) s = false) /\
  (select_strategy g = Returned Compression <->
   exists s, s ∈ drop_last 1 ss /\
             nonempty_small (compressed_summary_textmin g) s = true) /\
  conclude_summary g w =
    (if existsb (nonempty_small (compressed_summary_textmin g)) (drop_last 1 ss)
     then Engine.compress repair_json json_loads g w
     else Engine.dilute repair_json json_loads g w).
Proof.
  intros Hs. pose proof (select_strategy_strings g ss Hs) as E.
  unfold Engine.conclude_summary. rewrite E.
  destruct (existsb _ _) eqn:Hex.
  - split; [|split; [|done]].
    + split; [done|]. intros Hall.
      apply existsb_exists in Hex as (s & Hin & Hsm).
      apply list_elem_of_In in Hin. rewrite (Hall s Hin) in Hsm. done.
    + split; [|done]. intros _.
      apply existsb_exists in Hex as (s & Hin & Hsm).
      exists s. by rewrite list_elem_of_In.
  - split; [|split; [|done]].
    + split; [|done]. intros _ s Hin.
      destruct (nonempty_small _ s) eqn:Hsm; [|done].
      assert (existsb (nonempty_small (compressed_summary_textmin g))
                (drop_last 1 ss) = true) as Hex'.
      { apply existsb_exists. exists s. by rewrite <- list_elem_of_In. }
      congruence.
    + split; [done|]. intros (s & Hin & Hsm).
      assert (existsb (nonempty_small (compressed_summary_textmin g))
                (drop_last 1 ss) = true) as Hex'.
      { apply existsb_exists. exists s. by rewrite <- list_elem_of_In. }
      congruence.
Qed.

Lemma existsb_none_small textmin (l : list str) :
  (forall s, s ∈ l -> textmin <= PyStr.len s) ->
  existsb (nonempty_small textmin) l = false.
Proof.
  intros Hall. induction l as [|s l IH]; simpl; [done|].
  rewrite IH by (intros s' Hs'; apply Hall; by apply elem_of_cons; right).
  unfold nonempty_small.
  assert (textmin <= PyStr.len s) by (apply Hall; by apply elem_of_cons; left).
  destruct (nonempty s); simpl; [|done].
  rewrite orb_false_r. apply Z.ltb_ge. done.
Qed.


Lemma is_large_spec textmin v b :
  0 < textmin -> is_large textmin v = Returned b -> b = spec_large textmin v.
Proof.
  intros Hpos. unfold is_large, spec_large.
  destruct v as [|c|z|q|[|a s]|[|a l]|[|a d]]; simpl; intros H;
    repeat case_match; simplify_eq/=; try done;
    symmetry; apply Z.leb_gt; unfold PyStr.len; simpl; lia.
Qed.

Lemma py_filter_large textmin l larges :
  0 < textmin ->
  py_filter (is_large textmin) l = Returned larges ->
  larges = List.filter (spec_large textmin) l.
Proof.
  intros Hpos. revert larges.
  induction l as [|v l IH]; intros larges H; simpl in *; [by simplify_eq|].
  destruct (is_large textmin v) as [b|] eqn:Hb; [|done].
  destruct (py_filter (is_large textmin) l) as [rest|]; [|done].
  apply (is_large_spec _ _ _ Hpos) in Hb. rewrite <- Hb.
  rewrite <- (IH rest eq_refl). by simplify_eq.
Qed.


End EngineFacts.

Import Samples.

Lemma failed_parse_keeps_histories_witness :
  Engine.parse_ai_response Decoder.repair Decoder.loads after_opening blank_text
    = Some (Returned false, with_description after_opening (JStr (u "  "))) /\
  history_simple_summaries (with_description after_opening (JStr (u "  ")))
    = history_simple_summaries after_opening /\
  history_descriptions (with_description after_opening (JStr (u "  ")))
    = history_descriptions after_opening /\
  history_choices (with_description after_opening (JStr (u "  ")))
    = history_choices after_opening.
Proof.
  split; [vm_compute; reflexivity|].
  apply (failed_parse_keeps_histories Decoder.repair Decoder.loads
           after_opening _ blank_text).
  vm_compute; reflexivity.
Defined.

Lemma descriptions_one_ahead_of_choices_witness :
  EngineSpec.played Decoder.repair Decoder.loads [open_the_door] after_door /\
  history_choices after_door = [open_the_door] /\
  length (history_descriptions after_door) = S (length (history_choices after_door)).
Proof.
  assert (EngineSpec.played Decoder.repair Decoder.loads [open_the_door] after_door) as H.
  { apply (played_continue _ _ [] after_opening open_the_door [door_reply] 0 after_door []).
    - apply (played_opening _ _ config PromptManager.empty PromptManager.empty
               PromptManager.empty [] [opening_reply] () after_opening []).
      vm_compute; reflexivity.
    - vm_compute; reflexivity. }
  split; [exact H|].
  exact (descriptions_one_ahead_of_choices Decoder.repair Decoder.loads _ _ H).
Defined.

Lemma failed_call_commits_turn_witness :
  exists g',
    Engine.go_game Decoder.repair Decoder.loads after_opening open_the_door false
      [APITimeoutError] = Done 0 g' [] /\
    history_descriptions g' =
      history_descriptions after_opening ++ [current_description after_opening] /\
    history_choices g' = history_choices after_opening ++ [open_the_door] /\
    token_consumes g' =
      token_consumes after_opening
        ++ [l_p_token after_opening + l_c_token after_opening] /\
    history_simple_summaries g' = history_simple_summaries after_opening.
Proof.
  apply (failed_call_commits_turn Decoder.repair Decoder.loads
           after_opening after_opening open_the_door door_prompt
           APITimeoutError []); vm_compute; reflexivity.
Defined.

Lemma parse_empty_list_raises_witness :
  Engine.parse_ai_response Decoder.repair Decoder.loads after_opening (u "[]")
    = Some (Raised IndexError, after_opening).
Proof.
  apply (parse_empty_list_raises Decoder.repair Decoder.loads after_opening (u "[]"));
    vm_compute; reflexivity.
Defined.

Lemma strategy_by_nonempty_small_witness :
  history_simple_summaries mixed =
    JStr <$> [u "Woke on a beach."; large_text; u "Opened the door."; large_text] /\
  select_strategy mixed = Returned Compression /\
  Engine.conclude_summary Decoder.repair Decoder.loads mixed [digest_reply]
    = Engine.compress Decoder.repair Decoder.loads mixed [digest_reply].
Proof.
  split; [reflexivity|].
  pose proof (strategy_by_nonempty_small Decoder.repair Decoder.loads mixed
                [u "Woke on a beach."; large_text; u "Opened the door."; large_text]
                [digest_reply] eq_refl) as (_ & [_ Hc] & Hrun).
  split.
  - apply Hc. exists (u "Woke on a beach."). split; [|vm_compute; reflexivity].
    vm_compute. apply list_elem_of_here.
  - rewrite Hrun. set (b := existsb _ _).
    assert (b = true) as -> by (vm_compute; reflexivity). reflexivity.
Defined.

(** A blank summary is shorter than the threshold, yet the test of
    [conclude_summary] passes it over: with a blank summary among
    otherwise raw ones the dilution strategy is taken. *)
Lemma blank_summary_selects_dilution :
  ~ (forall (g : GameEngine) (ss : list str),
       history_simple_summaries g = JStr <$> ss ->
       summary_conclude_val g < Z.of_nat (length ss) ->
       conclude_summary_cooldown g < 1 ->
       strategy_by_length g ss).
Proof.
  intros H.
  destruct (H crowded_blank blank_first) as [[Hd _] _].
  - reflexivity.
  - vm_compute; reflexivity.
  - vm_compute; reflexivity.
  - assert (select_strategy crowded_blank = Returned Dilution) as Hsel
      by (vm_compute; reflexivity).
    specialize (Hd Hsel [] ltac:(vm_compute; apply list_elem_of_here)).
    vm_compute in Hd. discriminate Hd.
Qed.



End EngineFacts.

(** ** Save retention *)

Module SavesFacts.
Import Saves SavesSpec.

(** *** The order of strings *)

Lemma ltb_irrefl a : ltb a a = false.
Proof.
  induction a as [|x a IH]; simpl; [done|].
  by rewrite N.ltb_irrefl.
Qed.

Lemma ltb_trans a b c : ltb a b = true -> ltb b c = true -> ltb a c = true.
Proof.
  revert b c. induction a as [|x a IH]; intros [|y b] [|z c]; simpl; try done.
  destruct (N.ltb_spec x y), (N.ltb_spec y x), (N.ltb_spec y z),
    (N.ltb_spec z y), (N.ltb_spec x z), (N.ltb_spec z x);
    try done; try lia.
  apply IH.
Qed.

Lemma ltb_total a b : ltb a b = false -> ltb b a = false -> a = b.
Proof.
  revert b. induction a as [|x a IH]; intros [|y b]; simpl; try done.
  destruct (N.ltb_spec x y), (N.ltb_spec y x); try done; try lia.
  intros H1 H2. assert (x = y) as -> by lia. f_equal. by apply IH.
Qed.

Lemma ltb_asym a b : ltb a b = true -> ltb b a = false.
Proof.
  intros H. destruct (ltb b a) eqn:E; [|done].
  pose proof (ltb_trans _ _ _ H E) as C. by rewrite ltb_irrefl in C.
Qed.

(** If [a] is below [c], any [b] is above [a] or below [c]. *)
Lemma ltb_between a b c :
  ltb a c = true -> ltb a b = true \/ ltb b c = true.
Proof.
  intros Hac. destruct (ltb a b) eqn:Hab; [by left|right].
  destruct (ltb b a) eqn:Hba.
  - by eapply ltb_trans.
  - by rewrite <- (ltb_total _ _ Hab Hba).
Qed.

Lemma ltb_app_prefix p a b : ltb (p ++ a) (p ++ b) = ltb a b.
Proof.
  induction p as [|x p IH]; simpl; [done|]. by rewrite N.ltb_irrefl.
Qed.

(** Texts that start with different words of one length compare as the
    words do. *)
Lemma ltb_app_differ a b x y :
  length a = length b -> a <> b -> ltb (a ++ x) (b ++ y) = ltb a b.
Proof.
  revert b. induction a as [|c a IH]; intros [|d b] Hlen Hne; simpl in *;
    try done.
  destruct (N.ltb_spec c d), (N.ltb_spec d c); try done.
  assert (c = d) as -> by lia.
  apply IH; [lia|congruence].
Qed.

(** *** Decimal digits *)

Lemma length_decimal w n : length (decimal w n) = w.
Proof.
  revert n. induction w as [|w IH]; intros n; simpl; [done|].
  rewrite length_app, IH. simpl. lia.
Qed.

Lemma decimal_digits w n c :
  c ∈ decimal w n -> (48 <= c <= 57)%N.
Proof.
  revert n. induction w as [|w IH]; intros n; simpl.
  - intros H. by apply not_elem_of_nil in H.
  - rewrite elem_of_app, list_elem_of_singleton. intros [H| ->]; [eauto|].
    pose proof (N.mod_upper_bound n 10 ltac:(lia)) as Hr.
    revert Hr. generalize (n mod 10)%N. intros r Hr. lia.
Qed.

Lemma ltb_snoc_eqlen a b x y :
  length a = length b ->
  ltb (a ++ [x]) (b ++ [y]) =
    if decide (a = b) then N.ltb x y else ltb a b.
Proof.
  intros Hlen. case_decide as E.
  - subst. rewrite ltb_app_prefix. simpl.
    destruct (N.ltb x y); [done|]. by destruct (N.ltb y x).
  - by apply ltb_app_differ.
Qed.

Lemma div10_bound w n :
  (n < 10 ^ N.of_nat (S w))%N -> (n / 10 < 10 ^ N.of_nat w)%N.
Proof.
  rewrite Nat2N.inj_succ, N.pow_succ_r'. intros H.
  apply N.Div0.div_lt_upper_bound. lia.
Qed.

(** A number is its last digit and the number before it. *)
Lemma split_last_digit n :
  exists q r, (n = 10 * q + r /\ r < 10 /\ n / 10 = q /\ n mod 10 = r)%N.
Proof.
  exists (n / 10)%N, (n mod 10)%N. split; [apply N.div_mod'|].
  split; [apply N.mod_upper_bound; lia|done].
Qed.

Lemma decimal_inj w n m :
  (n < 10 ^ N.of_nat w)%N -> (m < 10 ^ N.of_nat w)%N ->
  decimal w n = decimal w m -> n = m.
Proof.
  revert n m. induction w as [|w IH]; intros n m Hn Hm H.
  - simpl in *. lia.
  - simpl in H. apply app_inj_tail in H as [H1 H2].
    apply IH in H1; [|by apply div10_bound..].
    destruct (split_last_digit n) as (q & r & -> & Hr & Eq & Er).
    destruct (split_last_digit m) as (q' & r' & -> & Hr' & Eq' & Er').
    rewrite Eq, Eq' in H1. rewrite Er, Er' in H2. simplify_eq. lia.
Qed.

Lemma decimal_ltb w n m :
  (n < 10 ^ N.of_nat w)%N -> (m < 10 ^ N.of_nat w)%N ->
  ltb (decimal w n) (decimal w m) = N.ltb n m.
Proof.
  revert n m. induction w as [|w IH]; intros n m Hn Hm.
  - simpl in *. symmetry. apply N.ltb_ge. lia.
  - simpl. rewrite ltb_snoc_eqlen by by rewrite !length_decimal.
    pose proof (div10_bound _ _ Hn) as Hn'.
    pose proof (div10_bound _ _ Hm) as Hm'.
    case_decide as E.
    + apply decimal_inj in E; [|done..].
      destruct (split_last_digit n) as (q & r & -> & Hr & Eq & Er).
      destruct (split_last_digit m) as (q' & r' & -> & Hr' & Eq' & Er').
      rewrite Eq, Eq' in E. rewrite Er, Er'. subst q'.
      destruct (N.ltb_spec (10 * q + r) (10 * q + r')),
        (N.ltb_spec (48 + r) (48 + r')); try done; lia.
    + rewrite IH by done.
      assert (n / 10 <> m / 10)%N as Hq by congruence.
      destruct (split_last_digit n) as (q & r & -> & Hr & Eq & Er).
      destruct (split_last_digit m) as (q' & r' & -> & Hr' & Eq' & Er').
      rewrite Eq, Eq' in *.
      destruct (N.ltb_spec (10 * q + r) (10 * q' + r')),
        (N.ltb_spec q q'); try done; lia.
Qed.

(** *** File names *)

Lemma starts_with_app p s : starts_with p (p ++ s) = true.
Proof. induction p as [|c p IH]; simpl; [done|]. by rewrite N.eqb_refl. Qed.

Lemma ends_with_app p s : ends_with p (s ++ p) = true.
Proof. unfold ends_with. rewrite rev_app_distr. apply starts_with_app. Qed.

Lemma starts_with_app_both e p s :
  starts_with (e ++ p) (e ++ s) = starts_with p s.
Proof. induction e as [|c e IH]; simpl; [done|]. by rewrite N.eqb_refl. Qed.

Lemma ends_with_app_both e p s :
  ends_with (p ++ e) (s ++ e) = ends_with p s.
Proof. unfold ends_with. rewrite !rev_app_distr. apply starts_with_app_both. Qed.

Lemma ends_with_last_differs p c s d :
  c <> d -> ends_with (p ++ [c]) (s ++ [d]) = false.
Proof.
  intros Hne. unfold ends_with. rewrite !rev_app_distr. simpl.
  apply andb_false_iff. left. by apply N.eqb_neq.
Qed.

Lemma replace_go_skip_clean old' c0 new s rest :
  c0 ∉ s ->
  replace_go (c0 :: old') new 0 (s ++ rest)
  = s ++ replace_go (c0 :: old') new 0 rest.
Proof.
  induction s as [|c s IH]; intros Hnot; [done|].
  apply not_elem_of_cons in Hnot as [Hc Hs].
  change ((c :: s) ++ rest) with (c :: (s ++ rest)).
  cbn [replace_go starts_with].
  assert (N.eqb c0 c = false) as -> by (apply N.eqb_neq; congruence).
  simpl. by rewrite IH.
Qed.

Lemma split_go_clean c s cur :
  c ∉ s -> split_go c s cur = [rev cur ++ s].
Proof.
  revert cur. induction s as [|x s IH]; intros cur Hnot; simpl.
  - by rewrite app_nil_r.
  - apply not_elem_of_cons in Hnot as [Hc Hs].
    assert (N.eqb x c = false) as -> by (apply N.eqb_neq; congruence).
    rewrite IH by done. simpl. by rewrite <- app_assoc.
Qed.

Lemma split_go_app c s rest cur :
  c ∉ s ->
  split_go c (s ++ c :: rest) cur = (rev cur ++ s) :: split_go c rest [].
Proof.
  revert cur. induction s as [|x s IH]; intros cur Hnot; simpl.
  - by rewrite N.eqb_refl, app_nil_r.
  - apply not_elem_of_cons in Hnot as [Hc Hs].
    assert (N.eqb x c = false) as -> by (apply N.eqb_neq; congruence).
    rewrite IH by done. simpl. by rewrite <- app_assoc.
Qed.

Lemma decimal_lacks w n c : (c < 48 \/ 57 < c)%N -> c ∉ decimal w n.
Proof. intros Hc Hin. apply decimal_digits in Hin. lia. Qed.

Section Names.
Variable char_isdigit : char -> bool.

(** For the name of an autosave no part between underscores is 15 long,
    so the key it is sorted by is the whole name. *)
Lemma timestamp_of_autosave t :
  get_file_timestamp char_isdigit (autosave_name t) = autosave_name t.
Proof.
  unfold get_file_timestamp, autosave_name, save_file_name, strftime, autosave.
  set (D := decimal 8 (date t)). set (T := decimal 6 (time t)).
  assert ((46%N ∉ D) /\ (46%N ∉ T) /\ (95%N ∉ D) /\ (95%N ∉ T)) as (HD & HT & HD' & HT')
    by (repeat split; apply decimal_lacks; lia).
  assert (length D = 8%nat /\ length T = 6%nat) as [LD LT]
    by (split; apply length_decimal).
  clearbody D T.
  replace (u "autosave" ++ u "_" ++ (D ++ u "_" ++ T) ++ u ".json.gz")
    with ((u "autosave_" ++ D ++ u "_" ++ T) ++ u ".json.gz")
    by (rewrite <- !app_assoc; reflexivity).
  assert (46%N ∉ u "autosave_" ++ D ++ u "_" ++ T) as Hdot.
  { rewrite !elem_of_app. intros [H|[H|[H|H]]]; try done.
    - vm_compute in H. by repeat (apply elem_of_cons in H as [H|H]; [done|]);
        apply not_elem_of_nil in H.
    - vm_compute in H. apply elem_of_cons in H as [H|H]; [done|].
      by apply not_elem_of_nil in H. }
  unfold replace.
  change (u ".json") with (46%N :: u "json").
  rewrite replace_go_skip_clean by done.
  change (replace_go (46%N :: u "json") [] 0 (u ".json.gz")) with (u ".gz").
  change (u ".gz") with (46%N :: u "gz").
  rewrite replace_go_skip_clean by done.
  change (replace_go (46%N :: u "gz") [] 0 (46%N :: u "gz")) with (@nil N).
  rewrite app_nil_r.
  replace (u "autosave_" ++ D ++ u "_" ++ T)
    with (u "autosave" ++ 95%N :: (D ++ 95%N :: T)) by reflexivity.
  unfold split.
  rewrite split_go_app by (vm_compute; intros H;
    by repeat (apply elem_of_cons in H as [H|H]; [done|]);
       apply not_elem_of_nil in H).
  rewrite split_go_app by done.
  rewrite split_go_clean by done.
  cbn [List.find rev app]. unfold is_stamp_part at 1. cbn.
  unfold is_stamp_part. rewrite LD, LT. done.
Qed.

Lemma autosave_is_candidate t :
  is_auto_save_file autosave (autosave_name t) = true.
Proof.
  unfold is_auto_save_file, autosave_name, save_file_name, autosave.
  rewrite starts_with_app.
  replace (u "autosave" ++ u "_" ++ strftime t ++ u ".json.gz")
    with ((u "autosave_" ++ strftime t) ++ u ".json.gz")
    by (rewrite <- !app_assoc; reflexivity).
  rewrite (ends_with_app (u ".json.gz")).
  change (u "_latest.json.gz") with (u "_latest" ++ u ".json.gz").
  rewrite ends_with_app_both.
  unfold strftime. change (decimal 6 (time t))
    with (decimal 5 (time t / 10) ++ [(48 + time t mod 10)%N]).
  rewrite !app_assoc.
  change (u "_latest") with (u "_lates" ++ [116%N]).
  rewrite ends_with_last_differs.
  2: { pose proof (N.mod_upper_bound (time t) 10 ltac:(lia)) as Hr.
       revert Hr. generalize (time t mod 10)%N. intros r Hr. lia. }
  rewrite <- !app_assoc.
  unfold ends_with at 1. rewrite !rev_app_distr. simpl. done.
Qed.

Lemma manual_not_candidate save_name name t :
  is_auto_save_file save_name (manual_name name t) = false.
Proof.
  unfold is_auto_save_file, manual_name, save_file_name.
  rewrite (starts_with_app (u "manual_")). simpl.
  by rewrite andb_false_r.
Qed.

Lemma latest_not_candidate save_name name :
  is_auto_save_file save_name (latest_file_name name) = false.
Proof.
  unfold is_auto_save_file, latest_file_name.
  rewrite (ends_with_app (u "_latest.json.gz")). simpl.
  by rewrite andb_false_r.
Qed.

Lemma manual_prefix_not_candidate save_name f :
  starts_with (u "manual_") f = true -> is_auto_save_file save_name f = false.
Proof.
  intros H. unfold is_auto_save_file. rewrite H. simpl.
  by rewrite andb_false_r.
Qed.

End Names.

(** The names of autosaves compare as their times do. *)
Lemma autosave_name_ltb a b :
  moment_ok a = true -> moment_ok b = true ->
  ltb (autosave_name a) (autosave_name b) = true <-> before a b.
Proof.
  unfold moment_ok, before. intros Ha Hb.
  apply andb_prop in Ha as [Ha1 Ha2]. apply andb_prop in Hb as [Hb1 Hb2].
  apply N.ltb_lt in Ha1, Ha2, Hb1, Hb2.
  unfold autosave_name, save_file_name, strftime.
  rewrite !ltb_app_prefix, <- !app_assoc.
  destruct (decide (decimal 8 (date a) = decimal 8 (date b))) as [E|E].
  - rewrite E, !ltb_app_prefix.
    apply decimal_inj in E; [|done..].
    destruct (decide (decimal 6 (time a) = decimal 6 (time b))) as [E'|E'].
    + rewrite E', ltb_irrefl. apply decimal_inj in E'; [|done..]. split; [done|lia].
    + rewrite ltb_app_differ by (by rewrite ?length_decimal).
      rewrite decimal_ltb by done. rewrite N.ltb_lt.
      split; [by right|lia].
  - rewrite ltb_app_differ by (by rewrite ?length_decimal).
    rewrite decimal_ltb by done. rewrite N.ltb_lt.
    split; [by left|]. intros [H|[H _]]; [done|]. by rewrite H in E.
Qed.

(** *** Sorting by key *)

Section Sorting.
Variable key : str -> str.
Local Abbreviation key_le := (SavesSpec.key_le key).

Lemma insert_by_key_perm x l : insert_by_key key x l ≡ₚ x :: l.
Proof.
  induction l as [|y l IH]; simpl; [done|].
  destruct (ltb (key y) (key x)); [|done].
  rewrite IH. apply perm_swap.
Qed.

Lemma sort_by_key_perm l : sort_by_key key l ≡ₚ l.
Proof.
  induction l as [|x l IH]; simpl; [done|].
  rewrite insert_by_key_perm. by constructor.
Qed.

Lemma key_le_trans_lt x y z :
  key_le x y -> key_le y z -> key_le x z.
Proof.
  unfold SavesSpec.key_le. intros Hxy Hyz.
  destruct (ltb (key z) (key x)) eqn:E; [|done].
  destruct (ltb_between _ (key y) _ E); congruence.
Qed.

Lemma insert_by_key_sorted x l :
  StronglySorted key_le l -> StronglySorted key_le (insert_by_key key x l).
Proof.
  induction 1 as [|y l Hs IH Hy]; simpl.
  - repeat constructor.
  - destruct (ltb (key y) (key x)) eqn:E.
    + constructor; [done|].
      rewrite insert_by_key_perm. constructor; [|done].
      unfold SavesSpec.key_le. by apply ltb_asym.
    + constructor; [by constructor|].
      constructor; [done|].
      eapply Forall_impl; [exact Hy|]. intros z Hz.
      by apply (key_le_trans_lt x y z).
Qed.

Lemma sort_by_key_sorted l : StronglySorted key_le (sort_by_key key l).
Proof.
  induction l as [|x l IH]; simpl; [constructor|].
  by apply insert_by_key_sorted.
Qed.

End Sorting.

(** *** Retention *)

Section RetentionFacts.
Variable char_isdigit : char -> bool.
Variable listdir : directory -> list str.

(** Whatever its order, a listing has the names of the directory, each
    once. *)
Hypothesis listdir_perm : forall dir, listdir dir ≡ₚ dir.

Local Abbreviation manage_auto_saves := (Saves.manage_auto_saves char_isdigit listdir).
Local Abbreviation files_to_delete := (Saves.files_to_delete char_isdigit listdir).
Local Abbreviation apply_event := (Saves.apply_event char_isdigit listdir).
Local Abbreviation run_saves := (Saves.run_saves char_isdigit listdir).
Local Abbreviation key := (get_file_timestamp char_isdigit).
Local Abbreviation written := (SavesSpec.written char_isdigit listdir).
Local Abbreviation well_named := SavesSpec.well_named.

Lemma filter_length_perm (p : str -> bool) l l' :
  l ≡ₚ l' -> length (List.filter p l) = length (List.filter p l').
Proof.
  induction 1 as [|x l l' _ IH|x y l|l1 l2 l3 _ IH1 _ IH2]; simpl.
  - done.
  - destruct (p x); simpl; by rewrite IH.
  - by destruct (p x), (p y).
  - by rewrite IH1.
Qed.

Lemma elem_of_filter_bool (p : str -> bool) l x :
  x ∈ List.filter p l <-> x ∈ l /\ p x = true.
Proof. rewrite !list_elem_of_In. apply filter_In. Qed.

Lemma NoDup_filter_bool (p : str -> bool) l :
  NoDup l -> NoDup (List.filter p l).
Proof. rewrite !NoDup_ListNoDup. apply List.NoDup_filter. Qed.

Lemma elem_of_remove_files dir gone f :
  f ∈ remove_files dir gone <-> f ∈ dir /\ f ∉ gone.
Proof.
  unfold remove_files. rewrite elem_of_filter_bool, negb_true_iff.
  by rewrite bool_decide_eq_false.
Qed.

Lemma elem_of_write_file dir name f :
  f ∈ write_file dir name <-> f ∈ dir \/ f = name.
Proof.
  unfold write_file. case_bool_decide as H.
  - split; [by left|]. by intros [?| ->].
  - rewrite elem_of_app, list_elem_of_singleton. done.
Qed.

Lemma NoDup_write_file dir name : NoDup dir -> NoDup (write_file dir name).
Proof.
  intros Hd. unfold write_file. case_bool_decide as H; [done|].
  apply NoDup_app. split; [done|]. split; [|apply NoDup_singleton].
  intros x Hx Hx'. apply list_elem_of_singleton in Hx'. by subst.
Qed.

Lemma files_to_delete_candidates dir save_name f :
  f ∈ files_to_delete dir save_name ->
  f ∈ dir /\ is_auto_save_file save_name f = true.
Proof.
  unfold Saves.files_to_delete.
  destruct (5 <? length _)%nat; [|by intros H; apply not_elem_of_nil in H].
  unfold Engine.drop_last. intros H.
  apply (subseteq_take _ _) in H.
  rewrite sort_by_key_perm in H. apply elem_of_filter_bool in H as [H ?].
  by rewrite listdir_perm in H.
Qed.

(** Retention removes nothing but files that pass its filter. *)
Lemma manage_keeps_others dir save_name f :
  f ∈ dir -> is_auto_save_file save_name f = false ->
  f ∈ manage_auto_saves dir save_name.
Proof.
  intros Hin Hf. apply elem_of_remove_files. split; [done|].
  intros H. apply files_to_delete_candidates in H as [_ H]. congruence.
Qed.

Lemma manage_subset dir save_name f :
  f ∈ manage_auto_saves dir save_name -> f ∈ dir.
Proof. intros H. by apply elem_of_remove_files in H as [H _]. Qed.

Lemma manage_few dir save_name :
  (length (auto_save_files dir save_name) <= 5)%nat ->
  manage_auto_saves dir save_name = dir.
Proof.
  intros H. unfold Saves.manage_auto_saves, Saves.files_to_delete.
  assert ((5 <? length (auto_save_files (listdir dir) save_name))%nat = false)
    as ->.
  { apply Nat.ltb_ge. unfold auto_save_files in *.
    by rewrite (filter_length_perm _ _ _ (listdir_perm dir)). }
  unfold remove_files. apply forallb_filter_id, forallb_forall.
  intros x _. apply negb_true_iff, bool_decide_eq_false, not_elem_of_nil.
Qed.

Section Crowded.
Variable dir : directory.
Hypothesis dir_nodup : NoDup dir.
Hypothesis crowded :
  (5 < length (auto_save_files dir autosave))%nat.

Local Abbreviation cands := (auto_save_files (listdir dir) autosave).
Local Abbreviation sorted := (sort_by_key key cands).
Local Abbreviation k := (length sorted - 5)%nat.

Lemma deleted_is_front : files_to_delete dir autosave = take k sorted.
Proof.
  unfold Saves.files_to_delete.
  assert ((5 <? length cands)%nat = true) as ->.
  { apply Nat.ltb_lt. unfold auto_save_files in *.
    by rewrite (filter_length_perm _ _ _ (listdir_perm dir)). }
  done.
Qed.

Lemma sorted_nodup : NoDup sorted.
Proof.
  rewrite sort_by_key_perm. unfold auto_save_files.
  apply NoDup_filter_bool. by rewrite listdir_perm.
Qed.

Lemma sorted_length :
  length sorted = length (auto_save_files dir autosave).
Proof.
  rewrite sort_by_key_perm. unfold auto_save_files.
  apply filter_length_perm, listdir_perm.
Qed.

Lemma front_back_disjoint x : x ∈ take k sorted -> x ∈ drop k sorted -> False.
Proof.
  pose proof sorted_nodup as H. rewrite <- (take_drop k sorted) in H.
  apply NoDup_app in H as (_ & H & _). apply H.
Qed.

Lemma kept_candidates_are_back x :
  x ∈ auto_save_files (manage_auto_saves dir autosave) autosave
  <-> x ∈ drop k sorted.
Proof.
  unfold auto_save_files at 1, Saves.manage_auto_saves.
  rewrite elem_of_filter_bool, elem_of_remove_files, deleted_is_front.
  assert (x ∈ sorted <-> x ∈ dir /\ is_auto_save_file autosave x = true) as Hs.
  { rewrite sort_by_key_perm. unfold auto_save_files.
    by rewrite elem_of_filter_bool, listdir_perm. }
  split.
  - intros [[Hd Hn] Ha].
    assert (x ∈ sorted) as Hx by by apply Hs.
    rewrite <- (take_drop k sorted), elem_of_app in Hx. by destruct Hx.
  - intros Hx.
    assert (x ∈ sorted) as Hx' by by apply (subseteq_drop k sorted).
    apply Hs in Hx' as [Hd Ha]. repeat split; try done.
    intros Hf. by eapply front_back_disjoint.
Qed.

Lemma five_remain :
  length (auto_save_files (manage_auto_saves dir autosave) autosave) = 5%nat.
Proof.
  assert (auto_save_files (manage_auto_saves dir autosave) autosave
          ≡ₚ drop k sorted) as ->.
  { apply NoDup_Permutation.
    - unfold auto_save_files, Saves.manage_auto_saves, remove_files.
      by do 2 apply NoDup_filter_bool.
    - pose proof sorted_nodup as H. rewrite <- (take_drop k sorted) in H.
      by apply NoDup_app in H as (_ & _ & H).
    - apply kept_candidates_are_back. }
  rewrite length_drop. pose proof sorted_length as E.
  pose proof crowded as C. lia.
Qed.

Lemma deleted_older a b :
  moment_ok a = true -> moment_ok b = true ->
  autosave_name a ∈ manage_auto_saves dir autosave ->
  autosave_name b ∈ dir ->
  autosave_name b ∉ manage_auto_saves dir autosave ->
  before b a.
Proof.
  intros Ha Hb Hkept Hin Hgone.
  assert (autosave_name b ∈ take k sorted) as Hfront.
  { rewrite <- deleted_is_front.
    destruct (decide (autosave_name b ∈ files_to_delete dir autosave)); [done|].
    exfalso. apply Hgone. by apply elem_of_remove_files. }
  assert (autosave_name a ∈ drop k sorted) as Hback.
  { apply kept_candidates_are_back, elem_of_filter_bool.
    split; [done|apply autosave_is_candidate]. }
  pose proof (sort_by_key_sorted key cands) as Hs.
  rewrite <- (take_drop k sorted) in Hs.
  pose proof (StronglySorted_app_1_elem_of _ _ _ _ _ Hs Hfront Hback) as Hle.
  unfold SavesSpec.key_le in Hle. rewrite !timestamp_of_autosave in Hle.
  apply autosave_name_ltb; [done..|].
  destruct (ltb (autosave_name b) (autosave_name a)) eqn:E; [done|].
  exfalso. pose proof (ltb_total _ _ E Hle) as Heq.
  rewrite Heq in Hfront. by eapply front_back_disjoint.
Qed.

End Crowded.

Lemma save_game_inv dir save_name timestamp manual :
  NoDup dir ->
  NoDup (Saves.save_game char_isdigit listdir dir save_name timestamp manual).
Proof.
  intros Hd. unfold Saves.save_game.
  destruct manual; [by do 2 apply NoDup_write_file|].
  unfold Saves.manage_auto_saves, remove_files.
  by apply NoDup_filter_bool; do 2 apply NoDup_write_file.
Qed.

Lemma apply_event_named dir e :
  event_ok e = true -> well_named dir ->
  well_named (apply_event dir e).
Proof.
  intros Hok Hd f Hf Hauto.
  destruct e as [t|name t]; unfold Saves.apply_event in Hf.
  - apply manage_subset in Hf.
    apply elem_of_write_file in Hf as [Hf| ->].
    2: by rewrite latest_not_candidate in Hauto.
    apply elem_of_write_file in Hf as [Hf| ->]; [by apply Hd|].
    by exists t.
  - unfold Saves.save_game in Hf.
    apply elem_of_write_file in Hf as [Hf| ->].
    2: by rewrite latest_not_candidate in Hauto.
    apply elem_of_write_file in Hf as [Hf| ->]; [by apply Hd|].
    fold (manual_name name t) in Hauto.
    by rewrite manual_not_candidate in Hauto.
Qed.

Lemma fold_saves_inv events dir :
  forallb event_ok events = true -> NoDup dir -> well_named dir ->
  NoDup (fold_left apply_event events dir) /\
  well_named (fold_left apply_event events dir).
Proof.
  revert dir. induction events as [|e events IH]; intros dir Hok Hd Hn; simpl.
  - done.
  - simpl in Hok. apply andb_prop in Hok as [He Hok].
    apply IH; [done| |by apply apply_event_named].
    destruct e; by apply save_game_inv.
Qed.

Lemma run_saves_inv events :
  forallb event_ok events = true ->
  NoDup (run_saves events) /\ well_named (run_saves events).
Proof.
  intros Hok. apply fold_saves_inv; [done|constructor|].
  intros f Hf. by apply not_elem_of_nil in Hf.
Qed.

(** A manual save, once in the directory, is in it after every later
    save. *)
Lemma manual_stays name t dir later :
  manual_name name t ∈ dir ->
  manual_name name t ∈ fold_left apply_event later dir.
Proof.
  revert dir. induction later as [|e later IH]; intros dir Hin; simpl; [done|].
  apply IH. destruct e as [t'|name' t']; simpl; unfold Saves.save_game.
  - apply manage_keeps_others; [|apply manual_not_candidate].
    apply elem_of_write_file; left. apply elem_of_write_file; by left.
  - apply elem_of_write_file; left. apply elem_of_write_file; by left.
Qed.


End RetentionFacts.


End SavesFacts.

(** ** More of the prompt composer *)

Module PromptManagerMoreFacts.
Import PromptManager PromptSpec PromptManagerFacts PromptManagerMore.

Lemma wl_update m s frags order :
  well_listed m -> listed frags order ->
  well_listed (mk (upd (sections m) s frags) (upd (section_orders m) s order)).
Proof.
  intros Hm Hs s'. simpl. destruct (decide (s' = s)) as [->|Hne].
  - by rewrite !upd_same.
  - rewrite !upd_other by done. apply Hm.
Qed.

Lemma wl_update_frags m s frags :
  well_listed m -> listed frags (section_orders m s) ->
  well_listed (mk (upd (sections m) s frags) (section_orders m)).
Proof.
  intros Hm Hs s'. simpl. destruct (decide (s' = s)) as [->|Hne].
  - by rewrite upd_same.
  - rewrite upd_other by done. apply Hm.
Qed.

Lemma wl_update_order m s order :
  well_listed m -> listed (sections m s) order ->
  well_listed (mk (sections m) (upd (section_orders m) s order)).
Proof.
  intros Hm Hs s'. simpl. destruct (decide (s' = s)) as [->|Hne].
  - by rewrite upd_same.
  - rewrite upd_other by done. apply Hm.
Qed.

Lemma insert_at_perm i (x : str) l : insert_at i x l ≡ₚ x :: l.
Proof.
  unfold insert_at. rewrite <- Permutation_middle.
  by rewrite take_drop.
Qed.

Lemma remove_first_perm x (l l' : list str) :
  remove_first x l = Some l' -> l ≡ₚ x :: l'.
Proof.
  revert l'. induction l as [|y l IH]; intros l' H; simpl in H; [done|].
  case_decide; [by simplify_eq|].
  destruct (remove_first x l) as [l0|] eqn:E; simplify_eq/=.
  rewrite (IH l0 eq_refl). apply perm_swap.
Qed.

Lemma remove_first_is_Some x (l : list str) :
  x ∈ l -> is_Some (remove_first x l).
Proof.
  induction l as [|y l IH]; intros H; [by apply not_elem_of_nil in H|].
  simpl. case_decide; [done|].
  apply elem_of_cons in H as [?|H]; [congruence|].
  destruct (IH H) as [l' ->]. done.
Qed.

Lemma remove_first_None x (l : list str) :
  x ∉ l -> remove_first x l = None.
Proof.
  induction l as [|y l IH]; intros H; [done|].
  apply not_elem_of_cons in H as [? H]. simpl.
  case_decide; [congruence|]. by rewrite IH.
Qed.

Lemma index_is_Some_elem x (l : list str) :
  x ∈ l -> is_Some (index x l).
Proof.
  induction l as [|y l IH]; intros H; [by apply not_elem_of_nil in H|].
  simpl. case_decide; [done|].
  apply elem_of_cons in H as [?|H]; [congruence|].
  destruct (IH H) as [i ->]. done.
Qed.

Lemma index_None x (l : list str) : x ∉ l -> index x l = None.
Proof.
  induction l as [|y l IH]; intros H; [done|].
  apply not_elem_of_cons in H as [? H]. simpl.
  case_decide; [congruence|]. by rewrite IH.
Qed.

(** Where [index] finds [x], the list splits around it. *)
Lemma index_split x (l : list str) i :
  index x l = Some i ->
  take i l ++ x :: drop (S i) l = l /\ (x ∉ take i l) /\ length (take i l) = i.
Proof.
  revert i. induction l as [|y l IH]; intros i H; simpl in H; [done|].
  case_decide.
  - simplify_eq. simpl. rewrite drop_0. split; [done|]. split; [apply not_elem_of_nil|done].
  - destruct (index x l) as [j|] eqn:E; simplify_eq/=.
    destruct (IH j eq_refl) as (E1 & E2 & E3). rewrite E1, E3.
    split; [done|]. split; [|done].
    apply not_elem_of_cons. split; [congruence|done].
Qed.

Lemma wl_empty : well_listed empty.
Proof.
  intros s. split; [constructor|]. split; simpl.
  - intros k H. by apply not_elem_of_nil in H.
  - intros k f H. by rewrite lookup_empty in H.
Qed.

Lemma wl_load_init_one m sc : well_listed m -> well_listed (load_init_one m sc).
Proof.
  intros Hm. destruct sc as [s c]. unfold load_init_one.
  destruct (Hm s) as (Hn & Hl & Hk).
  apply wl_update; [done|]. split; [apply NoDup_singleton|]. split.
  - intros k Hin. apply list_elem_of_singleton in Hin as ->.
    rewrite lookup_insert_eq. done.
  - intros k f H. destruct (decide (k = system_id)) as [->|Hne].
    + rewrite lookup_insert_eq in H. by simplify_eq.
    + rewrite lookup_insert_ne in H by done. eauto.
Qed.

Lemma wl_load_init m cs : well_listed m -> well_listed (load_init_sections m cs).
Proof.
  unfold load_init_sections. revert m.
  induction cs as [|sc cs IH]; intros m Hm; simpl; [done|].
  apply IH. by apply wl_load_init_one.
Qed.

Lemma listed_insert_same (frags : gmap str PromptFragment) order k f f' :
  listed frags order -> frags !! k = Some f -> module_id f' = k ->
  listed (<[k := f']> frags) order.
Proof.
  intros (Hn & Hl & Hk) Hf Hid. split; [done|]. split.
  - intros k' Hin. destruct (decide (k' = k)) as [->|Hne].
    + by rewrite lookup_insert_eq.
    + rewrite lookup_insert_ne by done. eauto.
  - intros k' f0 H. destruct (decide (k' = k)) as [->|Hne].
    + rewrite lookup_insert_eq in H. by simplify_eq.
    + rewrite lookup_insert_ne in H by done. eauto.
Qed.

Lemma listed_insert_new (frags : gmap str PromptFragment) order order' k f :
  listed frags order -> frags !! k = None -> module_id f = k ->
  order' ≡ₚ k :: order ->
  listed (<[k := f]> frags) order'.
Proof.
  intros (Hn & Hl & Hk) Hf Hid Hp. split; [|split].
  - rewrite Hp. apply NoDup_cons. split; [|done].
    intros Hin. apply Hl in Hin as [? ?]. congruence.
  - intros k' Hin. rewrite Hp in Hin. destruct (decide (k' = k)) as [->|Hne].
    + by rewrite lookup_insert_eq.
    + rewrite lookup_insert_ne by done.
      apply elem_of_cons in Hin as [?|?]; [done|eauto].
  - intros k' f0 H. destruct (decide (k' = k)) as [->|Hne].
    + rewrite lookup_insert_eq in H. by simplify_eq.
    + rewrite lookup_insert_ne in H by done. eauto.
Qed.

Lemma snoc_perm (x : str) l : l ++ [x] ≡ₚ x :: l.
Proof. by rewrite Permutation_app_comm. Qed.

Lemma wl_add m s mid c after : well_listed m -> well_listed (add_prompt m s mid c after).2.
Proof.
  intros Hm. unfold add_prompt. case_decide as Hsys; [done|].
  destruct (sections m s !! mid) as [f|] eqn:Hf; simpl.
  - apply wl_update_frags; [done|].
    eapply listed_insert_same; [apply Hm|exact Hf|].
    simpl. by destruct (Hm s) as (_ & _ & Hk); apply Hk.
  - apply wl_update; [done|].
    eapply listed_insert_new; [apply Hm|done|done|].
    destruct after as [a|].
    + destruct (index a (section_orders m s)) as [i|];
        [apply insert_at_perm|apply snoc_perm].
    + destruct (section_orders m s) as [|first rest] eqn:Ho; [done|].
      case_decide; [apply insert_at_perm|apply snoc_perm].
Qed.

Lemma listed_delete (frags : gmap str PromptFragment) order order' k :
  listed frags order -> k ∉ order' -> (forall x, x ∈ order' -> x ∈ order) ->
  NoDup order' ->
  listed (delete k frags) order'.
Proof.
  intros (Hn & Hl & Hk) Hnot Hsub Hn'. split; [done|]. split.
  - intros k' Hin. rewrite lookup_delete_ne by (intros ->; done). eauto.
  - intros k' f H. apply lookup_delete_Some in H as [_ H]. eauto.
Qed.

Lemma wl_remove m s mid : well_listed m -> well_listed (remove_prompt m s mid).2.
Proof.
  intros Hm. unfold remove_prompt. case_decide as Hsys; [done|].
  destruct (sections m s !! mid) as [f|] eqn:Hf; simpl; [|done].
  destruct (Hm s) as (Hn & Hl & Hk).
  destruct (remove_first mid (section_orders m s)) as [order'|] eqn:Hr; simpl.
  - apply wl_update; [done|].
    pose proof (remove_first_perm _ _ _ Hr) as Hp.
    rewrite Hp in Hn. apply NoDup_cons in Hn as [Hnot Hn'].
    apply listed_delete with (order := section_orders m s); try done.
    intros x Hx. rewrite Hp. by apply elem_of_cons; right.
  - apply wl_update_frags; [done|].
    apply listed_delete with (order := section_orders m s); try done.
    intros Hin. apply remove_first_is_Some in Hin as [? ?]. congruence.
Qed.

Lemma listed_reorder (frags : gmap str PromptFragment) order order' :
  listed frags order -> NoDup order' -> (forall x, x ∈ order' -> x ∈ order) ->
  listed frags order'.
Proof. intros (Hn & Hl & Hk) Hn' Hsub. split; [done|]. split; eauto. Qed.

Lemma wl_move m s mid target before :
  well_listed m -> well_listed (move_prompt m s mid target before).2.
Proof.
  intros Hm. unfold move_prompt. case_decide as Hsys; [done|].
  destruct (bool_decide (target = system_id) && before); [done|].
  destruct (negb (mem mid (section_orders m s))); [done|].
  destruct (negb (mem target (section_orders m s))); [done|].
  destruct (Hm s) as (Hn & Hl & Hk).
  destruct (remove_first mid (section_orders m s)) as [l1|] eqn:Hr; simpl; [|done].
  pose proof (remove_first_perm _ _ _ Hr) as Hp.
  pose proof Hn as Hn1. rewrite Hp in Hn1. apply NoDup_cons in Hn1 as [Hnot Hn1].
  destruct (index target l1) as [i|] eqn:Hi; simpl.
  - apply wl_update_order; [done|].
    apply listed_reorder with (order := section_orders m s); [done| |].
    + rewrite insert_at_perm. by apply NoDup_cons.
    + intros x. by rewrite insert_at_perm, Hp.
  - apply wl_update_order; [done|].
    apply listed_reorder with (order := section_orders m s); [done|done|].
    intros x Hx. rewrite Hp. by apply elem_of_cons; right.
Qed.

Lemma wl_update_prompt m s mid c :
  well_listed m -> well_listed (update_prompt m s mid c).2.
Proof.
  intros Hm. unfold update_prompt.
  destruct (sections m s !! mid) as [f|] eqn:Hf; simpl; [|done].
  apply wl_update_frags; [done|].
  eapply listed_insert_same; [apply Hm|exact Hf|].
  simpl. by destruct (Hm s) as (_ & _ & Hk); apply Hk.
Qed.

Lemma wl_clear m s : well_listed m -> well_listed (clear_section m s).
Proof.
  intros Hm. unfold clear_section. destruct (Hm s) as (Hn & Hl & Hk).
  destruct (sections m s !! system_id) as [f|] eqn:Hf.
  - apply wl_update; [done|]. split; [apply NoDup_singleton|]. split.
    + intros k Hin. apply list_elem_of_singleton in Hin as ->.
      by rewrite lookup_singleton_eq.
    + intros k f' H. apply lookup_singleton_Some in H as [<- <-]. eauto.
  - apply wl_update; [done|]. split; [constructor|]. split.
    + intros k Hin. by apply not_elem_of_nil in Hin.
    + intros k f' H. by rewrite lookup_empty in H.
Qed.

Lemma wl_copy m a b : well_listed m -> well_listed (copy_section m a b).
Proof. intros Hm. unfold copy_section. apply wl_update; [done|apply Hm]. Qed.

Lemma wl_load_fragments m s items r m' :
  well_listed m -> NoDup (items.*1) ->
  (forall k, k ∈ items.*1 -> k ∉ section_orders m s) ->
  (forall k, k ∈ items.*1 -> sections m s !! k = None) ->
  load_fragments m s items = (r, m') -> well_listed m'.
Proof.
  revert m. induction items as [|[k fd] items IH]; intros m Hm Hnd Hfresh Hnone H;
    simpl in *.
  - by simplify_eq.
  - apply NoDup_cons in Hnd as [Hk Hnd].
    destruct (fd_content fd) as [c|]; [|by simplify_eq].
    eapply IH; [| |..|exact H]; simpl.
    + apply wl_update; [done|].
      eapply listed_insert_new; [apply Hm| |done|apply snoc_perm].
      apply Hnone. by left.
    + done.
    + intros k' Hk'. rewrite upd_same, elem_of_app, list_elem_of_singleton.
      intros [Hin| ->]; [|done].
      eapply Hfresh; [|exact Hin]. by right.
    + intros k' Hk'. rewrite upd_same, lookup_insert_ne by (intros ->; done).
      apply Hnone. by right.
Qed.

Lemma wl_from_dict_go data m r m' :
  well_listed m -> unique_ids data -> from_dict_go m data = (r, m') ->
  well_listed m'.
Proof.
  unfold unique_ids. revert m.
  induction data as [|[name items] data IH]; intros m Hm Hok H; simpl in *.
  - by simplify_eq.
  - apply Forall_cons in Hok as [Hitems Hok]. simpl in Hitems.
    destruct (section_of_name name) as [s|]; [|eauto].
    destruct (load_fragments _ s items) as [r1 m1] eqn:Hl.
    assert (well_listed m1) as Hm1.
    { eapply wl_load_fragments; [|exact Hitems| | |exact Hl]; simpl.
      - apply wl_update; [done|]. split; [constructor|]. split.
        + intros k Hin. by apply not_elem_of_nil in Hin.
        + intros k f Hk. by rewrite lookup_empty in Hk.
      - intros k _. rewrite upd_same. apply not_elem_of_nil.
      - intros k _. by rewrite upd_same, lookup_empty. }
    destruct r1; [eauto|by simplify_eq].
Qed.

Lemma wl_from_dict data m :
  unique_ids data -> from_dict data = Returned m -> well_listed m.
Proof.
  intros Hok H. unfold from_dict in H.
  destruct (from_dict_go empty data) as [r m'] eqn:Hgo.
  destruct r; simplify_eq. eapply wl_from_dict_go; eauto using wl_empty.
Qed.

Lemma wl_built m : built m -> well_listed m.
Proof.
  induction 1 as [| | | | | | | |data m Hok H|m f Hok Hm IH];
    eauto using wl_empty, wl_load_init, wl_add, wl_remove, wl_move,
      wl_update_prompt, wl_clear, wl_copy, wl_from_dict.
  unfold load_from_json. destruct f as [| | |data]; try done.
  destruct (from_dict data) as [m'|x] eqn:Hd; simpl; [|done].
  eapply wl_from_dict; [|exact Hd]. by apply Hok.
Qed.

Lemma omap_listed (frags : gmap str PromptFragment) (order : list str) :
  (forall k, k ∈ order -> is_Some (frags !! k)) ->
  (forall k f, frags !! k = Some f -> module_id f = k) ->
  module_id <$> omap (fun k => frags !! k) order = order.
Proof.
  intros Hl Hk. induction order as [|k order IH]; simpl; [done|].
  destruct (Hl k ltac:(by left)) as [f Hf]. rewrite Hf. simpl.
  rewrite (Hk _ _ Hf). f_equal. apply IH. intros k' Hk'. apply Hl. by right.
Qed.

(** X1. In every composer the public operations build, no id stands twice
    in the order of a section, and the section renders exactly the ids
    of its order, in that order. *)
Theorem render_follows_order (m : t) (s : PromptSection) :
  built m ->
  NoDup (section_orders m s) /\
  module_id <$> get_section_fragments m s = get_section_order m s.
Proof.
  intros Hb. destruct (wl_built m Hb s) as (Hn & Hl & Hk).
  split; [done|]. by apply omap_listed.
Qed.

(** *** [to_dict] and [from_dict] *)

Lemma dict_set_new {V} k (v : V) d :
  k ∉ d.*1 -> dict_set k v d = d ++ [(k, v)].
Proof.
  induction d as [|[k' v'] d IH]; intros H; simpl in *; [done|].
  apply not_elem_of_cons in H as [Hne H].
  case_decide; [congruence|]. by rewrite IH.
Qed.

Lemma fold_dict_set_records (fs : list PromptFragment)
    (acc : list (str * fragment_data)) :
  NoDup (acc.*1 ++ (module_id <$> fs)) ->
  fold_left (fun d f => dict_set (module_id f) (fragment_record f) d) fs acc
  = acc ++ (record_item <$> fs).
Proof.
  revert acc. induction fs as [|f fs IH]; intros acc Hn; simpl.
  - by rewrite app_nil_r.
  - assert (module_id f ∉ acc.*1) as Hf.
    { apply NoDup_app in Hn as (_ & Hn & _). intros Hin.
      apply (Hn _ Hin). by left. }
    rewrite dict_set_new by done. rewrite IH.
    + by rewrite <- app_assoc.
    + rewrite fmap_app. simpl. by rewrite <- app_assoc.
Qed.

Lemma section_dict_records m s :
  well_listed m ->
  section_dict m s = record_item <$> get_section_fragments m s.
Proof.
  intros Hm. unfold section_dict. destruct (Hm s) as (Hn & Hl & Hk).
  rewrite fold_dict_set_records; [done|]. simpl.
  unfold get_section_fragments. by rewrite omap_listed.
Qed.

Lemma section_of_section_name s : section_of_name (section_name s) = Some s.
Proof. by destruct s. Qed.

Lemma to_dict_sections m :
  to_dict m = (fun s => (section_name s, section_dict m s)) <$> all_sections.
Proof. reflexivity. Qed.

Lemma load_fragments_records m s (fs : list PromptFragment) :
  exists m',
    load_fragments m s (record_item <$> fs) = (Returned (), m') /\
    sections m' s = loaded fs (sections m s) /\
    section_orders m' s = section_orders m s ++ (module_id <$> fs) /\
    forall s', s' <> s ->
      sections m' s' = sections m s' /\ section_orders m' s' = section_orders m s'.
Proof.
  revert m. induction fs as [|f fs IH]; intros m; simpl.
  - exists m. rewrite app_nil_r. by repeat split.
  - destruct (IH (mk (upd (sections m) s
                        (<[module_id f := mkFragment (module_id f) (content f)
                                            (is_system f)]> (sections m s)))
                     (upd (section_orders m) s (section_orders m s ++ [module_id f]))))
      as (m' & E & Hs & Ho & Hothers).
    exists m'. split; [exact E|]. simpl in *. rewrite !upd_same in *.
    split; [|split].
    + rewrite Hs. by destruct f.
    + rewrite Ho. by rewrite <- app_assoc.
    + intros s' Hne. destruct (Hothers s' Hne) as [E1 E2].
      by rewrite E1, E2, !upd_other.
Qed.

Lemma lookup_loaded_other (fs : list PromptFragment)
    (g : gmap str PromptFragment) (k : str) :
  k ∉ module_id <$> fs -> loaded fs g !! k = g !! k.
Proof.
  revert g. induction fs as [|f fs IH]; intros g H; simpl in *; [done|].
  apply not_elem_of_cons in H as [Hne H].
  rewrite IH by done. by rewrite lookup_insert_ne.
Qed.

Lemma omap_loaded (fs : list PromptFragment) (g : gmap str PromptFragment) :
  NoDup (module_id <$> fs) ->
  omap (fun k => loaded fs g !! k) (module_id <$> fs) = fs.
Proof.
  revert g. induction fs as [|f fs IH]; intros g Hn; simpl in *; [done|].
  apply NoDup_cons in Hn as [Hf Hn].
  rewrite lookup_loaded_other by done. rewrite lookup_insert_eq. simpl.
  f_equal. by apply IH.
Qed.

(** [from_dict_go] over the entries [to_dict] writes for the sections
    [ss], each with its fragments [F s]. *)
Lemma from_dict_go_records (F : PromptSection -> list PromptFragment) ss m :
  NoDup ss ->
  exists m',
    from_dict_go m ((fun s => (section_name s, record_item <$> F s)) <$> ss)
      = (Returned (), m') /\
    (forall s, s ∈ ss ->
       sections m' s = loaded (F s) ∅ /\
       section_orders m' s = module_id <$> F s) /\
    (forall s, s ∉ ss ->
       sections m' s = sections m s /\ section_orders m' s = section_orders m s).
Proof.
  revert m. induction ss as [|s ss IH]; intros m Hn; simpl.
  - exists m. split; [done|]. split; [|done].
    intros s H. by apply not_elem_of_nil in H.
  - apply NoDup_cons in Hn as [Hs Hn].
    rewrite section_of_section_name.
    destruct (load_fragments_records
                (mk (upd (sections m) s ∅) (upd (section_orders m) s [])) s (F s))
      as (m1 & E1 & Hs1 & Ho1 & Hothers1).
    rewrite E1. simpl in *. rewrite !upd_same in *.
    destruct (IH m1 Hn) as (m' & E & Hin & Hout).
    exists m'. split; [exact E|]. split.
    + intros s' Hs'. apply elem_of_cons in Hs' as [->|Hs']; [|by apply Hin].
      destruct (Hout s Hs) as [E2 E3]. by rewrite E2, E3, Hs1, Ho1.
    + intros s' Hs'. apply not_elem_of_cons in Hs' as [Hne Hs'].
      destruct (Hout s' Hs') as [E2 E3]. destruct (Hothers1 s' Hne) as [E4 E5].
      by rewrite E2, E3, E4, E5, !upd_other.
Qed.

Lemma all_sections_complete s : s ∈ all_sections.
Proof. by destruct s; apply (bool_decide_unpack _). Qed.

Lemma all_sections_nodup : NoDup all_sections.
Proof. by apply (bool_decide_unpack _). Qed.

(** X2. Writing a composer with [to_dict] and reading the record back with
    [from_dict], as [save_to_json] and [load_from_json] do through a
    file, succeeds and gives a composer with the same order, the same
    rendered fragments, the same record and the same full prompt, for
    every composer the public operations build. *)
Theorem to_dict_from_dict (m : t) :
  built m ->
  exists m',
    from_dict (to_dict m) = Returned m' /\
    (forall m0, load_from_json m0 (Parsed (to_dict m)) = (true, m')) /\
    to_dict m' = to_dict m /\
    (forall s,
       get_section_order m' s = get_section_order m s /\
       get_section_fragments m' s = get_section_fragments m s) /\
    forall extra, get_full_prompt m' extra = get_full_prompt m extra.
Proof.
  intros Hb. pose proof (wl_built m Hb) as Hm.
  destruct (from_dict_go_records (get_section_fragments m) all_sections empty
              all_sections_nodup) as (m' & E & Hin & _).
  assert (to_dict m = (fun s => (section_name s,
                                 record_item <$> get_section_fragments m s))
                        <$> all_sections) as Hd.
  { rewrite to_dict_sections. unfold all_sections. simpl.
    by rewrite !section_dict_records. }
  assert (forall s, get_section_order m' s = get_section_order m s /\
                    get_section_fragments m' s = get_section_fragments m s) as Hsame.
  { intros s. destruct (Hin s (all_sections_complete s)) as [Hs Ho].
    destruct (Hm s) as (Hn & Hl & Hk).
    assert (module_id <$> get_section_fragments m s = section_orders m s) as Hids
      by by apply omap_listed.
    unfold get_section_order. split; [by rewrite Ho|].
    unfold get_section_fragments at 1. rewrite Hs, Ho.
    apply omap_loaded. by rewrite Hids. }
  assert (from_dict (to_dict m) = Returned m') as Hfrom.
  { unfold from_dict. by rewrite Hd, E. }
  exists m'. split; [exact Hfrom|]. split; [|split; [|split; [exact Hsame|]]].
  - intros m0. unfold load_from_json. by rewrite Hfrom.
  - rewrite !to_dict_sections. unfold all_sections, section_dict. simpl.
    by rewrite !(proj2 (Hsame _)).
  - intros extra.
    unfold get_full_prompt, full_prompt_parts, section_parts, get_section_content.
    unfold all_sections. simpl. by rewrite !(proj2 (Hsame _)).
Qed.

(** *** Moving, removing and adding *)

Lemma remove_first_app x (a b : list str) :
  x ∉ a -> remove_first x (a ++ x :: b) = Some (a ++ b).
Proof.
  induction a as [|y a IH]; intros H; simpl.
  - by case_decide.
  - apply not_elem_of_cons in H as [Hne H].
    case_decide; [congruence|]. by rewrite IH.
Qed.

Lemma remove_first_split x (l l' : list str) :
  remove_first x l = Some l' ->
  exists a b, l = a ++ x :: b /\ l' = a ++ b /\ x ∉ a.
Proof.
  revert l'. induction l as [|y l IH]; intros l' H; simpl in H; [done|].
  case_decide.
  - simplify_eq. exists [], l'. split; [done|]. split; [done|apply not_elem_of_nil].
  - destruct (remove_first x l) as [l0|] eqn:E; simplify_eq/=.
    destruct (IH l0 eq_refl) as (a & b & -> & -> & Ha).
    exists (y :: a), b. split; [done|]. split; [done|].
    apply not_elem_of_cons. split; [congruence|done].
Qed.

(** X3. Moving a fragment next to another one of the same section: the
    call returns [True], the content maps stay as they are, the moved id
    stands directly before (or after) the target, and the other ids keep
    their order. *)
Theorem move_puts_next_to_target
    (m : t) (s : PromptSection) (mid target : str) (before : bool) :
  built m ->
  mid <> system_id ->
  (target = system_id -> before = false) ->
  mid ∈ get_section_order m s ->
  target ∈ get_section_order m s ->
  mid <> target ->
  exists m' l1 l2,
    move_prompt m s mid target before = (Returned true, m') /\
    sections m' = sections m /\
    get_section_order m' s =
      l1 ++ (if before then [mid; target] else [target; mid]) ++ l2 /\
    remove_first mid (get_section_order m s) = Some (l1 ++ target :: l2) /\
    forall s', s' <> s -> get_section_order m' s' = get_section_order m s'.
Proof.
  unfold get_section_order.
  intros Hb Hsys Htarget Hmid Htg Hne.
  destruct (wl_built m Hb s) as (Hn & Hl & Hk).
  unfold move_prompt. case_decide; [done|].
  assert (bool_decide (target = system_id) && before = false) as ->.
  { destruct before; [|by rewrite andb_false_r].
    rewrite andb_true_r. apply bool_decide_eq_false. intros E.
    by specialize (Htarget E). }
  unfold mem. rewrite !bool_decide_eq_true_2 by done. simpl.
  destruct (remove_first_is_Some _ _ Hmid) as [l Hr]. rewrite Hr.
  assert (target ∈ l) as Htl.
  { pose proof (remove_first_perm _ _ _ Hr) as Hp. rewrite Hp in Htg.
    apply elem_of_cons in Htg as [?|?]; [congruence|done]. }
  destruct (index_is_Some_elem _ _ Htl) as [i Hi]. rewrite Hi.
  destruct (index_split _ _ _ Hi) as (El & Hnot & Hlen).
  set (a := take i l) in *. set (b := drop (S i) l) in *.
  eexists _, a, b. split; [reflexivity|]. simpl. split; [done|].
  rewrite upd_same. split; [|split].
  - unfold insert_at. rewrite <- El. destruct before.
    + rewrite take_app_length', drop_app_length' by done. done.
    + change (a ++ target :: b) with (a ++ [target] ++ b).
      rewrite app_assoc.
      rewrite take_app_length', drop_app_length'
        by (rewrite length_app; simpl; lia).
      by rewrite <- app_assoc.
  - by rewrite El.
  - intros s' Hs'. by rewrite upd_other.
Qed.

(** X4. Moving a fragment before or after itself: the call does not
    return but raises [ValueError], and it leaves the fragment in the
    content map while its id is gone from the order, so that the section
    does not render it any more. *)
Theorem move_onto_itself_drops
    (m : t) (s : PromptSection) (mid : str) (before : bool) :
  built m ->
  mid <> system_id ->
  mid ∈ get_section_order m s ->
  exists m',
    move_prompt m s mid mid before = (Raised ValueError, m') /\
    sections m' = sections m /\
    is_Some (sections m' s !! mid) /\
    remove_first mid (get_section_order m s) = Some (get_section_order m' s) /\
    mid ∉ module_id <$> get_section_fragments m' s.
Proof.
  unfold get_section_order. intros Hb Hsys Hmid.
  destruct (wl_built m Hb s) as (Hn & Hl & Hk).
  unfold move_prompt. case_decide; [done|].
  rewrite (bool_decide_eq_false_2 (mid = system_id)) by done. simpl.
  unfold mem. rewrite !bool_decide_eq_true_2 by done. simpl.
  destruct (remove_first_is_Some _ _ Hmid) as [l Hr]. rewrite Hr.
  assert (mid ∉ l) as Hnot.
  { pose proof (remove_first_perm _ _ _ Hr) as Hp. rewrite Hp in Hn.
    by apply NoDup_cons in Hn as [? _]. }
  rewrite index_None by done.
  eexists. split; [reflexivity|]. simpl. rewrite upd_same.
  split; [done|]. split; [by apply Hl|]. split; [done|].
  unfold get_section_fragments. simpl. rewrite upd_same.
  intros Hin. apply list_elem_of_fmap in Hin as (f & Hf & Hin).
  apply list_elem_of_omap in Hin as (k & Hk' & Hlook).
  apply Hk in Hlook. congruence.
Qed.

Lemma filter_ne_id x (l : list str) :
  x ∉ l -> filter (fun y => y <> x) l = l.
Proof.
  induction l as [|y l IH]; intros H; [done|].
  apply not_elem_of_cons in H as [Hne H].
  rewrite filter_cons_True by congruence. by rewrite IH.
Qed.

Lemma remove_first_filter x (l : list str) :
  NoDup l -> x ∈ l ->
  remove_first x l = Some (filter (fun y => y <> x) l).
Proof.
  induction l as [|y l IH]; intros Hn Hx; [by apply not_elem_of_nil in Hx|].
  apply NoDup_cons in Hn as [Hy Hn]. simpl.
  case_decide as E.
  - subst. rewrite filter_cons_False by (intros ?; congruence).
    f_equal. symmetry. by apply filter_ne_id.
  - apply elem_of_cons in Hx as [?|Hx]; [congruence|].
    rewrite IH by done. simpl. by rewrite filter_cons_True.
Qed.

Lemma omap_delete_filter (frags : gmap str PromptFragment) (order : list str) mid :
  (forall k f, frags !! k = Some f -> module_id f = k) ->
  omap (fun k => delete mid frags !! k) (filter (fun y => y <> mid) order)
  = filter (fun f => module_id f <> mid) (omap (fun k => frags !! k) order).
Proof.
  intros Hk. induction order as [|k order IH]; simpl; [done|].
  destruct (decide (k = mid)) as [->|Hne].
  - rewrite filter_cons_False by (intros ?; congruence).
    destruct (frags !! mid) as [f|] eqn:Hf; simpl; [|done].
    rewrite filter_cons_False; [done|]. intros ?. by apply Hk in Hf.
  - rewrite filter_cons_True by done. simpl.
    rewrite lookup_delete_ne by done.
    destruct (frags !! k) as [f|] eqn:Hf; simpl; [|done].
    rewrite filter_cons_True; [f_equal; exact IH|].
    apply Hk in Hf. congruence.
Qed.

(** X5. Removing a fragment that is not ["system"] and stands in the order
    of its section succeeds: the id leaves the content map and the order
    together, the section renders the other fragments as before, and the
    other sections are as they were. *)
Theorem remove_listed_fragment (m : t) (s : PromptSection) (mid : str) :
  built m ->
  mid <> system_id ->
  mid ∈ get_section_order m s ->
  exists m',
    remove_prompt m s mid = (Returned true, m') /\
    sections m' s !! mid = None /\
    (mid ∉ get_section_order m' s) /\
    get_section_fragments m' s =
      filter (fun f => module_id f <> mid) (get_section_fragments m s) /\
    forall s', s' <> s ->
      sections m' s' = sections m s' /\
      get_section_order m' s' = get_section_order m s'.
Proof.
  unfold get_section_order. intros Hb Hsys Hmid.
  destruct (wl_built m Hb s) as (Hn & Hl & Hk).
  unfold remove_prompt. case_decide; [done|].
  destruct (Hl _ Hmid) as [f Hf]. rewrite Hf.
  rewrite remove_first_filter by done.
  eexists. split; [reflexivity|]. simpl. rewrite !upd_same.
  split; [apply lookup_delete_eq|]. split; [|split].
  - rewrite list_elem_of_filter. tauto.
  - unfold get_section_fragments. simpl. rewrite !upd_same.
    by apply omap_delete_filter.
  - intros s' Hs'. by rewrite !upd_other.
Qed.

(** X6. [load_init_sections] resets the order of a section to the system
    fragment alone but keeps the earlier fragments in the content map.
    Such a fragment is no longer rendered; [add_prompt] under its id
    reports success and still does not bring it back into the order;
    [remove_prompt] under its id raises [ValueError]. *)
Theorem load_init_hides_fragments
    (m : t) (s : PromptSection) (c mid c' : str) (after : option str) :
  mid <> system_id ->
  is_Some (sections m s !! mid) ->
  let m1 := load_init_sections m [(s, c)] in
  get_section_fragments m1 s = [mkFragment system_id c true] /\
  is_Some (sections m1 s !! mid) /\
  (add_prompt m1 s mid c' after).1 = true /\
  get_section_fragments (add_prompt m1 s mid c' after).2 s
    = [mkFragment system_id c true] /\
  (remove_prompt m1 s mid).1 = Raised ValueError.
Proof.
  intros Hsys [f Hf] m1.
  assert (sections m1 s !! mid = Some f) as Hf1.
  { unfold m1. simpl. by rewrite upd_same, lookup_insert_ne. }
  assert (sections m1 s !! system_id = Some (mkFragment system_id c true)) as Hs1.
  { unfold m1. simpl. by rewrite upd_same, lookup_insert_eq. }
  assert (section_orders m1 s = [system_id]) as Ho1.
  { unfold m1. simpl. by rewrite upd_same. }
  clearbody m1.
  split; [|split; [|split; [|split]]].
  - unfold get_section_fragments. rewrite Ho1. simpl. by rewrite Hs1.
  - by rewrite Hf1.
  - unfold add_prompt. case_decide; [done|]. by rewrite Hf1.
  - unfold add_prompt. case_decide; [done|]. rewrite Hf1. simpl.
    unfold get_section_fragments. simpl. rewrite upd_same, Ho1.
    simpl. rewrite lookup_insert_ne by done. by rewrite Hs1.
  - unfold remove_prompt. case_decide; [done|]. rewrite Hf1, Ho1. simpl.
    case_decide; [congruence|]. done.
Qed.

(** X7. Adding a fragment under a new id and removing it again gives back
    the content map and the order of every section, wherever the
    fragment was put. *)
Theorem add_then_remove (m : t) (s : PromptSection) (mid c : str)
    (after : option str) :
  built m ->
  mid <> system_id ->
  sections m s !! mid = None ->
  exists m1 m2,
    add_prompt m s mid c after = (true, m1) /\
    mid ∈ get_section_order m1 s /\
    remove_prompt m1 s mid = (Returned true, m2) /\
    forall s',
      sections m2 s' = sections m s' /\
      get_section_order m2 s' = get_section_order m s'.
Proof.
  unfold get_section_order. intros Hb Hsys Hnone.
  destruct (wl_built m Hb s) as (Hn & Hl & Hk).
  assert (mid ∉ section_orders m s) as Hnot.
  { intros Hin. apply Hl in Hin as [? ?]. congruence. }
  unfold add_prompt. case_decide; [done|]. rewrite Hnone.
  set (order' := match after with Some _ => _ | None => _ end).
  assert (exists a b, order' = a ++ mid :: b /\ section_orders m s = a ++ b)
    as (a & b & Eo & El).
  { unfold order', insert_at. destruct after as [x|].
    - destruct (index x (section_orders m s)) as [i|].
      + eexists _, _. split; [reflexivity|]. by rewrite take_drop.
      + exists (section_orders m s), []. by rewrite app_nil_r.
    - destruct (section_orders m s) as [|first rest]; [by exists [], []|].
      case_decide.
      + eexists _, _. split; [reflexivity|]. by rewrite take_drop.
      + exists (first :: rest), []. by rewrite app_nil_r. }
  eexists _, _. split; [reflexivity|]. simpl. rewrite !upd_same.
  split; [rewrite Eo; set_solver|].
  unfold remove_prompt. case_decide; [done|]. simpl. rewrite !upd_same.
  rewrite lookup_insert_eq, Eo.
  rewrite remove_first_app by (rewrite El in Hnot; set_solver).
  split; [reflexivity|]. intros s'. simpl.
  destruct (decide (s' = s)) as [->|Hne].
  - rewrite !upd_same. by rewrite delete_insert_id.
  - by rewrite !upd_other.
Qed.

Lemma from_dict_go_app d1 d2 m :
  from_dict_go m (d1 ++ d2) =
    match from_dict_go m d1 with
    | (Returned _, m1) => from_dict_go m1 d2
    | (Raised x, m1) => (Raised x, m1)
    end.
Proof.
  revert m. induction d1 as [|[name items] d1 IH]; intros m; simpl; [done|].
  destruct (section_of_name name) as [s|]; [|apply IH].
  destruct (load_fragments _ s items) as [[[]|x] m1]; [apply IH|done].
Qed.

(** X8. [from_dict] skips an entry whose section name it does not know,
    whatever the entry holds: the result is that of the record without
    the entry. *)
Theorem from_dict_skips_unknown (d1 d2 : template) (name : str)
    (items : section_data) :
  section_of_name name = None ->
  from_dict (d1 ++ (name, items) :: d2) = from_dict (d1 ++ d2).
Proof.
  intros Hname. unfold from_dict. rewrite !from_dict_go_app.
  destruct (from_dict_go empty d1) as [[[]|x] m1]; [|done].
  simpl. by rewrite Hname.
Qed.

Lemma render_follows_order_witness :
  NoDup (section_orders two_fragments PRE_PROMPT) /\
  module_id <$> get_section_fragments two_fragments PRE_PROMPT
    = get_section_order two_fragments PRE_PROMPT.
Proof.
  apply (render_follows_order two_fragments PRE_PROMPT).
  unfold two_fragments, sample_manager.
  apply built_add, built_add, built_load_init, built_empty.
Defined.

Lemma to_dict_from_dict_witness :
  exists m',
    from_dict (to_dict two_fragments) = Returned m' /\
    (forall m0, load_from_json m0 (Parsed (to_dict two_fragments)) = (true, m')) /\
    to_dict m' = to_dict two_fragments /\
    (forall s,
       get_section_order m' s = get_section_order two_fragments s /\
       get_section_fragments m' s = get_section_fragments two_fragments s) /\
    forall extra, get_full_prompt m' extra = get_full_prompt two_fragments extra.
Proof.
  apply (to_dict_from_dict two_fragments).
  unfold two_fragments, sample_manager.
  apply built_add, built_add, built_load_init, built_empty.
Defined.

Lemma move_puts_next_to_target_witness :
  exists m' l1 l2,
    move_prompt two_fragments PRE_PROMPT (u "outro") (u "intro") false
      = (Returned true, m') /\
    sections m' = sections two_fragments /\
    get_section_order m' PRE_PROMPT = l1 ++ [u "intro"; u "outro"] ++ l2 /\
    remove_first (u "outro") (get_section_order two_fragments PRE_PROMPT)
      = Some (l1 ++ u "intro" :: l2) /\
    forall s', s' <> PRE_PROMPT ->
      get_section_order m' s' = get_section_order two_fragments s'.
Proof.
  apply (move_puts_next_to_target two_fragments PRE_PROMPT (u "outro") (u "intro") false).
  - unfold two_fragments, sample_manager.
    apply built_add, built_add, built_load_init, built_empty.
  - by vm_compute.
  - by vm_compute.
  - by apply (bool_decide_unpack _).
  - by apply (bool_decide_unpack _).
  - by vm_compute.
Defined.

Lemma move_onto_itself_drops_witness :
  exists m',
    move_prompt two_fragments PRE_PROMPT (u "intro") (u "intro") true
      = (Raised ValueError, m') /\
    sections m' = sections two_fragments /\
    is_Some (sections m' PRE_PROMPT !! u "intro") /\
    remove_first (u "intro") (get_section_order two_fragments PRE_PROMPT)
      = Some (get_section_order m' PRE_PROMPT) /\
    u "intro" ∉ module_id <$> get_section_fragments m' PRE_PROMPT.
Proof.
  apply (move_onto_itself_drops two_fragments PRE_PROMPT (u "intro") true).
  - unfold two_fragments, sample_manager.
    apply built_add, built_add, built_load_init, built_empty.
  - by vm_compute.
  - by apply (bool_decide_unpack _).
Defined.

Lemma remove_listed_fragment_witness :
  exists m',
    remove_prompt two_fragments PRE_PROMPT (u "intro") = (Returned true, m') /\
    sections m' PRE_PROMPT !! u "intro" = None /\
    (u "intro" ∉ get_section_order m' PRE_PROMPT) /\
    get_section_fragments m' PRE_PROMPT =
      filter (fun f => module_id f <> u "intro")
        (get_section_fragments two_fragments PRE_PROMPT) /\
    forall s', s' <> PRE_PROMPT ->
      sections m' s' = sections two_fragments s' /\
      get_section_order m' s' = get_section_order two_fragments s'.
Proof.
  apply (remove_listed_fragment two_fragments PRE_PROMPT (u "intro")).
  - unfold two_fragments, sample_manager.
    apply built_add, built_add, built_load_init, built_empty.
  - by vm_compute.
  - by apply (bool_decide_unpack _).
Defined.

Lemma load_init_hides_fragments_witness :
  let m1 := load_init_sections two_fragments [(PRE_PROMPT, u "New rules.")] in
  get_section_fragments m1 PRE_PROMPT = [mkFragment system_id (u "New rules.") true] /\
  is_Some (sections m1 PRE_PROMPT !! u "intro") /\
  (add_prompt m1 PRE_PROMPT (u "intro") (u "Again.") None).1 = true /\
  get_section_fragments (add_prompt m1 PRE_PROMPT (u "intro") (u "Again.") None).2
    PRE_PROMPT = [mkFragment system_id (u "New rules.") true] /\
  (remove_prompt m1 PRE_PROMPT (u "intro")).1 = Raised ValueError.
Proof.
  apply (load_init_hides_fragments two_fragments PRE_PROMPT (u "New rules.")
           (u "intro") (u "Again.") None).
  - by vm_compute.
  - eexists. vm_compute. reflexivity.
Defined.

Lemma add_then_remove_witness :
  exists m1 m2,
    add_prompt sample_manager PRE_PROMPT (u "outro") (u "Farewell.") (Some (u "intro"))
      = (true, m1) /\
    u "outro" ∈ get_section_order m1 PRE_PROMPT /\
    remove_prompt m1 PRE_PROMPT (u "outro") = (Returned true, m2) /\
    forall s',
      sections m2 s' = sections sample_manager s' /\
      get_section_order m2 s' = get_section_order sample_manager s'.
Proof.
  apply (add_then_remove sample_manager PRE_PROMPT (u "outro") (u "Farewell.")
           (Some (u "intro"))).
  - unfold sample_manager. apply built_add, built_load_init, built_empty.
  - by vm_compute.
  - by vm_compute.
Defined.

Lemma from_dict_skips_unknown_witness :
  from_dict (misordered_template ++ (u "EXTRA", []) :: [])
  = from_dict (misordered_template ++ []).
Proof. apply from_dict_skips_unknown. by vm_compute. Defined.

End PromptManagerMoreFacts.

(** ** The ledger of a turn *)

Module LedgerFacts.
Import Engine EngineSpec EngineFacts Samples Ledger.

Lemma find_from_spec (c : char) (s : str) (i : Z) :
  ((c ∉ s) /\ find_from c s i = -1) \/
  (exists pre post, s = pre ++ c :: post /\ (c ∉ pre) /\
                    find_from c s i = i + Z.of_nat (length pre)).
Proof.
  revert i. induction s as [|x s IH]; intros i; simpl.
  - left. split; [apply not_elem_of_nil|done].
  - destruct (N.eqb_spec x c) as [->|Hne].
    + right. exists [], s. split; [done|]. split; [apply not_elem_of_nil|simpl; lia].
    + destruct (IH (i + 1)) as [[Hn E]|(pre & post & -> & Hn & E)].
      * left. split; [|done]. rewrite not_elem_of_cons. split; [congruence|done].
      * right. exists (x :: pre), post. split; [done|].
        split; [rewrite not_elem_of_cons; split; [congruence|done]|].
        rewrite E. simpl length. lia.
Qed.

Lemma rfind_from_spec (c : char) (s : str) (i last : Z) :
  ((c ∉ s) /\ rfind_from c s i last = last) \/
  (exists pre post, s = pre ++ c :: post /\ (c ∉ post) /\
                    rfind_from c s i last = i + Z.of_nat (length pre)).
Proof.
  revert i last. induction s as [|x s IH]; intros i last; simpl.
  - left. split; [apply not_elem_of_nil|done].
  - destruct (IH (i + 1) (if N.eqb x c then i else last))
      as [[Hn E]|(pre & post & -> & Hn & E)].
    + destruct (N.eqb_spec x c) as [->|Hne].
      * right. exists [], s. split; [done|]. split; [done|]. rewrite E. simpl. lia.
      * left. split; [|done]. rewrite not_elem_of_cons. split; [congruence|done].
    + right. exists (x :: pre), post. split; [done|]. split; [done|].
      rewrite E. simpl length. lia.
Qed.

Lemma find_unique (c : char) (pre post : str) :
  c ∉ pre -> find c (pre ++ c :: post) = Z.of_nat (length pre).
Proof.
  intros Hn. unfold find.
  destruct (find_from_spec c (pre ++ c :: post) 0)
    as [[H _]|(pre' & post' & E & Hn' & ->)].
  - exfalso. apply H. rewrite elem_of_app. right. left.
  - f_equal. 
    assert (length pre' = length pre) as ->; [|lia].
    destruct (decide (length pre' < length pre)%nat) as [Hl|Hl].
    + exfalso. apply Hn.
      apply (f_equal (fun l => l !! length pre')) in E.
      rewrite lookup_app_l in E by done.
      rewrite list_lookup_middle in E by done.
      by eapply list_elem_of_lookup_2.
    + destruct (decide (length pre < length pre')%nat) as [Hl'|Hl']; [|lia].
      exfalso. apply Hn'.
      apply (f_equal (fun l => l !! length pre)) in E.
      rewrite list_lookup_middle in E by done.
      rewrite lookup_app_l in E by done.
      by eapply list_elem_of_lookup_2.
Qed.

Lemma rfind_unique (c : char) (pre post : str) :
  c ∉ post -> rfind c (pre ++ c :: post) = Z.of_nat (length pre).
Proof.
  intros Hn. unfold rfind.
  destruct (rfind_from_spec c (pre ++ c :: post) 0 (-1))
    as [[H _]|(pre' & post' & E & Hn' & ->)].
  - exfalso. apply H. rewrite elem_of_app. right. left.
  - assert (length pre' = length pre) as ->; [|lia].
    destruct (decide (length pre' < length pre)%nat) as [Hl|Hl].
    + exfalso. apply Hn'.
      apply (f_equal (fun l => l !! length pre)) in E.
      rewrite list_lookup_middle in E by done.
      rewrite lookup_app_r in E by lia.
      destruct (length pre - length pre')%nat as [|k] eqn:Hk; [lia|].
      simpl in E. symmetry in E. by eapply list_elem_of_lookup_2.
    + destruct (decide (length pre < length pre')%nat) as [Hl'|Hl']; [|lia].
      exfalso. apply Hn.
      apply (f_equal (fun l => l !! length pre')) in E.
      rewrite (list_lookup_middle pre' post' c) in E by done.
      rewrite lookup_app_r in E by lia.
      destruct (length pre' - length pre)%nat as [|k] eqn:Hk; [lia|].
      simpl in E. by eapply list_elem_of_lookup_2.
Qed.

Lemma find_absent (c : char) (s : str) : c ∉ s -> find c s = -1.
Proof.
  intros Hn. unfold find.
  destruct (find_from_spec c s 0) as [[_ E]|(pre & post & -> & _ & _)]; [done|].
  exfalso. apply Hn. rewrite elem_of_app. right. left.
Qed.

Lemma rfind_absent (c : char) (s : str) : c ∉ s -> rfind c s = -1.
Proof.
  intros Hn. unfold rfind.
  destruct (rfind_from_spec c s 0 (-1)) as [[_ E]|(pre & post & -> & _ & _)]; [done|].
  exfalso. apply Hn. rewrite elem_of_app. right. left.
Qed.

Lemma slice_middle (pre js post : str) :
  slice (Z.of_nat (length pre)) (Z.of_nat (length pre + length js))
    (pre ++ js ++ post) = js.
Proof.
  unfold slice. rewrite !Nat2Z.id.
  rewrite drop_app_length.
  replace (length pre + length js - length pre)%nat with (length js) by lia.
  by rewrite take_app_length.
Qed.

Lemma brace_window_spec (s js : str) :
  brace_window s = Some js <-> braced s js.
Proof.
  unfold brace_window, braced. split.
  - intros H.
    destruct (find_from_spec open_brace s 0)
      as [[_ E1]|(pre1 & post1 & E1 & Hn1 & F1)].
    { unfold find in H. rewrite E1 in H. done. }
    destruct (rfind_from_spec close_brace s 0 (-1))
      as [[_ E2]|(pre2 & post2 & E2 & Hn2 & F2)].
    { unfold rfind in H. rewrite E2 in H. simpl in H.
      by rewrite andb_false_r in H. }
    unfold find, rfind in H. rewrite F1, F2 in H.
    destruct (Z.ltb_spec (0 + Z.of_nat (length pre1)) (0 + Z.of_nat (length pre2)))
      as [Hlt|]; [|by rewrite andb_false_r in H].
    assert (exists mid, pre2 = pre1 ++ open_brace :: mid) as [mid ->].
    { exists (drop (S (length pre1)) pre2).
      assert (take (length pre1) s = pre1) as T1.
      { rewrite E1. by rewrite take_app_length. }
      assert (take (length pre1) pre2 = pre1) as T2.
      { rewrite <- T1 at 2. rewrite E2. rewrite take_app_le by lia. done. }
      assert (pre2 !! length pre1 = Some open_brace) as L.
      { assert (s !! length pre1 = Some open_brace) as L1.
        { rewrite E1. by rewrite list_lookup_middle. }
        rewrite E2 in L1. rewrite lookup_app_l in L1 by lia. done. }
      rewrite <- (take_drop (length pre1) pre2) at 1. rewrite T2. f_equal.
      by apply drop_S. }
    destruct (_ && _ && _) eqn:C in H; [|done]. injection H as <-.
    exists pre1, mid, post2.
    assert (slice (0 + Z.of_nat (length pre1))
              (0 + Z.of_nat (length (pre1 ++ open_brace :: mid)) + 1) s
            = open_brace :: mid ++ [close_brace]) as ->.
    { rewrite E2.
      replace ((pre1 ++ open_brace :: mid) ++ close_brace :: post2)
        with (pre1 ++ (open_brace :: mid ++ [close_brace]) ++ post2)
        by (rewrite <- !app_assoc; simpl; by rewrite <- app_assoc).
      etransitivity;
        [|apply (slice_middle pre1 (open_brace :: mid ++ [close_brace]) post2)].
      f_equal; rewrite ?length_app; simpl; rewrite ?length_app; simpl; lia. }
    split; [|done].
    rewrite E2. rewrite <- !app_assoc. simpl. by rewrite <- app_assoc.
  - intros (pre & mid & post & -> & -> & Hn1 & Hn2).
    assert (find open_brace (pre ++ (open_brace :: mid ++ [close_brace]) ++ post)
            = Z.of_nat (length pre)) as ->.
    { simpl. by apply find_unique. }
    assert (rfind close_brace (pre ++ (open_brace :: mid ++ [close_brace]) ++ post)
            = Z.of_nat (length (pre ++ open_brace :: mid))) as ->.
    { replace (pre ++ (open_brace :: mid ++ [close_brace]) ++ post)
        with ((pre ++ open_brace :: mid) ++ close_brace :: post)
        by (rewrite <- !app_assoc; simpl; by rewrite <- app_assoc).
      by apply rfind_unique. }
    rewrite length_app. simpl length.
    assert (negb (Z.of_nat (length pre) =? -1) = true) as ->
      by (apply negb_true_iff, Z.eqb_neq; lia).
    assert (negb (Z.of_nat (length pre + S (length mid)) =? -1) = true) as ->
      by (apply negb_true_iff, Z.eqb_neq; lia).
    assert ((Z.of_nat (length pre) <? Z.of_nat (length pre + S (length mid))) = true)
      as -> by (apply Z.ltb_lt; lia).
    simpl andb. cbv iota. f_equal.
    etransitivity;
      [|apply (slice_middle pre (open_brace :: mid ++ [close_brace]) post)].
    f_equal; simpl length; rewrite ?length_app; simpl; lia.
Qed.

Lemma replace_char (a : char) (new s : str) :
  replace [a] new s = flat_map (fun c => if N.eqb a c then new else [c]) s.
Proof.
  unfold replace. induction s as [|c s IH]; [done|].
  simpl. rewrite andb_true_r. destruct (N.eqb a c); simpl; by rewrite IH.
Qed.

Lemma replace_char_char (a b : char) (s : str) :
  replace [a] [b] s = (fun c => if N.eqb a c then b else c) <$> s.
Proof.
  rewrite replace_char. induction s as [|c s IH]; [done|].
  simpl. rewrite IH. by destruct (N.eqb a c).
Qed.

Lemma normalize_map (s : str) : normalize s = to_ascii <$> s.
Proof.
  unfold normalize. change (u ",") with [44%N]. change (u ":") with [58%N].
  rewrite !replace_char_char, <- !list_fmap_compose.
  apply list_fmap_ext. intros _ c _. unfold compose, to_ascii.
  destruct (N.eqb_spec 8220 c) as [<-|H1]; [done|].
  destruct (N.eqb_spec 8221 c) as [<-|H2]; [done|].
  destruct (N.eqb_spec 65306 c) as [<-|H3]; [done|].
  destruct (N.eqb_spec 65292 c) as [<-|H4]; [done|].
  destruct (N.eqb_spec c 8220) as [->|_]; [done|].
  destruct (N.eqb_spec c 8221) as [->|_]; [done|].
  destruct (N.eqb_spec c 65306) as [->|_]; [done|].
  destruct (N.eqb_spec c 65292) as [->|_]; [done|].
  done.
Qed.

(** X10. The rewriting [parse_ai_response] starts with keeps the length
    of the response and every character but the four full-width ones,
    each of which becomes an ASCII quote, colon or comma in its place;
    none of the four is left. *)
Theorem normalize_keeps_other_characters (s : str) :
  length (normalize s) = length s /\
  (forall c, c ∈ full_width -> c ∉ normalize s) /\
  (forall i c, s !! i = Some c -> c ∉ full_width -> normalize s !! i = Some c) /\
  (forall i c, s !! i = Some c -> c ∈ full_width ->
     exists a, normalize s !! i = Some a /\ a ∈ [34; 58; 44]%N).
Proof.
  rewrite normalize_map. split; [by rewrite length_fmap|]. split; [|split].
  - intros c Hc Hin. apply list_elem_of_fmap in Hin as (x & -> & _).
    revert Hc. unfold full_width, to_ascii.
    rewrite !elem_of_cons, elem_of_nil.
    destruct (N.eqb_spec x 8220); [by intros [?|[?|[?|[?|[]]]]]|].
    destruct (N.eqb_spec x 8221); [by intros [?|[?|[?|[?|[]]]]]|].
    destruct (N.eqb_spec x 65306); [by intros [?|[?|[?|[?|[]]]]]|].
    destruct (N.eqb_spec x 65292); [by intros [?|[?|[?|[?|[]]]]]|].
    by intros [?|[?|[?|[?|[]]]]].
  - intros i c Hi Hc. rewrite list_lookup_fmap, Hi. simpl. f_equal.
    unfold full_width in Hc. rewrite !not_elem_of_cons in Hc.
    destruct Hc as (H1 & H2 & H3 & H4 & _). unfold to_ascii.
    destruct (N.eqb_spec c 8220); [done|]. destruct (N.eqb_spec c 8221); [done|].
    destruct (N.eqb_spec c 65306); [done|]. by destruct (N.eqb_spec c 65292).
  - intros i c Hi Hc. rewrite list_lookup_fmap, Hi. simpl.
    eexists. split; [done|].
    unfold full_width in Hc. rewrite !elem_of_cons, elem_of_nil in Hc.
    destruct Hc as [->|[->|[->|[->|[]]]]]; vm_compute to_ascii;
      rewrite !elem_of_cons; auto.
Qed.

Lemma break_sentences_newlines (s : str) :
  without_newlines (break_sentences s) = without_newlines s.
Proof.
  unfold without_newlines.
  induction s as [|c s IH]; [done|].
  cbn [break_sentences]. destruct (N.eqb_spec c 12290) as [->|Hc].
  - destruct s as [|d s]; [done|].
    destruct (N.eqb d 12303).
    + rewrite !(filter_cons _ 12290%N). by rewrite IH.
    + rewrite !(filter_cons _ 12290%N). rewrite (filter_cons _ 10%N).
      rewrite (decide_False (P := 10%N <> 10%N)) by (intros H; by apply H).
      by rewrite IH.
  - rewrite !(filter_cons _ c). by rewrite IH.
Qed.

Lemma replace_char_newlines (a : char) (s : str) :
  without_newlines (replace [a] [a; 10%N] s) = without_newlines s.
Proof.
  rewrite replace_char. unfold without_newlines.
  induction s as [|c s IH]; [done|].
  simpl flat_map. rewrite filter_app, IH. rewrite (filter_cons _ c s).
  destruct (N.eqb_spec a c) as [->|Hne].
  - rewrite (filter_cons _ c). rewrite (filter_cons _ 10%N).
    rewrite (decide_False (P := 10%N <> 10%N)) by (intros H; by apply H).
    rewrite filter_nil. by destruct (decide (c <> 10%N)).
  - rewrite (filter_cons _ c []). rewrite filter_nil.
    by destruct (decide (c <> 10%N)).
Qed.

Lemma break_sentences_sublist (s : str) : s `sublist_of` break_sentences s.
Proof.
  induction s as [|c s IH]; [done|].
  cbn [break_sentences]. destruct (N.eqb c 12290).
  - destruct s as [|d s]; [by repeat constructor|].
    destruct (N.eqb d 12303); [by constructor|].
    constructor. by constructor.
  - by constructor.
Qed.

Lemma replace_char_sublist (a : char) (s : str) :
  s `sublist_of` replace [a] [a; 10%N] s.
Proof.
  rewrite replace_char. induction s as [|c s IH]; [done|].
  simpl. destruct (N.eqb_spec a c) as [->|Hne]; simpl.
  - constructor. by constructor.
  - by constructor.
Qed.

Lemma reflow_spec (s : str) :
  s `sublist_of` reflow s /\
  without_newlines (reflow s) = without_newlines s.
Proof.
  unfold reflow. split.
  - etransitivity; [apply break_sentences_sublist|apply replace_char_sublist].
  - by rewrite replace_char_newlines, break_sentences_newlines.
Qed.

Lemma reflow_nonempty (s : str) : nonempty s = true -> nonempty (reflow s) = true.
Proof.
  intros H. pose proof (proj1 (reflow_spec s)) as Hs.
  destruct s as [|c s]; [done|]. destruct (reflow (c :: s)); [|done].
  by apply sublist_nil_r in Hs.
Qed.

Section Turns.
Variable repair_json : option str -> res str.
Variable json_loads : str -> option json.

Local Abbreviation parse_ai_response := (Engine.parse_ai_response repair_json json_loads).
Local Abbreviation retry_until_parsed := (Engine.retry_until_parsed repair_json json_loads).
Local Abbreviation retry_until_summary := (Engine.retry_until_summary repair_json json_loads).
Local Abbreviation request_summary := (Engine.request_summary repair_json json_loads).
Local Abbreviation start_game := (Engine.start_game repair_json json_loads).
Local Abbreviation go_game := (Engine.go_game repair_json json_loads).
Local Abbreviation go_game_turn := (Engine.go_game_turn repair_json json_loads).
Local Abbreviation conclude_summary := (Engine.conclude_summary repair_json json_loads).
Local Abbreviation phase_summary := (Engine.phase_summary repair_json json_loads).
Local Abbreviation played := (EngineSpec.played repair_json json_loads).

Lemma accounted_refl prompt g : accounted prompt g [] g.
Proof.
  split; try done.
  - simpl. by rewrite app_nil_r.
  - unfold sum_billed. simpl. lia.
Qed.

Lemma sum_billed_app u1 u2 : sum_billed (u1 ++ u2) = sum_billed u1 + sum_billed u2.
Proof.
  unfold sum_billed. induction u1 as [|r u1 IH]; simpl; [done|].
  rewrite IH. lia.
Qed.

Lemma accounted_trans prompt g u1 g1 u2 g2 :
  accounted prompt g u1 g1 -> accounted prompt g1 u2 g2 ->
  accounted prompt g (u1 ++ u2) g2.
Proof.
  intros [] []. split; try congruence.
  - rewrite flat_map_app, app_assoc. congruence.
  - rewrite sum_billed_app. lia.
  - unfold last_cost in *. rewrite fold_left_app. congruence.
Qed.

Lemma call_ai_accounted g prompt r :
  accounted prompt g [r] (call_ai g prompt r).2.
Proof.
  unfold call_ai.
  destruct r as [| |usage content reasoning]; simpl.
  1,2: split; try done; simpl; [by rewrite app_nil_r|unfold sum_billed, last_cost; simpl; lia].
  destruct usage as [us|], (opt_truthy content), reasoning as [[rs|]|]; simpl;
    try destruct (nonempty rs); try destruct (brace_window rs);
    split; try done; unfold sum_billed, last_cost; simpl; lia.
Qed.

Lemma parse_accounted prompt g response r g' :
  parse_ai_response g response = Some (r, g') -> accounted prompt g [] g'.
Proof.
  unfold Engine.parse_ai_response. intros H.
  repeat (match type of H with
          | context [match ?x with _ => _ end] => destruct x eqn:?
          | context [if ?x then _ else _] => destruct x eqn:?
          end; simplify_eq/=; try apply accounted_refl);
  (split; try done; simpl; [by rewrite app_nil_r|unfold sum_billed, last_cost; simpl; lia]).
Qed.

(** What a successful parse leaves: a description that is a non-empty
    text, and one more summary. *)
Lemma parse_true g response g' :
  parse_ai_response g response = Some (Returned true, g') ->
  exists d summ,
    current_description g' = JStr d /\ nonempty d = true /\
    history_simple_summaries g' = history_simple_summaries g ++ [summ].
Proof.
  unfold Engine.parse_ai_response. intros H.
  destruct (repair_json _) as [repaired|[]]; try done.
  destruct (json_loads repaired) as [v|]; [|done].
  destruct (Engine.unwrap _ _ _) as [d| | | |]; try done.
  destruct (default (JStr []) (Py.dict_get key_description d)) as [| | | |ds| |];
    try done.
  destruct (nonempty (strip ds)) eqn:Hs; [|done]. simpl in H.
  assert (nonempty ds = true) as Hd.
  { destruct ds; [done|done]. }
  rewrite (reflow_nonempty ds Hd) in H. simplify_eq. simpl.
  eexists (reflow ds), _. split; [done|]. split; [by apply reflow_nonempty|done].
Qed.

Lemma parse_false g response g' :
  parse_ai_response g response = Some (Returned false, g') ->
  history_simple_summaries g' = history_simple_summaries g.
Proof.
  unfold Engine.parse_ai_response. intros H.
  repeat (match type of H with
          | context [match ?x with _ => _ end] => destruct x eqn:?
          | context [if ?x then _ else _] => destruct x eqn:?
          end; simplify_eq/=; try done).
Qed.

Lemma accounted_fields prompt g used g1 g2 :
  accounted prompt g used g1 ->
  conversation_history g2 = conversation_history g1 ->
  total_tokens g2 = total_tokens g1 ->
  l_p_token g2 = l_p_token g1 -> l_c_token g2 = l_c_token g1 ->
  custom_config g2 = custom_config g1 -> player_name g2 = player_name g1 ->
  pm_start g2 = pm_start g1 -> pm_continue g2 = pm_continue g1 ->
  pm_summary g2 = pm_summary g1 ->
  accounted prompt g used g2.
Proof. intros [] ? ? ? ? ? ? ? ? ?. split; congruence. Qed.

Lemma retry_until_response_Done prompt g w s g' w' :
  retry_until_response prompt g w = Done s g' w' ->
  exists used,
    w = used ++ w' /\ used <> [] /\ accounted prompt g used g' /\
    history_simple_summaries g' = history_simple_summaries g /\
    current_description g' = current_description g /\
    nonempty s = true.
Proof.
  revert g. induction w as [|r w IH]; intros g; simpl; [done|].
  pose proof (call_ai_accounted g prompt r) as A.
  destruct (call_ai_untouched g prompt r) as (_ & S1 & D1).
  destruct (call_ai g prompt r) as [[a|x] g1]; simpl in *; [|done].
  assert (retry_until_response prompt g1 w = Done s g' w' ->
          exists used,
            r :: w = used ++ w' /\ used <> [] /\ accounted prompt g used g' /\
            history_simple_summaries g' = history_simple_summaries g /\
            current_description g' = current_description g /\
            nonempty s = true) as Hrec.
  { intros H. apply IH in H as (used & -> & _ & A' & S' & D' & Hs).
    exists (r :: used). split; [done|]. split; [done|].
    split; [exact (accounted_trans _ _ _ _ _ _ A A')|].
    split_and!; congruence. }
  destruct a as [t|]; [|exact Hrec].
  destruct (nonempty t) eqn:Ht; [|exact Hrec].
  intros H. simplify_eq. exists [r]. by split_and!.
Qed.

Lemma retry_until_parsed_Done prompt g w r0 g' w' :
  retry_until_parsed prompt g w = Done r0 g' w' ->
  exists used d summ,
    w = used ++ w' /\ used <> [] /\ accounted prompt g used g' /\
    current_description g' = JStr d /\ nonempty d = true /\
    history_simple_summaries g' = history_simple_summaries g ++ [summ].
Proof.
  revert g. induction w as [|r w IH]; intros g; simpl; [done|].
  pose proof (call_ai_accounted g prompt r) as A.
  destruct (call_ai_untouched g prompt r) as (_ & S1 & D1).
  destruct (call_ai g prompt r) as [[a|x] g1]; simpl in *; [|done].
  assert (forall g2, accounted prompt g [r] g2 ->
            history_simple_summaries g2 = history_simple_summaries g ->
            retry_until_parsed prompt g2 w = Done r0 g' w' ->
            exists used d summ,
              r :: w = used ++ w' /\ used <> [] /\ accounted prompt g used g' /\
              current_description g' = JStr d /\ nonempty d = true /\
              history_simple_summaries g' = history_simple_summaries g ++ [summ])
    as Hrec.
  { intros g2 A2 S2 H.
    apply IH in H as (used & d & summ & -> & _ & A' & D' & Hd & S').
    exists (r :: used), d, summ. split; [done|]. split; [done|].
    split; [exact (accounted_trans _ _ _ _ _ _ A2 A')|].
    split_and!; congruence. }
  destruct a as [t|]; [|by apply Hrec].
  destruct (nonempty t) eqn:Ht; [|by apply Hrec].
  destruct (parse_ai_response g1 t) as [[[[|]|x] g2]|] eqn:P; try done.
  - intros H. simplify_eq.
    apply parse_true in P as P'. destruct P' as (d & summ & D' & Hd & S').
    exists [r], d, summ. split; [done|]. split; [done|].
    split.
    { apply (accounted_trans prompt g [r] g1 [] g' A).
      by eapply parse_accounted. }
    split_and!; congruence.
  - apply Hrec.
    + apply (accounted_trans prompt g [r] g1 [] g2 A). by eapply parse_accounted.
    + apply parse_false in P. congruence.
Qed.

Lemma retry_until_summary_Done prompt g w summ g' w' :
  retry_until_summary prompt g w = Done summ g' w' ->
  exists used,
    w = used ++ w' /\ used <> [] /\ accounted prompt g used g' /\ quiet g g' /\
    current_description g' = current_description g.
Proof.
  revert g. induction w as [|r w IH]; intros g; simpl; [done|].
  pose proof (call_ai_accounted g prompt r) as A.
  pose proof (call_ai_quiet g prompt r) as Q.
  destruct (call_ai_untouched g prompt r) as (_ & _ & D1).
  destruct (call_ai g prompt r) as [[a|x] g1]; simpl in *; [|done].
  destruct (phase_summary a) as [[[|] sm]|x]; [| |done].
  - intros H. simplify_eq. exists [r]. by split_and!.
  - intros H. apply IH in H as (used & -> & _ & A' & Q' & D').
    exists (r :: used). split; [done|]. split; [done|].
    split; [exact (accounted_trans _ _ _ _ _ _ A A')|].
    split; [by eapply quiet_trans|congruence].
Qed.

Lemma set_max_tokens_back (c : CustomConfig) (limit : Z) :
  set_max_tokens (set_max_tokens c limit) (max_tokens c) = c.
Proof. by destruct c. Qed.

Lemma request_summary_Done prompt limit g w summ g' w' :
  request_summary prompt limit g w = Done summ g' w' ->
  exists used,
    w = used ++ w' /\ used <> [] /\ accounted prompt g used g' /\ quiet g g' /\
    current_description g' = current_description g.
Proof.
  unfold Engine.request_summary, next_call.
  destruct w as [|r w]; [done|].
  set (g0 := with_config g (set_max_tokens (custom_config g) limit)).
  pose proof (call_ai_accounted g0 prompt r) as A.
  pose proof (call_ai_quiet g0 prompt r) as Q.
  destruct (call_ai_untouched g0 prompt r) as (_ & _ & D1).
  destruct (call_ai g0 prompt r) as [[a|x] g1]; simpl in *; [|done].
  set (g2 := with_config g1 (set_max_tokens (custom_config g1)
                               (max_tokens (custom_config g)))).
  assert (accounted prompt g [r] g2) as A2.
  { destruct A. split; try done.
    simpl. rewrite acc_config0. unfold g0. simpl. apply set_max_tokens_back. }
  assert (quiet g g2) as Q2.
  { eapply quiet_trans; [apply (with_config_quiet g)|].
    eapply quiet_trans; [exact Q|apply with_config_quiet]. }
  destruct (phase_summary a) as [[[|] sm]|x]; [| |done].
  - intros H. simplify_eq. exists [r]. by split_and!.
  - intros H. apply retry_until_summary_Done in H as (used & -> & _ & A' & Q' & D').
    exists (r :: used). split; [done|]. split; [done|].
    split; [exact (accounted_trans _ _ _ _ _ _ A2 A')|].
    split; [by eapply quiet_trans|]. rewrite D'. done.
Qed.

Lemma parse_step_Done g w response ok g' w' :
  Engine.parse_step repair_json json_loads g w response = Done ok g' w' ->
  parse_ai_response g response = Some (Returned ok, g') /\ w' = w.
Proof.
  unfold parse_step.
  destruct (parse_ai_response g response) as [[[b|x] g1]|]; [|done..].
  intros H. by simplify_eq.
Qed.

(** The parse of a first response and the retries after it. *)
Lemma parsed_Done prompt g w response r0 g' w' :
  bind (Engine.parse_step repair_json json_loads g w response)
    (fun ok_sign g3 w3 =>
       if ok_sign then Done () g3 w3 else retry_until_parsed prompt g3 w3)
  = Done r0 g' w' ->
  exists used d summ,
    w = used ++ w' /\ accounted prompt g used g' /\
    current_description g' = JStr d /\ nonempty d = true /\
    history_simple_summaries g' = history_simple_summaries g ++ [summ].
Proof.
  intros H. apply bind_Done in H as (ok & g3 & w3 & H1 & H).
  apply parse_step_Done in H1 as [P ->].
  destruct ok.
  - simplify_eq. apply parse_true in P as P'.
    destruct P' as (d & summ & D & Hd & S).
    exists [], d, summ. split; [done|]. split; [by eapply parse_accounted|].
    by split_and!.
  - apply retry_until_parsed_Done in H
      as (used & d & summ & -> & _ & A & D & Hd & S).
    exists used, d, summ. split; [done|].
    split.
    { apply (accounted_trans prompt g [] g3 used g'); [|done].
      by eapply parse_accounted. }
    apply parse_false in P. split_and!; congruence.
Qed.

Lemma start_game_Done
    (g : GameEngine) (st_story : str) (w : list Reply)
    (r : unit) (g' : GameEngine) (w' : list Reply) :
  start_game g st_story w = Done r g' w' ->
  exists used d summ,
    w = used ++ w' /\ used <> [] /\
    accounted (start_prompt g st_story) g used g' /\
    current_description g' = JStr d /\ nonempty d = true /\
    history_descriptions g' = history_descriptions g ++ [JStr d] /\
    history_choices g' = history_choices g /\
    history_simple_summaries g' = history_simple_summaries g ++ [summ] /\
    token_consumes g' =
      token_consumes g ++ [last_cost used (l_p_token g + l_c_token g)] /\
    conclude_summary_cooldown g' = conclude_summary_cooldown g /\
    summary_conclude_val g' = summary_conclude_val g.
Proof.
  intros H. unfold Engine.start_game in H.
  apply bind_Done in H as (s & g2 & w2 & H1 & H).
  apply bind_Done in H as ([] & g4 & w4 & H2 & H).
  set (prompt := start_prompt g st_story) in *.
  assert (exists used1, w = used1 ++ w2 /\ used1 <> [] /\
            accounted prompt g used1 g2 /\
            history_simple_summaries g2 = history_simple_summaries g)
    as (used1 & Ew & Hne & A1 & S1).
  { unfold next_call in H1. destruct w as [|r1 w]; [done|].
    pose proof (call_ai_accounted g prompt r1) as A.
    destruct (call_ai_untouched g prompt r1) as (_ & S & _).
    destruct (call_ai g prompt r1) as [[a|x] g1]; simpl in *; [|done].
    destruct (opt_truthy a).
    - simplify_eq. exists [r1]. by split_and!.
    - apply retry_until_response_Done in H1 as (used & -> & _ & A' & S' & _).
      exists (r1 :: used). split; [done|]. split; [done|].
      split; [exact (accounted_trans _ _ _ _ _ _ A A')|congruence]. }
  assert (untouched g g4) as U.
  { assert (untouched g g2) as U2.
    { change g2 with (final_engine (Done s g2 w2)). rewrite <- H1.
      apply next_call_untouched; [apply untouched_refl|].
      intros a g1 w1 U1. destruct (opt_truthy a); [done|].
      by apply retry_until_response_untouched. }
    change g4 with (final_engine (Done () g4 w4)). rewrite <- H2.
    apply bind_untouched; [by apply parse_step_untouched|].
    intros [] g3 w3 U3; [done|]. by apply retry_until_parsed_untouched. }
  apply parsed_Done in H2 as (used2 & d & summ & -> & A2 & D & Hd & S2).
  pose proof (accounted_trans _ _ _ _ _ _ A1 A2) as A.
  exists (used1 ++ used2), d, summ.
  simplify_eq. simpl.
  destruct U. destruct A.
  split; [by rewrite app_assoc|].
  split; [by destruct used1|].
  split; [by split|].
  split_and!; congruence.
Qed.

Lemma go_game_turn_Done g user_ipt w r g' w' :
  go_game_turn g user_ipt w = Done r g' w' ->
  exists prompt used,
    nonempty user_ipt = true /\
    continue_prompt g user_ipt = Returned prompt /\
    w = used ++ w' /\ used <> [] /\
    accounted prompt g used g' /\
    history_descriptions g' = history_descriptions g ++ [current_description g'] /\
    history_choices g' = history_choices g ++ [user_ipt] /\
    token_consumes g' =
      token_consumes g ++ [last_cost used (l_p_token g + l_c_token g)] /\
    conclude_summary_cooldown g' = conclude_summary_cooldown g - 1 /\
    summary_conclude_val g' = summary_conclude_val g /\
    ((exists d summ,
        current_description g' = JStr d /\ nonempty d = true /\
        history_simple_summaries g' = history_simple_summaries g ++ [summ]) \/
     (current_description g' = current_description g /\
      history_simple_summaries g' = history_simple_summaries g /\
      exists r1 a, used = [r1] /\
        (call_ai g prompt r1).1 = Returned a /\ opt_truthy a = false)).
Proof.
  intros H. pose proof H as H0. unfold Engine.go_game_turn in H.
  destruct (nonempty user_ipt) eqn:Hu.
  2: { simpl in H. done. }
  destruct (continue_prompt g user_ipt) as [prompt|] eqn:Hp; [|done].
  destruct (negb (nonempty prompt)); [done|].
  apply bind_Done in H as ([] & g3 & w3 & H1 & H).
  assert (untouched g g3) as U.
  { change g3 with (final_engine (Done () g3 w3)). rewrite <- H1.
    apply next_call_untouched; [apply untouched_refl|].
    intros a g1 w1 U1. destruct a as [s|]; [|done].
    destruct (nonempty s); [|done].
    apply bind_untouched; [by apply parse_step_untouched|].
    intros [] g2 w2 U2; [done|]. by apply retry_until_parsed_untouched. }
  unfold next_call in H1. destruct w as [|r1 w]; [done|].
  pose proof (call_ai_accounted g prompt r1) as A.
  destruct (call_ai_untouched g prompt r1) as (_ & S & D).
  destruct (call_ai g prompt r1) as [[a|x] g1] eqn:C; simpl in *; [|done].
  assert (opt_truthy a = false -> Done () g1 w = Done () g3 w3 ->
          exists prompt0 used,
            true = true /\ Returned prompt = Returned prompt0 /\
            r1 :: w = used ++ w' /\ used <> [] /\
            accounted prompt0 g used g' /\
            history_descriptions g' =
              history_descriptions g ++ [current_description g'] /\
            history_choices g' = history_choices g ++ [user_ipt] /\
            token_consumes g' =
              token_consumes g ++ [last_cost used (l_p_token g + l_c_token g)] /\
            conclude_summary_cooldown g' = conclude_summary_cooldown g - 1 /\
            summary_conclude_val g' = summary_conclude_val g /\
            ((exists d summ,
                current_description g' = JStr d /\ nonempty d = true /\
                history_simple_summaries g' =
                  history_simple_summaries g ++ [summ]) \/
             (current_description g' = current_description g /\
              history_simple_summaries g' = history_simple_summaries g /\
              exists r2 a2, used = [r2] /\
                (call_ai g prompt0 r2).1 = Returned a2 /\
                opt_truthy a2 = false))) as Hnone.
  { intros Ha E. clear H0. simplify_eq. exists prompt, [r1].
    destruct U as [Ud Uc Ut Uo Uv Um].
    split; [done|]. split; [done|]. split; [done|]. split; [done|].
    split; [by eapply accounted_fields; [exact A|..]|].
    simpl. split; [congruence|]. split; [congruence|].
    split; [destruct A; congruence|].
    split; [congruence|]. split; [congruence|].
    right. split_and!; try done. exists r1, a. by rewrite C. }
  clear H0.
  destruct a as [s|]; [|by apply Hnone].
  destruct (nonempty s) eqn:Hs; [|by apply Hnone].
  apply parsed_Done in H1 as (used2 & d & summ & -> & A2 & D2 & Hd & S2).
  pose proof (accounted_trans _ _ _ _ _ _ A A2) as A'.
  clear Hnone.
  exists prompt, (r1 :: used2). simplify_eq.
  destruct U as [Ud Uc Ut Uo Uv Um].
  split; [done|]. split; [done|]. split; [done|]. split; [done|].
  split; [by eapply accounted_fields; [exact A'|..]|].
  simpl. split; [congruence|]. split; [congruence|].
  split; [destruct A'; simpl in *; congruence|].
  split; [congruence|]. split; [congruence|].
  left. exists d, summ. split_and!; congruence.
Qed.

(** What a compaction pass that returns has done. *)
Lemma conclude_summary_Done g w r g' w' :
  conclude_summary g w = Done r g' w' ->
  exists prompt used costs c,
    w = used ++ w' /\ used <> [] /\
    accounted prompt g used g' /\
    token_consumes g = costs ++ [c] /\
    token_consumes g' = costs ++ [c + last_cost used (l_p_token g + l_c_token g)] /\
    conclude_summary_cooldown g' = 10 /\
    summary_conclude_val g' = summary_conclude_val g /\
    history_descriptions g' = history_descriptions g /\
    history_choices g' = history_choices g /\
    current_description g' = current_description g /\
    history_simple_summaries g' <> [].
Proof.
  assert (forall prompt limit l summ g1 w1,
            request_summary prompt limit g w = Done summ g1 w1 ->
            l <> [] ->
            finish_compaction g1 w1 l = Done r g' w' ->
            exists prompt used costs c,
              w = used ++ w' /\ used <> [] /\
              accounted prompt g used g' /\
              token_consumes g = costs ++ [c] /\
              token_consumes g' =
                costs ++ [c + last_cost used (l_p_token g + l_c_token g)] /\
              conclude_summary_cooldown g' = 10 /\
              summary_conclude_val g' = summary_conclude_val g /\
              history_descriptions g' = history_descriptions g /\
              history_choices g' = history_choices g /\
              current_description g' = current_description g /\
              history_simple_summaries g' <> []) as Hfin.
  { intros prompt limit l summ g1 w1 H1 Hl H.
    apply request_summary_Done in H1 as (used & -> & Hne & A & [U Q] & D).
    unfold finish_compaction in H. simpl in H.
    unfold add_to_last in H.
    destruct (last (token_consumes g1)) as [c|] eqn:L; [|done].
    simplify_eq. simpl.
    apply last_Some in L as [costs L].
    exists prompt, used, costs, c.
    destruct U, A.
    split; [done|]. split; [done|]. split; [by split|].
    split; [congruence|].
    split.
    { rewrite L. unfold drop_last. rewrite length_app. simpl.
      replace (length costs + 1 - 1)%nat with (length costs) by lia.
      rewrite take_app_length. do 2 f_equal. lia. }
    split_and!; try done; congruence. }
  unfold Engine.conclude_summary.
  destruct (select_strategy g) as [[|]|]; [| |done].
  - unfold Engine.dilute. destruct (Py.strings _) as [items|]; [|done].
    intros H. apply bind_Done in H as (summ & g1 & w1 & H1 & H).
    eapply Hfin; [exact H1| |exact H]. done.
  - unfold Engine.compress.
    destruct (py_filter (is_small _) _) as [smalls|]; [|done].
    destruct (Py.strings _) as [items|]; [|done].
    intros H. apply bind_Done in H as (summ & g1 & w1 & H1 & H).
    destruct (py_filter (is_large _) _) as [larges|]; [|done].
    eapply Hfin; [exact H1| |exact H]. by destruct larges.
Qed.

Lemma go_game_false_Done g user_ipt w r g' w' :
  go_game g user_ipt false w = Done r g' w' ->
  exists g1 w1,
    (if compaction_due g false
     then exists r1, conclude_summary g w = Done r1 g1 w1
     else g1 = g /\ w1 = w) /\
    go_game_turn g1 user_ipt w1 = Done r g' w'.
Proof.
  unfold Engine.go_game. intros H.
  apply bind_Done in H as (z & g1 & w1 & H1 & H).
  exists g1, w1. split; [|done].
  destruct (compaction_due g false); [|by simplify_eq].
  unfold go_game_concluding in H1.
  apply bind_Done in H1 as (z' & g0 & w0 & H0 & H1). simplify_eq. eauto.
Qed.

Lemma go_game_true_Done g user_ipt w r g' w' :
  go_game g user_ipt true w = Done r g' w' ->
  exists r1, conclude_summary g w = Done r1 g' w'.
Proof.
  unfold Engine.go_game, compaction_due. rewrite andb_false_r. simpl.
  intros H. apply bind_Done in H as (z & g1 & w1 & H1 & H). simplify_eq. eauto.
Qed.

Lemma in_session_description acts g :
  in_session acts g -> is_text (current_description g).
Proof.
  intros (_ & _ & F & L & _).
  rewrite Forall_forall in F. apply F.
  apply last_Some in L as [l ->]. rewrite elem_of_app. right. left.
Qed.

Lemma conclude_keeps_session acts g w r g' w' :
  conclude_summary g w = Done r g' w' ->
  in_session acts g -> in_session acts g'.
Proof.
  intros H (Ic & Il & If & Id & It & Is & Io & Iv & Ip).
  apply conclude_summary_Done in H
    as (prompt & used & costs & c & _ & _ & A & T & T' & C & V & Hd & Hc & D & S).
  destruct A. unfold in_session. rewrite Hd, Hc, D.
  split_and!; try done; try congruence.
  - rewrite T', <- It, T. by rewrite !length_app.
  - lia.
Qed.

Lemma turn_keeps_session acts g user_ipt w r g' w' :
  go_game_turn g user_ipt w = Done r g' w' ->
  in_session acts g -> in_session (acts ++ [user_ipt]) g'.
Proof.
  intros H I. pose proof (in_session_description _ _ I) as Ht.
  destruct I as (Ic & Il & If & Id & It & Is & Io & Iv & Ip).
  apply go_game_turn_Done in H
    as (prompt & used & _ & _ & _ & _ & A & Hd & Hc & T & C & V & Hcase).
  destruct A.
  assert (is_text (current_description g')) as Ht'.
  { destruct Hcase as [(d & summ & D & Hn & _)|(D & _ & _)].
    - exists d. by split.
    - by rewrite D. }
  unfold in_session. rewrite Hd, Hc.
  split_and!; try congruence.
  - rewrite !length_app, Il. simpl. lia.
  - apply Forall_app. split; [done|]. by constructor.
  - apply last_snoc.
  - rewrite T, !length_app, It. simpl. lia.
  - destruct Hcase as [(d & summ & _ & _ & S)|(_ & S & _)]; rewrite S; [|done].
    by destruct (history_simple_summaries g).
  - lia.
Qed.

(** What a session keeps true after each of its turns. *)
Lemma played_inv (acts : list str) (g : GameEngine) :
  played acts g -> in_session acts g.
Proof.
  induction 1 as [c ps pc pz st w r g w' H
                 |acts g u0 w r g' w' Hp IH H
                 |acts g u0 w r g' w' Hp IH H].
  - apply start_game_Done in H
      as (used & d & summ & _ & _ & A & D & Hd & Hh & Hc & Hs & Ht & Ho & Hv).
    destruct A. simpl in *. unfold in_session. rewrite Hh, Hc, D.
    split_and!; try done.
    + repeat constructor. exists d. by split.
    + by rewrite Ht.
    + rewrite Hs. done.
    + lia.
    + congruence.
  - apply go_game_false_Done in H as (g1 & w1 & H1 & H).
    eapply turn_keeps_session; [exact H|].
    destruct (compaction_due g false).
    + destruct H1 as [r1 H1]. by eapply conclude_keeps_session.
    + by destruct H1 as [-> ->].
  - apply go_game_true_Done in H as [r1 H]. by eapply conclude_keeps_session.
Qed.

(** X9. The window [call_ai] and [parse_ai_response] cut out of a text is
    there exactly when an opening brace comes before the last closing
    brace, and it then runs from the first opening brace to the last
    closing brace of the text. *)
Theorem brace_window_braced (s js : str) :
  brace_window s = Some js <-> braced s js.
Proof. apply brace_window_spec. Qed.

(** X11. The line breaks [parse_ai_response] puts into a description only
    add newline characters: the description is a subsequence of the
    result, and without its newlines the result is the description
    without its newlines. *)
Theorem reflow_only_adds_newlines (s : str) :
  s `sublist_of` reflow s /\
  without_newlines (reflow s) = without_newlines s.
Proof. apply reflow_spec. Qed.

(** X12. A text [call_ai] returns is never empty, it is the engine's
    current response, and it is the content of the completion or, when
    the content is empty, the brace window of its reasoning. *)
Theorem call_ai_returns_text
    (g : GameEngine) (prompt : str) (r : Reply) (s : str) (g' : GameEngine) :
  call_ai g prompt r = (Returned (Some s), g') ->
  nonempty s = true /\
  current_response g' = Some s /\
  exists usage content reasoning,
    r = ChatCompletion usage content reasoning /\
    (content = Some s \/
     (opt_truthy content = false /\
      exists rs, reasoning = Some (Some rs) /\ braced rs s)).
Proof.
  unfold call_ai. destruct r as [| |usage content reasoning]; [done..|].
  destruct (opt_truthy content) eqn:Hc.
  - intros H. simplify_eq. split; [exact Hc|]. split; [done|]. eauto 10.
  - destruct reasoning as [[rs|]|]; [|done..].
    destruct (nonempty rs); [|done].
    destruct (brace_window rs) as [js|] eqn:Hb; [|done].
    intros H. simplify_eq. apply brace_window_spec in Hb as Hb'.
    split.
    { destruct Hb' as (pre & mid & post & _ & -> & _). done. }
    split; [done|]. exists usage, content, (Some (Some rs)).
    split; [done|]. right. eauto.
Qed.

(** X13. An opening turn that returns has used at least one reply of the
    client; the conversation log has the exchanges of all replies used,
    failed attempts included, and the token total their sum, while the
    one cost entry it appends is the cost of the last reply alone; one
    summary and one description, a non-empty text, are appended. *)
Theorem opening_turn_ledger
    (g : GameEngine) (st_story : str) (w : list Reply)
    (r : unit) (g' : GameEngine) (w' : list Reply) :
  start_game g st_story w = Done r g' w' ->
  exists used d summ,
    w = used ++ w' /\ used <> [] /\
    accounted (start_prompt g st_story) g used g' /\
    current_description g' = JStr d /\ nonempty d = true /\
    history_descriptions g' = history_descriptions g ++ [JStr d] /\
    history_choices g' = history_choices g /\
    history_simple_summaries g' = history_simple_summaries g ++ [summ] /\
    token_consumes g' =
      token_consumes g ++ [last_cost used (l_p_token g + l_c_token g)] /\
    conclude_summary_cooldown g' = conclude_summary_cooldown g /\
    summary_conclude_val g' = summary_conclude_val g.
Proof. apply start_game_Done. Qed.

(** X14. A continuation turn with no compaction due that returns: the
    player's action was not empty, the log and the totals account for
    every reply used, the cost entry appended is the cost of the last
    reply, the cooldown is one lower, and either one summary and a
    non-empty description came in, or the one call gave no text and the
    description and the summaries are those of the turn before. *)
Theorem continuation_turn_ledger
    (g : GameEngine) (user_ipt : str) (w : list Reply)
    (r : Z) (g' : GameEngine) (w' : list Reply) :
  compaction_due g false = false ->
  go_game g user_ipt false w = Done r g' w' ->
  exists prompt used,
    nonempty user_ipt = true /\
    continue_prompt g user_ipt = Returned prompt /\
    w = used ++ w' /\ used <> [] /\
    accounted prompt g used g' /\
    history_descriptions g' = history_descriptions g ++ [current_description g'] /\
    history_choices g' = history_choices g ++ [user_ipt] /\
    token_consumes g' =
      token_consumes g ++ [last_cost used (l_p_token g + l_c_token g)] /\
    conclude_summary_cooldown g' = conclude_summary_cooldown g - 1 /\
    summary_conclude_val g' = summary_conclude_val g /\
    ((exists d summ,
        current_description g' = JStr d /\ nonempty d = true /\
        history_simple_summaries g' = history_simple_summaries g ++ [summ]) \/
     (current_description g' = current_description g /\
      history_simple_summaries g' = history_simple_summaries g /\
      exists r1 a, used = [r1] /\
        (call_ai g prompt r1).1 = Returned a /\ opt_truthy a = false)).
Proof.
  intros Hdue H. apply go_game_false_Done in H as (g1 & w1 & H1 & H).
  rewrite Hdue in H1. destruct H1 as [-> ->].
  exact (go_game_turn_Done _ _ _ _ _ _ H).
Qed.

(** X15. A compaction pass that returns has put the token limit back,
    added the cost of its last reply to the last cost entry instead of
    appending one (so there was an entry), set the cooldown to 10, left
    the histories and the description alone, and left at least one
    summary. *)
Theorem compaction_ledger
    (g : GameEngine) (w : list Reply) (r : Z) (g' : GameEngine)
    (w' : list Reply) :
  conclude_summary g w = Done r g' w' ->
  exists prompt used costs c,
    w = used ++ w' /\ used <> [] /\
    accounted prompt g used g' /\
    token_consumes g = costs ++ [c] /\
    token_consumes g' = costs ++ [c + last_cost used (l_p_token g + l_c_token g)] /\
    conclude_summary_cooldown g' = 10 /\
    summary_conclude_val g' = summary_conclude_val g /\
    history_descriptions g' = history_descriptions g /\
    history_choices g' = history_choices g /\
    current_description g' = current_description g /\
    history_simple_summaries g' <> [].
Proof. apply conclude_summary_Done. Qed.

(** X16. After a continuation turn the cooldown is one below 10 when the
    turn began with a compaction pass and one below its old value
    otherwise; either way the turn appends exactly one cost entry and
    leaves the configuration as it was, and a turn that compacted is
    never followed at once by another compaction. *)
Theorem cooldown_after_turn
    (g : GameEngine) (user_ipt : str) (w : list Reply)
    (r : Z) (g' : GameEngine) (w' : list Reply) :
  go_game g user_ipt false w = Done r g' w' ->
  conclude_summary_cooldown g' =
    (if compaction_due g false then 10 else conclude_summary_cooldown g) - 1 /\
  length (token_consumes g') = S (length (token_consumes g)) /\
  custom_config g' = custom_config g /\
  (compaction_due g false = true -> compaction_due g' false = false).
Proof.
  intros H. apply go_game_false_Done in H as (g1 & w1 & H1 & H).
  apply go_game_turn_Done in H
    as (prompt & used & _ & _ & _ & _ & A & _ & _ & T & C & _ & _).
  destruct A. destruct (compaction_due g false) eqn:Hdue.
  - destruct H1 as [r1 H1].
    apply conclude_summary_Done in H1
      as (p1 & u1 & costs & c & _ & _ & A1 & T0 & T1 & C1 & _).
    destruct A1. split_and!.
    + lia.
    + rewrite T, T0, length_app, T1, !length_app. simpl. lia.
    + congruence.
    + intros _. unfold compaction_due.
      assert ((conclude_summary_cooldown g' <? 1) = false) as ->
        by (apply Z.ltb_ge; lia).
      by rewrite andb_false_r.
  - destruct H1 as [-> ->]. split_and!; try done.
    rewrite T, length_app. simpl. lia.
Qed.

(** X17. After every completed turn of a session the choices are the
    player's actions, there is one description more than choices and one
    cost entry per turn, every description is a non-empty text and the
    last one is the current description, the summaries are not empty, the
    cooldown is at most 10, the compaction threshold is 24, and the
    player's name is the one of the configuration. *)
Theorem session_invariants (acts : list str) (g : GameEngine) :
  played acts g -> in_session acts g.
Proof. apply played_inv. Qed.

(** X18. In a session the prompt of the next turn is built from the last
    summary and the current description without an [IndexError]: it
    fails only with a [TypeError], when the last summary the model gave
    is not a string. *)
Theorem session_prompt_errors (acts : list str) (g : GameEngine) (user_ipt : str) :
  played acts g ->
  exists latest scene,
    last (history_simple_summaries g) = Some latest /\
    current_description g = JStr scene /\
    continue_prompt g user_ipt =
      match latest with
      | JStr l =>
          Returned
            (replace placeholder_action user_ipt
               (replace placeholder_scene scene
                  (replace placeholder_history l (continue_template g))))
      | _ => Raised TypeError
      end.
Proof.
  intros H. apply played_inv in H.
  destruct (in_session_description _ _ H) as (d & D & _).
  destruct H as (_ & _ & _ & _ & _ & S & _).
  destruct (last (history_simple_summaries g)) as [latest|] eqn:L.
  2: { apply last_None in L. done. }
  exists latest, d. split; [done|]. split; [done|].
  unfold continue_prompt, Py.last_item. rewrite L, D. by destruct latest.
Qed.

Lemma strings_raises (l : list json) (x : exn) :
  Py.strings l = Raised x -> x = TypeError.
Proof.
  induction l as [|v l IH]; [done|]. simpl.
  destruct v; try (intros H; by simplify_eq).
  destruct (Py.strings l); [done|]. intros H. simplify_eq. by apply IH.
Qed.

Lemma py_filter_small_raises (textmin : Z) (l : list json) (x : exn) :
  py_filter (is_small textmin) l = Raised x -> x = TypeError.
Proof.
  induction l as [|v l IH]; [done|]. simpl.
  destruct (is_small textmin v) as [b|x0] eqn:E.
  - destruct (py_filter _ l); [done|]. intros H. simplify_eq. by apply IH.
  - intros H. simplify_eq. unfold is_small in E.
    destruct (Py.truthy v); [|done].
    destruct v; simpl in E; by simplify_eq.
Qed.

(** X19. A completion with neither content nor a reasoning attribute makes
    [call_ai] raise [AttributeError]; when this is the first call of a
    compaction pass, the pass ends with the token limit still at the
    raised value of its strategy, and the summaries untouched. *)
Theorem failed_summary_call_keeps_limit
    (g : GameEngine) (st : strategy) (usage : option Usage)
    (content : option str) (w : list Reply)
    (x : exn) (g' : GameEngine) (w' : list Reply) :
  opt_truthy content = false ->
  select_strategy g = Returned st ->
  conclude_summary g (ChatCompletion usage content None :: w) = Fail x g' w' ->
  (g' = g /\ w' = ChatCompletion usage content None :: w /\ x = TypeError) \/
  (x = AttributeError /\ w' = w /\
   custom_config g' =
     set_max_tokens (custom_config g)
       (match st with Dilution => 20480 | Compression => 2048 end) /\
   history_simple_summaries g' = history_simple_summaries g /\
   token_consumes g' = token_consumes g).
Proof.
  intros Hc Hst. unfold Engine.conclude_summary. rewrite Hst.
  destruct st.
  - unfold Engine.dilute.
    destruct (Py.strings _) as [items|x0] eqn:E.
    2: { intros H. simplify_eq. left. split_and!; try done.
         by eapply strings_raises. }
    unfold bind, Engine.request_summary, next_call, call_ai. rewrite Hc.
    intros H. simplify_eq. right. by destruct usage; split_and!.
  - unfold Engine.compress.
    destruct (py_filter (is_small _) _) as [smalls|x0] eqn:E0.
    2: { intros H. simplify_eq. left. split_and!; try done.
         by eapply py_filter_small_raises. }
    destruct (Py.strings _) as [items|x0] eqn:E.
    2: { intros H. simplify_eq. left. split_and!; try done.
         by eapply strings_raises. }
    unfold bind, Engine.request_summary, next_call, call_ai. rewrite Hc.
    intros H. simplify_eq. right. by destruct usage; split_and!.
Qed.

End Turns.

Lemma brace_window_braced_witness :
  brace_window (js "Let me think. {'summary': 'A door.'} Done.")
  = Some (js "{'summary': 'A door.'}").
Proof.
  apply brace_window_braced.
  exists (u "Let me think. "), (js "'summary': 'A door.'"), (u " Done.").
  split; [reflexivity|]. split; [reflexivity|].
  split; by apply (bool_decide_unpack _).
Defined.

Lemma normalize_keeps_other_characters_witness :
  normalize [8220; 97; 8221; 65306; 98]%N !! 1%nat = Some 97%N.
Proof.
  apply (proj1 (proj2 (proj2
           (normalize_keeps_other_characters [8220; 97; 8221; 65306; 98]%N)))).
  - reflexivity.
  - by apply (bool_decide_unpack _).
Defined.

Lemma call_ai_returns_text_witness :
  nonempty (js "{'summary': 'A door.'}") = true /\
  current_response (call_ai fresh door_prompt reasoning_reply).2
    = Some (js "{'summary': 'A door.'}") /\
  exists usage content reasoning,
    reasoning_reply = ChatCompletion usage content reasoning /\
    (content = Some (js "{'summary': 'A door.'}") \/
     (opt_truthy content = false /\
      exists rs, reasoning = Some (Some rs) /\
                 braced rs (js "{'summary': 'A door.'}"))).
Proof.
  apply (call_ai_returns_text fresh door_prompt reasoning_reply).
  vm_compute; reflexivity.
Defined.

Lemma opening_turn_ledger_witness :
  exists used d summ,
    [APITimeoutError; opening_reply] = used ++ [] /\ used <> [] /\
    accounted (start_prompt fresh []) fresh used after_opening /\
    current_description after_opening = JStr d /\ nonempty d = true /\
    history_descriptions after_opening = history_descriptions fresh ++ [JStr d] /\
    history_choices after_opening = history_choices fresh /\
    history_simple_summaries after_opening =
      history_simple_summaries fresh ++ [summ] /\
    token_consumes after_opening =
      token_consumes fresh ++ [last_cost used (l_p_token fresh + l_c_token fresh)] /\
    conclude_summary_cooldown after_opening = conclude_summary_cooldown fresh /\
    summary_conclude_val after_opening = summary_conclude_val fresh.
Proof.
  apply (opening_turn_ledger Decoder.repair Decoder.loads fresh []
           [APITimeoutError; opening_reply] ()).
  vm_compute; reflexivity.
Defined.

Lemma continuation_turn_ledger_witness :
  exists prompt used,
    nonempty open_the_door = true /\
    continue_prompt after_opening open_the_door = Returned prompt /\
    [door_reply] = used ++ [] /\ used <> [] /\
    accounted prompt after_opening used after_door /\
    history_descriptions after_door =
      history_descriptions after_opening ++ [current_description after_door] /\
    history_choices after_door = history_choices after_opening ++ [open_the_door] /\
    token_consumes after_door =
      token_consumes after_opening ++
        [last_cost used (l_p_token after_opening + l_c_token after_opening)] /\
    conclude_summary_cooldown after_door =
      conclude_summary_cooldown after_opening - 1 /\
    summary_conclude_val after_door = summary_conclude_val after_opening /\
    ((exists d summ,
        current_description after_door = JStr d /\ nonempty d = true /\
        history_simple_summaries after_door =
          history_simple_summaries after_opening ++ [summ]) \/
     (current_description after_door = current_description after_opening /\
      history_simple_summaries after_door = history_simple_summaries after_opening /\
      exists r1 a, used = [r1] /\
        (call_ai after_opening prompt r1).1 = Returned a /\ opt_truthy a = false)).
Proof.
  apply (continuation_turn_ledger Decoder.repair Decoder.loads
           after_opening open_the_door [door_reply] 0).
  - vm_compute; reflexivity.
  - vm_compute; reflexivity.
Defined.

Lemma compaction_ledger_witness :
  exists prompt used costs c,
    [digest_reply] = used ++ [] /\ used <> [] /\
    accounted prompt crowded used crowded_after /\
    token_consumes crowded = costs ++ [c] /\
    token_consumes crowded_after =
      costs ++ [c + last_cost used (l_p_token crowded + l_c_token crowded)] /\
    conclude_summary_cooldown crowded_after = 10 /\
    summary_conclude_val crowded_after = summary_conclude_val crowded /\
    history_descriptions crowded_after = history_descriptions crowded /\
    history_choices crowded_after = history_choices crowded /\
    current_description crowded_after = current_description crowded /\
    history_simple_summaries crowded_after <> [].
Proof.
  apply (compaction_ledger Decoder.repair Decoder.loads crowded [digest_reply] 0).
  vm_compute; reflexivity.
Defined.

Lemma cooldown_after_turn_witness :
  conclude_summary_cooldown crowded_turn =
    (if compaction_due crowded false then 10
     else conclude_summary_cooldown crowded) - 1 /\
  length (token_consumes crowded_turn) = S (length (token_consumes crowded)) /\
  custom_config crowded_turn = custom_config crowded /\
  (compaction_due crowded false = true -> compaction_due crowded_turn false = false).
Proof.
  apply (cooldown_after_turn Decoder.repair Decoder.loads crowded open_the_door
           [digest_reply; door_reply] 0 crowded_turn []).
  vm_compute; reflexivity.
Defined.

Lemma session_invariants_witness : in_session [open_the_door] after_door.
Proof.
  apply (session_invariants Decoder.repair Decoder.loads [open_the_door] after_door).
  apply (played_continue _ _ [] after_opening open_the_door [door_reply] 0 after_door []).
  - apply (played_opening _ _ config PromptManager.empty PromptManager.empty
             PromptManager.empty [] [opening_reply] () after_opening []).
    vm_compute; reflexivity.
  - vm_compute; reflexivity.
Defined.

Lemma session_prompt_errors_witness :
  exists latest scene,
    last (history_simple_summaries after_door) = Some latest /\
    current_description after_door = JStr scene /\
    continue_prompt after_door open_the_door =
      match latest with
      | JStr l =>
          Returned
            (replace placeholder_action open_the_door
               (replace placeholder_scene scene
                  (replace placeholder_history l (continue_template after_door))))
      | _ => Raised TypeError
      end.
Proof.
  apply (session_prompt_errors Decoder.repair Decoder.loads [open_the_door]
           after_door open_the_door).
  apply (played_continue _ _ [] after_opening open_the_door [door_reply] 0 after_door []).
  - apply (played_opening _ _ config PromptManager.empty PromptManager.empty
             PromptManager.empty [] [opening_reply] () after_opening []).
    vm_compute; reflexivity.
  - vm_compute; reflexivity.
Defined.

Lemma failed_summary_call_keeps_limit_witness :
  max_tokens (custom_config crowded) = 4096 /\
  custom_config
    (final_engine (Engine.conclude_summary Decoder.repair Decoder.loads
                     crowded [silent_reply]))
  = set_max_tokens (custom_config crowded) 20480.
Proof.
  split; [reflexivity|].
  destruct (failed_summary_call_keeps_limit Decoder.repair Decoder.loads
              crowded Dilution None None [] AttributeError
              (final_engine (Engine.conclude_summary Decoder.repair Decoder.loads
                               crowded [silent_reply])) [])
    as [(_ & H & _)|(_ & _ & H & _)].
  - reflexivity.
  - vm_compute; reflexivity.
  - vm_compute; reflexivity.
  - discriminate H.
  - exact H.
Defined.

End LedgerFacts.

(** ** Colours of the terminal *)

Module PracticalFacts.
Import Practical PracticalSpec.

Lemma visible_color (c : str) (rest : str) :
  c ∈ colors -> visible_go (c ++ rest) false = visible_go rest false.
Proof.
  unfold colors. rewrite !elem_of_cons, elem_of_nil.
  intros [->|[->|[->|[->|[->|[->|[->|[]]]]]]]]; reflexivity.
Qed.

Lemma visible_char (i : char) (rest : str) :
  i <> 27%N -> visible_go (i :: rest) false = i :: visible_go rest false.
Proof. intros H. simpl. by destruct (N.eqb_spec i 27). Qed.

Lemma color_convert_color (i : char) (c : str) :
  color_convert_dict i = Some c -> c ∈ colors.
Proof.
  unfold color_convert_dict, colors.
  repeat (destruct (N.eqb i _); [intros H; simplify_eq;
                                 rewrite !elem_of_cons; tauto|]).
  done.
Qed.

Lemma pop_colors (rcs : list str) :
  Forall (fun c => c ∈ colors) rcs ->
  Forall (fun c => c ∈ colors) (pop rcs) /\
  default COLOR_RESET (last (pop rcs)) ∈ colors.
Proof.
  intros H. assert (Forall (fun c => c ∈ colors) (pop rcs)) as Hp.
  { unfold pop. by apply Forall_take. }
  split; [done|].
  destruct (last (pop rcs)) as [c|] eqn:L; simpl.
  - rewrite Forall_forall in Hp. apply Hp.
    apply last_Some in L as [l ->]. rewrite elem_of_app. right. left.
  - unfold colors. rewrite !elem_of_cons. tauto.
Qed.

Lemma join_nil_app (a b : list str) : join [] (a ++ b) = join [] a ++ join [] b.
Proof.
  induction a as [|x a IH]; [done|].
  destruct a as [|y a].
  - simpl. destruct b; simpl; [by rewrite app_nil_r|done].
  - change (join [] ((x :: y :: a) ++ b)) with (x ++ [] ++ join [] ((y :: a) ++ b)).
    rewrite IH. simpl. by rewrite app_assoc.
Qed.

Lemma colorize_go_visible (text : str) :
  forall rcs rnccs out r,
    Forall (fun c => c ∈ colors) rcs ->
    (27%N ∉ text) ->
    colorize_go text rcs rnccs out = Some r ->
    exists pieces,
      r = out ++ pieces /\
      forall tail, visible_go (join [] pieces ++ tail) false
                   = text ++ visible_go tail false.
Proof.
  induction text as [|i rest IH]; intros rcs rnccs out r Hc Hesc; simpl.
  - intros H. simplify_eq. exists [COLOR_RESET]. split; [done|].
    intros tail. reflexivity.
  - apply not_elem_of_cons in Hesc as [Hi Hrest].
    assert (forall piece rcs' rnccs',
              Forall (fun c => c ∈ colors) rcs' ->
              (forall tail, visible_go (piece ++ tail) false
                            = i :: visible_go tail false) ->
              colorize_go rest rcs' rnccs' (out ++ [piece]) = Some r ->
              exists pieces,
                r = out ++ pieces /\
                forall tail, visible_go (join [] pieces ++ tail) false
                             = (i :: rest) ++ visible_go tail false) as Hstep.
    { intros piece rcs' rnccs' Hc' Hp H.
      apply IH in H as (pieces & -> & Hv); [|done..].
      exists (piece :: pieces). split; [by rewrite <- app_assoc|].
      intros tail.
      change (piece :: pieces) with ([piece] ++ pieces).
      rewrite join_nil_app. simpl join. rewrite <- app_assoc, Hp, Hv. done. }
    destruct (color_convert_dict i) as [color|] eqn:Ec.
    + apply Hstep.
      * apply Forall_app. split; [done|]. constructor; [|done].
        by eapply color_convert_color.
      * intros tail. rewrite <- app_assoc.
        rewrite visible_color by by eapply color_convert_color.
        by apply visible_char.
    + destruct (close_chars i) as [opener|] eqn:Eo.
      * case_bool_decide; [|done].
        destruct (pop_colors rcs Hc) as [Hp Hl].
        destruct rcs as [|c0 rcs0].
        -- apply Hstep; [done|]. intros tail.
           change ((i :: COLOR_RESET) ++ tail) with (i :: COLOR_RESET ++ tail).
           rewrite visible_char by done. reflexivity.
        -- apply Hstep; [done|]. intros tail.
           set (cur := default COLOR_RESET (last (pop (c0 :: rcs0)))) in *.
           change ((i :: cur) ++ tail) with (i :: cur ++ tail).
           rewrite visible_char by done. f_equal. by apply visible_color.
      * apply Hstep; [done|]. intros tail. by apply visible_char.
Qed.

(** X20. Colouring changes nothing a terminal shows: for a text without
    an escape character, the result of [text_colorize] without its
    escape sequences is the text, whether the brackets of the text nest
    or not. *)
Theorem text_colorize_visible (text : str) :
  27%N ∉ text -> visible (text_colorize text) = text.
Proof.
  intros Hesc. unfold text_colorize, visible.
  destruct (colorize_go text [COLOR_RESET] [] []) as [r|] eqn:E.
  - assert (Forall (fun c => c ∈ colors) [COLOR_RESET]) as Hc.
    { constructor; [|constructor]. unfold colors. rewrite !elem_of_cons. tauto. }
    apply colorize_go_visible in E as (pieces & -> & Hv); [|done..].
    specialize (Hv []). rewrite !app_nil_r in Hv. done.
  - clear E. induction text as [|i rest IH]; [done|].
    apply not_elem_of_cons in Hesc as [Hi Hrest].
    rewrite visible_char by done. f_equal. by apply IH.
Qed.

Lemma colorize_go_plain (text : str) :
  forall rcs rnccs out,
    plain text ->
    colorize_go text rcs rnccs out
    = Some (out ++ ((fun i => [i]) <$> text) ++ [COLOR_RESET]).
Proof.
  induction text as [|i rest IH]; intros rcs rnccs out Hp; [done|].
  destruct (Hp i) as [Hc Ho]; [left|].
  cbn [colorize_go]. rewrite Hc, Ho. rewrite IH.
  - by rewrite <- app_assoc.
  - intros j Hj. apply Hp. by right.
Qed.

Lemma join_nil_singletons (text : str) :
  join [] ((fun i => [i]) <$> text) = text.
Proof.
  induction text as [|i rest IH]; [done|].
  change ((fun i => [i]) <$> i :: rest)
    with ([[i]] ++ ((fun i => [i]) <$> rest)).
  rewrite join_nil_app, IH. done.
Qed.

(** X21. A text without brackets comes back from [text_colorize] with the
    reset sequence after it and nothing else changed. *)
Theorem text_colorize_plain (text : str) :
  plain text -> text_colorize text = text ++ COLOR_RESET.
Proof.
  intros Hp. unfold text_colorize. rewrite colorize_go_plain by done.
  simpl app. rewrite join_nil_app, join_nil_singletons. done.
Qed.

Lemma text_colorize_visible_witness :
  visible (text_colorize (u "say <hi> [x] y]")) = u "say <hi> [x] y]" /\
  visible (text_colorize (u "say <hi [x]")) = u "say <hi [x]".
Proof.
  split; apply text_colorize_visible; by apply (bool_decide_unpack _).
Defined.

Lemma text_colorize_plain_witness :
  text_colorize (u "You wake on a beach.") = u "You wake on a beach." ++ COLOR_RESET.
Proof.
  apply text_colorize_plain.
  unfold plain. apply Forall_forall. repeat constructor.
Defined.

End PracticalFacts.

(** ** The history shown and logged *)

Module JournalFacts.
Import Engine EngineSpec Journal Ledger LedgerFacts.

Lemma py_tail_drop {A} (k : Z) (l : list A) :
  0 < k -> py_tail k l = drop (length l - Z.to_nat k) l.
Proof.
  intros Hk. unfold py_tail.
  assert ((- k <? 0) = true) as -> by (apply Z.ltb_lt; lia).
  f_equal. lia.
Qed.

Lemma lookup_zip {A B} (l : list A) (k : list B) i a b :
  zip l k !! i = Some (a, b) <-> l !! i = Some a /\ k !! i = Some b.
Proof.
  revert k i. induction l as [|x l IH]; intros [|y k] [|i]; simpl;
    try (split; [done|by intros []]).
  - split; [intros H; by simplify_eq|intros [? ?]; by simplify_eq].
  - apply IH.
Qed.

Section Shown.
Variable repair_json : option str -> res str.
Variable json_loads : str -> option json.

(** X22. In a session the history screen pairs each description with the
    action the player took on it: it shows the last [back_range] turns
    (all of them when there are fewer), entry by entry the turn number,
    the description of that turn and the player's action of that turn;
    the current description is not among them. *)
Theorem shown_history_pairs_turns
    (acts : list str) (g : GameEngine) (back_range : Z) :
  EngineSpec.played repair_json json_loads acts g ->
  0 < back_range ->
  let n := length acts in
  let first := (n - Z.to_nat back_range)%nat in
  length (print_all_history g back_range) = (n - first)%nat /\
  forall j t d c,
    print_all_history g back_range !! j = Some (t, d, c) <->
    t = Z.of_nat (first + j) + 1 /\
    history_descriptions g !! (first + j)%nat = Some d /\
    acts !! (first + j)%nat = Some c.
Proof.
  intros Hp Hk n first.
  apply (played_inv repair_json json_loads) in Hp
    as (Hc & Hl & _ & Hlast & _).
  apply last_Some in Hlast as [ds Hd].
  assert (length ds = n) as Hn.
  { rewrite Hd, length_app in Hl. simpl in Hl. unfold n. lia. }
  unfold print_all_history. cbv zeta. rewrite Hc, Hd.
  assert ((0 <? length (ds ++ [current_description g]))%nat = true) as ->.
  { apply Nat.ltb_lt. rewrite length_app. simpl. lia. }
  assert (drop_last 1 (ds ++ [current_description g]) = ds) as ->.
  { unfold drop_last. rewrite length_app. simpl.
    replace (length ds + 1 - 1)%nat with (length ds) by lia.
    apply take_app_length. }
  destruct ds as [|d0 ds'] eqn:Eds.
  { simpl in Hn. assert (acts = []) as -> by (destruct acts; [done|simpl in *; lia]).
    subst n first. simpl. split; [done|]. intros j t d c.
    split; [done|]. intros (_ & _ & H). done. }
  rewrite <- Eds in *. clear Eds d0 ds'.
  rewrite (py_tail_drop back_range ds Hk), Hn. fold first.
  assert (match acts with [] => [] | _ :: _ => py_tail back_range acts end
          = drop first acts) as ->.
  { destruct acts; [by rewrite drop_nil|]. by rewrite py_tail_drop. }
  assert (Z.of_nat n - Z.of_nat (length (drop first ds)) + 1
          = Z.of_nat first + 1) as ->.
  { rewrite length_drop, Hn. subst first. lia. }
  split.
  - rewrite length_imap, length_zip, !length_drop, Hn. fold n. lia.
  - intros j t d c. rewrite list_lookup_imap.
    destruct (zip (drop first ds) (drop first acts) !! j) as [[d' c']|] eqn:Z.
    + apply lookup_zip in Z as [Z1 Z2]. rewrite lookup_drop in Z1. rewrite lookup_drop in Z2.
      simpl. split.
      * intros H. simplify_eq. split; [lia|]. split; [|done].
        rewrite lookup_app_l; [done|]. by eapply lookup_lt_Some.
      * intros (-> & H1 & H2).
        rewrite lookup_app_l in H1 by by eapply lookup_lt_Some.
        rewrite Z1 in H1. rewrite Z2 in H2. simplify_eq.
        by replace (Z.of_nat first + 1 + Z.of_nat j)
          with (Z.of_nat (first + j) + 1) by lia.
    + simpl. split; [done|]. intros (_ & H1 & H2). exfalso.
      assert (first + j < length ds)%nat as Hlt.
      { rewrite Hn. unfold n. by eapply lookup_lt_Some. }
      destruct (lookup_lt_is_Some_2 ds (first + j)%nat Hlt) as [d1 Hd1].
      assert (zip (drop first ds) (drop first acts) !! j = Some (d1, c)) as Z'.
      { apply lookup_zip. by rewrite !lookup_drop. }
      congruence.
Qed.

(** X23. In a session the narrative log has one entry per action of the
    player, numbered from 1: entry [j] holds the description of turn [j]
    and the action taken on it, both stripped; the current description,
    which no action has answered yet, is not logged, and [str] is never
    needed, the descriptions being texts. *)
Theorem narrative_one_entry_per_action
    (py_str : json -> str) (acts : list str) (g : GameEngine) :
  EngineSpec.played repair_json json_loads acts g ->
  length (narrative_data py_str g) = length acts /\
  forall j a,
    acts !! j = Some a ->
    exists d,
      history_descriptions g !! j = Some (JStr d) /\
      narrative_data py_str g !! j
        = Some (Z.of_nat j + 1, (strip d, strip a)).
Proof.
  intros Hp.
  apply (played_inv repair_json json_loads) in Hp
    as (Hc & Hl & Ht & _).
  unfold narrative_data. rewrite Hc. split.
  - rewrite length_imap, length_zip, Hl. lia.
  - intros j a Ha.
    assert (j < length (history_descriptions g))%nat as Hlt.
    { rewrite Hl. apply lookup_lt_Some in Ha. lia. }
    destruct (lookup_lt_is_Some_2 _ _ Hlt) as [v Hv].
    rewrite Forall_forall in Ht.
    destruct (Ht v) as (d & -> & _); [by eapply list_elem_of_lookup_2|].
    exists d. split; [done|].
    rewrite list_lookup_imap.
    assert (zip (history_descriptions g) acts !! j = Some (JStr d, a)) as ->
      by by apply lookup_zip.
    done.
Qed.

End Shown.

Import Samples.

Lemma shown_history_pairs_turns_witness :
  length (print_all_history after_door 50) = 1%nat /\
  forall j t d c,
    print_all_history after_door 50 !! j = Some (t, d, c) <->
    t = Z.of_nat (0 + j) + 1 /\
    history_descriptions after_door !! (0 + j)%nat = Some d /\
    [open_the_door] !! (0 + j)%nat = Some c.
Proof.
  apply (shown_history_pairs_turns Decoder.repair Decoder.loads
           [open_the_door] after_door 50).
  - apply (played_continue _ _ [] after_opening open_the_door [door_reply] 0
             after_door []).
    + apply (played_opening _ _ config PromptManager.empty PromptManager.empty
               PromptManager.empty [] [opening_reply] () after_opening []).
      vm_compute; reflexivity.
    + vm_compute; reflexivity.
  - lia.
Defined.

Lemma narrative_one_entry_per_action_witness :
  length (narrative_data (fun _ => []) after_door) = 1%nat /\
  forall j a,
    [open_the_door] !! j = Some a ->
    exists d,
      history_descriptions after_door !! j = Some (JStr d) /\
      narrative_data (fun _ => []) after_door !! j
        = Some (Z.of_nat j + 1, (strip d, strip a)).
Proof.
  apply (narrative_one_entry_per_action Decoder.repair Decoder.loads
           (fun _ => []) [open_the_door] after_door).
  apply (played_continue _ _ [] after_opening open_the_door [door_reply] 0
           after_door []).
  - apply (played_opening _ _ config PromptManager.empty PromptManager.empty
             PromptManager.empty [] [opening_reply] () after_opening []).
    vm_compute; reflexivity.
  - vm_compute; reflexivity.
Defined.

End JournalFacts.

(** ** Retention under any label *)

Module SavesMore.
Import Saves SavesSpec SavesFacts SavesSamples.

Lemma not_elem_of_rev (c : char) (l : str) : c ∉ l -> c ∉ rev l.
Proof.
  intros Hc Hin. apply Hc. apply list_elem_of_In, in_rev.
  by apply list_elem_of_In.
Qed.

Lemma split_go_parts (c : char) (s cur part : str) :
  part ∈ split_go c s cur -> (c ∉ cur) -> c ∉ part.
Proof.
  revert cur. induction s as [|x s IH]; intros cur; simpl.
  - intros H Hc. apply list_elem_of_singleton in H as ->.
    by apply not_elem_of_rev.
  - destruct (N.eqb_spec x c) as [->|Hne].
    + intros H Hc. apply elem_of_cons in H as [->|H].
      * by apply not_elem_of_rev.
      * apply (IH [] H). apply not_elem_of_nil.
    + intros H Hc. apply (IH (x :: cur) H).
      apply not_elem_of_cons. split; [congruence|done].
Qed.

Lemma strftime_underscore (t : moment) : 95%N ∈ strftime t.
Proof.
  unfold strftime. rewrite elem_of_app. right. left.
Qed.

Lemma length_strftime (t : moment) : length (strftime t) = 15%nat.
Proof. unfold strftime. rewrite !length_app, !length_decimal. done. Qed.

Section Key.
Variable char_isdigit : char -> bool.
Local Abbreviation key := (get_file_timestamp char_isdigit).

(** X24. The sort key of retention is the file name itself or a part of
    it of 15 characters that has no underscore: it is never the time
    stamp [YYYYMMDD_HHMMSS] the comments promise, and for a file
    [save_game] wrote it is not the stamp in its name. *)
Theorem timestamp_key_is_not_the_stamp (f : str) :
  (key f = f \/
   (length (key f) = 15%nat /\ (95%N ∉ key f) /\
    isdigit char_isdigit (take 8 (key f)) = true /\
    isdigit char_isdigit (drop 9 (key f)) = true)) /\
  (forall t, key f = strftime t -> f = strftime t) /\
  (forall save_name t is_manual_save,
     f = save_file_name save_name (strftime t) is_manual_save ->
     key f <> strftime t).
Proof.
  assert (key f = f \/
          (length (key f) = 15%nat /\ (95%N ∉ key f) /\
           isdigit char_isdigit (take 8 (key f)) = true /\
           isdigit char_isdigit (drop 9 (key f)) = true)) as Hkey.
  { unfold get_file_timestamp.
    destruct (List.find _ _) as [part|] eqn:E; [|by left].
    right. apply find_some in E as [Hin Hp].
    apply list_elem_of_In in Hin.
    unfold is_stamp_part in Hp.
    apply andb_prop in Hp as [Hp H9]. apply andb_prop in Hp as [Hl H8].
    apply Nat.eqb_eq in Hl. split_and!; try done.
    eapply split_go_parts; [exact Hin|apply not_elem_of_nil]. }
  assert (forall t, key f = strftime t -> f = strftime t) as Hstamp.
  { intros t E. destruct Hkey as [Hk|(_ & Hn & _)]; [congruence|].
    exfalso. apply Hn. rewrite E. apply strftime_underscore. }
  split; [exact Hkey|]. split; [exact Hstamp|].
  intros save_name t manual -> E. apply Hstamp in E.
  apply (f_equal length) in E. rewrite length_strftime in E.
  unfold save_file_name in E.
  destruct manual; rewrite !length_app, length_strftime in E; simpl in E; lia.
Qed.

End Key.

Lemma timestamp_key_is_not_the_stamp_witness :
  get_file_timestamp ascii_digit (autosave_name sample_moment)
  <> strftime sample_moment.
Proof.
  apply (proj2 (proj2 (timestamp_key_is_not_the_stamp ascii_digit
                         (autosave_name sample_moment)))
           autosave sample_moment false).
  reflexivity.
Defined.

Section AnyLabel.
Variable char_isdigit : char -> bool.
Variable listdir : directory -> list str.
Hypothesis listdir_perm : forall dir, listdir dir ≡ₚ dir.

Local Abbreviation manage_auto_saves := (Saves.manage_auto_saves char_isdigit listdir).
Local Abbreviation files_to_delete := (Saves.files_to_delete char_isdigit listdir).
Local Abbreviation key := (get_file_timestamp char_isdigit).

Variable dir : directory.
Variable save_name : str.
Hypothesis dir_nodup : NoDup dir.

Local Abbreviation cands := (auto_save_files (listdir dir) save_name).
Local Abbreviation sorted := (sort_by_key key cands).
Local Abbreviation k := (length sorted - 5)%nat.

Lemma label_sorted_spec x :
  x ∈ sorted <-> x ∈ dir /\ is_auto_save_file save_name x = true.
Proof.
  rewrite sort_by_key_perm. unfold auto_save_files.
  by rewrite elem_of_filter_bool, (listdir_perm dir).
Qed.

Lemma label_sorted_nodup : NoDup sorted.
Proof.
  rewrite sort_by_key_perm. unfold auto_save_files.
  apply NoDup_filter_bool. by rewrite listdir_perm.
Qed.

Lemma label_sorted_length :
  length sorted = length (auto_save_files dir save_name).
Proof.
  rewrite sort_by_key_perm. unfold auto_save_files.
  apply filter_length_perm, listdir_perm.
Qed.

Lemma label_deleted : files_to_delete dir save_name = take k sorted.
Proof.
  unfold Saves.files_to_delete.
  destruct (Nat.ltb_spec 5 (length cands)) as [H|H]; [done|].
  assert (length sorted - 5 = 0)%nat as ->; [|done].
  rewrite sort_by_key_perm. lia.
Qed.

Lemma label_kept x :
  x ∈ auto_save_files (manage_auto_saves dir save_name) save_name
  <-> x ∈ drop k sorted.
Proof.
  unfold auto_save_files at 1, Saves.manage_auto_saves.
  rewrite elem_of_filter_bool, elem_of_remove_files, label_deleted.
  pose proof label_sorted_nodup as Hn.
  rewrite <- (take_drop k sorted) in Hn.
  apply NoDup_app in Hn as (_ & Hdis & _).
  split.
  - intros [[Hd Hn] Ha].
    assert (x ∈ sorted) as Hx by by apply label_sorted_spec.
    rewrite <- (take_drop k sorted), elem_of_app in Hx. by destruct Hx.
  - intros Hx.
    assert (x ∈ sorted) as Hx' by by apply (subseteq_drop k sorted).
    apply label_sorted_spec in Hx' as [Hd Ha]. repeat split; try done.
    intros Hf. by eapply Hdis.
Qed.

Lemma label_kept_perm :
  auto_save_files (manage_auto_saves dir save_name) save_name ≡ₚ drop k sorted.
Proof.
  apply NoDup_Permutation.
  - unfold auto_save_files, Saves.manage_auto_saves, remove_files.
    by do 2 apply NoDup_filter_bool.
  - pose proof label_sorted_nodup as H. rewrite <- (take_drop k sorted) in H.
    by apply NoDup_app in H as (_ & _ & H).
  - apply label_kept.
Qed.

(** X25. Retention under any label, on any directory: afterwards at most
    five files pass the filter of the label (all of them when there were
    five or fewer), a second pass changes nothing, no file that was
    deleted has a sort key above the key of a file of the label that was
    kept, and no file that fails the filter is touched. *)
Theorem retention_any_label :
  let dir' := manage_auto_saves dir save_name in
  length (auto_save_files dir' save_name)
    = Nat.min 5 (length (auto_save_files dir save_name)) /\
  manage_auto_saves dir' save_name = dir' /\
  (forall x y,
     x ∈ dir -> x ∉ dir' ->
     y ∈ dir' -> is_auto_save_file save_name y = true ->
     is_auto_save_file save_name x = true /\ ltb (key y) (key x) = false) /\
  (forall f, f ∈ dir' -> f ∈ dir) /\
  (forall f, f ∈ dir -> is_auto_save_file save_name f = false -> f ∈ dir').
Proof.
  intros dir'.
  assert (length (auto_save_files dir' save_name)
          = Nat.min 5 (length (auto_save_files dir save_name))) as Hlen.
  { unfold dir'. rewrite label_kept_perm, length_drop.
    pose proof label_sorted_length. lia. }
  split; [exact Hlen|]. split; [|split; [|split]].
  - apply (manage_few char_isdigit listdir listdir_perm). lia.
  - intros x y Hx Hgone Hy Hcy.
    assert (x ∈ take k sorted) as Hfront.
    { rewrite <- label_deleted.
      destruct (decide (x ∈ files_to_delete dir save_name)); [done|].
      exfalso. apply Hgone. by apply elem_of_remove_files. }
    assert (y ∈ drop k sorted) as Hback.
    { apply label_kept. by apply elem_of_filter_bool. }
    split.
    { apply (subseteq_take k sorted) in Hfront.
      by apply label_sorted_spec in Hfront as [_ ?]. }
    pose proof (sort_by_key_sorted key cands) as Hs.
    rewrite <- (take_drop k sorted) in Hs.
    exact (StronglySorted_app_1_elem_of _ _ _ _ _ Hs Hfront Hback).
  - apply (manage_subset char_isdigit listdir).
  - apply (manage_keeps_others char_isdigit listdir listdir_perm).
Qed.

End AnyLabel.

Lemma retention_any_label_witness :
  let dir' := Saves.manage_auto_saves ascii_digit (@rev str) shelf (u "quick") in
  length (auto_save_files dir' (u "quick"))
    = Nat.min 5 (length (auto_save_files shelf (u "quick"))) /\
  Saves.manage_auto_saves ascii_digit (@rev str) dir' (u "quick") = dir' /\
  (forall x y,
     x ∈ shelf -> x ∉ dir' ->
     y ∈ dir' -> is_auto_save_file (u "quick") y = true ->
     is_auto_save_file (u "quick") x = true /\
     ltb (get_file_timestamp ascii_digit y) (get_file_timestamp ascii_digit x)
       = false) /\
  (forall f, f ∈ dir' -> f ∈ shelf) /\
  (forall f, f ∈ shelf -> is_auto_save_file (u "quick") f = false -> f ∈ dir').
Proof.
  apply (retention_any_label ascii_digit (@rev str)).
  - intros dir. symmetry. apply Permutation_rev.
  - by apply (bool_decide_unpack _).
Defined.

End SavesMore.

(** ** The turns return *)

Module ProgressFacts.
Import Engine EngineSpec EngineFacts Samples Progress ProgressSamples.

Lemma call_ai_result g prompt r : (call_ai g prompt r).1 = reply_text r.
Proof.
  unfold reply_text, call_ai.
  destruct r as [| |usage content reasoning]; [done..|].
  destruct (opt_truthy content); [done|].
  destruct reasoning as [[rs|]|]; [|done..].
  destruct (nonempty rs); [|done]. by destruct (brace_window rs).
Qed.

Section Returns.
Variable repair_json : option str -> res str.
Variable json_loads : str -> option json.

Local Abbreviation parse_ai_response := (Engine.parse_ai_response repair_json json_loads).
Local Abbreviation retry_until_parsed := (Engine.retry_until_parsed repair_json json_loads).
Local Abbreviation start_game := (Engine.start_game repair_json json_loads).
Local Abbreviation go_game := (Engine.go_game repair_json json_loads).
Local Abbreviation verdict := (Progress.verdict repair_json json_loads).
Local Abbreviation passed_over := (Progress.passed_over repair_json json_loads).
Local Abbreviation accepted := (Progress.accepted repair_json json_loads).

Lemma parse_result g response :
  fst <$> parse_ai_response g response = verdict response.
Proof.
  unfold Progress.verdict, Engine.parse_ai_response.
  destruct (repair_json _) as [repaired|[]]; try done.
  destruct (json_loads repaired) as [v|]; [|done].
  destruct (Engine.unwrap _ _ _) as [d| | | |]; try done.
  destruct (default (JStr []) (Py.dict_get key_description d)); try done.
  destruct (negb _); [done|]. by destruct (nonempty (reflow _)).
Qed.

Lemma parse_with_verdict g response b :
  verdict response = Some (Returned b) ->
  exists g', parse_ai_response g response = Some (Returned b, g').
Proof.
  rewrite <- (parse_result g). intros H.
  destruct (parse_ai_response g response) as [[r g']|]; [|done].
  simpl in H. simplify_eq. eauto.
Qed.

Lemma call_ai_with_text g prompt r a :
  reply_text r = Returned a ->
  exists g', call_ai g prompt r = (Returned a, g').
Proof.
  rewrite <- (call_ai_result g prompt). intros H.
  destruct (call_ai g prompt r) as [x g']. simpl in H. subst. eauto.
Qed.

Lemma retry_until_parsed_returns prompt r rest bads :
  Forall passed_over bads -> accepted r ->
  forall g, exists g',
    retry_until_parsed prompt g (bads ++ r :: rest) = Done () g' rest.
Proof.
  intros Hb (s & Hr & Hs & Hv).
  induction Hb as [|b bads Hp _ IH]; intros g; simpl.
  - destruct (call_ai_with_text g prompt r _ Hr) as [g1 ->]. rewrite Hs.
    destruct (parse_with_verdict g1 s true Hv) as [g2 ->]. eauto.
  - unfold Progress.passed_over in Hp.
    destruct (reply_text b) as [[t|]|] eqn:Eb; [| |done].
    + destruct (call_ai_with_text g prompt b _ Eb) as [g1 ->].
      destruct (nonempty t) eqn:Ht; [|apply IH].
      destruct Hp as [?|Hf]; [done|].
      destruct (parse_with_verdict g1 t false Hf) as [g2 ->]. apply IH.
    + destruct (call_ai_with_text g prompt b _ Eb) as [g1 ->]. apply IH.
Qed.



Lemma strings_of_strings (l : list str) : Py.strings (JStr <$> l) = Returned l.
Proof.
  induction l as [|x l IH]; [done|].
  rewrite fmap_cons. cbn [Py.strings]. by rewrite IH.
Qed.

Lemma filter_truthy_strings (l : list str) :
  filter (fun i => Py.truthy i = true) (JStr <$> l)
  = JStr <$> filter (fun s => nonempty s = true) l.
Proof.
  induction l as [|x l IH]; [done|].
  rewrite fmap_cons, !filter_cons, IH. simpl.
  destruct (decide (nonempty x = true)); done.
Qed.

Lemma py_filter_small_strings textmin (l : list str) :
  exists r, py_filter (is_small textmin) (JStr <$> l) = Returned (JStr <$> r).
Proof.
  induction l as [|x l [r IH]]; [by exists []|].
  rewrite fmap_cons. cbn [py_filter]. rewrite IH. unfold is_small. simpl.
  destruct (nonempty x); simpl.
  - destruct (PyStr.len x <? textmin); [by exists (x :: r)|by exists r].
  - by exists r.
Qed.

Lemma py_filter_large_strings textmin (l : list str) :
  exists r, py_filter (is_large textmin) (JStr <$> l) = Returned r.
Proof.
  induction l as [|x l [r IH]]; [by exists []|].
  rewrite fmap_cons. cbn [py_filter]. rewrite IH. unfold is_large. simpl.
  destruct (nonempty x); simpl; eauto.
Qed.

Lemma retry_until_summary_returns prompt r rest bads :
  Forall (Progress.passed_summary repair_json json_loads) bads ->
  Progress.accepted_summary repair_json json_loads r ->
  forall g, exists summ g',
    Engine.retry_until_summary repair_json json_loads prompt g (bads ++ r :: rest)
    = Done summ g' rest.
Proof.
  intros Hb (a & summ & Hr & Hv).
  induction Hb as [|b bads (a' & v & Eb & Hv') _ IH]; intros g; simpl.
  - destruct (call_ai_with_text g prompt r _ Hr) as [g1 ->]. rewrite Hv. eauto.
  - destruct (call_ai_with_text g prompt b _ Eb) as [g1 ->]. rewrite Hv'.
    apply IH.
Qed.

Lemma request_summary_returns prompt limit r rest bads g :
  Forall (Progress.passed_summary repair_json json_loads) bads ->
  Progress.accepted_summary repair_json json_loads r ->
  exists summ g',
    Engine.request_summary repair_json json_loads prompt limit g (bads ++ r :: rest)
    = Done summ g' rest.
Proof.
  intros Hb Hr. unfold Engine.request_summary, next_call.
  destruct Hb as [|b bads (a' & v & Eb & Hv') Hb]; simpl.
  - destruct Hr as (a & summ & Hr & Hv).
    destruct (call_ai_with_text
                (with_config g (set_max_tokens (custom_config g) limit))
                prompt r _ Hr) as [g1 ->].
    rewrite Hv. eauto.
  - destruct (call_ai_with_text
                (with_config g (set_max_tokens (custom_config g) limit))
                prompt b _ Eb) as [g1 ->].
    rewrite Hv'. by apply retry_until_summary_returns.
Qed.

Lemma finish_compaction_returns g w l :
  token_consumes g <> [] -> exists g', finish_compaction g w l = Done 0 g' w.
Proof.
  intros Ht. unfold finish_compaction, add_to_last. simpl.
  destruct (last (token_consumes g)) as [c|] eqn:L; [eauto|].
  by apply last_None in L.
Qed.


End Returns.




End ProgressFacts.
